(** * stream_receiver: the frame relay of [stream_server.py] and
      [stream_server_working_backup.py]

    A shallow embedding of the frame queue, the byte-read primitive
    [recvall], the per-connection read loop of [StreamReceiver], the
    receiver's life cycle, the [/status] route and the multipart
    generator, followed by the properties proved about them.

    Python integers are [Z]; byte strings ([bytes], [bytearray]) are
    [list byte]; time is counted in milliseconds. *)

From Stdlib Require Import ZArith List Bool Lia.
From Stdlib Require Import Strings.Byte.
From Stdlib Require Strings.String.
Import ListNotations.

Local Open Scope Z_scope.

(** ** Byte strings *)

Definition frame := list byte.

(** Python's [len]. *)
Definition len {A : Type} (l : list A) : Z := Z.of_nat (length l).

(** Python's slices [b[:k]] and [b[k:]] for [0 <= k]. *)
Definition take {A : Type} (k : Z) (l : list A) : list A := firstn (Z.to_nat k) l.
Definition drop {A : Type} (k : Z) (l : list A) : list A := skipn (Z.to_nat k) l.

(** Truth value of a byte string: [not b] holds for the empty one. *)
Definition is_empty {A : Type} (l : list A) : bool :=
  match l with [] => true | _ :: _ => false end.

(** ** [queue.Queue]

    [frame_queue = Queue(maxsize=10)].  The operations are those of
    CPython's [queue.Queue]; [get] and [put] are the blocking calls, and
    [None] stands for a call that would wait (for ever, when no other
    thread touches the queue). *)

Module Queue.

Record t := mk { maxsize : Z; items : list frame }.

Definition create (maxsize : Z) : t := mk maxsize [].

Definition qsize (q : t) : Z := len (items q).

(** [return not self._qsize()] *)
Definition empty (q : t) : bool := qsize q =? 0.

(** [return 0 < self.maxsize <= self._qsize()] *)
Definition full (q : t) : bool := (0 <? maxsize q) && (maxsize q <=? qsize q).

(** [get()]: waits while the queue is empty, then pops the left end. *)
Definition get (q : t) : option (frame * t) :=
  match items q with
  | [] => None
  | x :: rest => Some (x, mk (maxsize q) rest)
  end.

(** [put(item)]: waits while [maxsize > 0] and [qsize >= maxsize],
    then appends at the right end. *)
Definition put (q : t) (x : frame) : option t :=
  if (0 <? maxsize q) && (maxsize q <=? qsize q) then None
  else Some (mk (maxsize q) (items q ++ [x])).

End Queue.

(** The module-level [frame_queue]. *)
Definition frame_queue : Queue.t := Queue.create 10.

(** The push of [receive_frames]:
<<
    if frame_queue.full():
        frame_queue.get()
    frame_queue.put(frame_data)
>> *)
Definition push (q : Queue.t) (x : frame) : option Queue.t :=
  if Queue.full q then
    match Queue.get q with
    | Some (_, q1) => Queue.put q1 x
    | None => None
    end
  else Queue.put q x.

(** A run of pushes, stopping at the first one that blocks. *)
Fixpoint push_all (q : Queue.t) (xs : list frame) : option Queue.t :=
  match xs with
  | [] => Some q
  | x :: rest =>
      match push q x with
      | Some q1 => push_all q1 rest
      | None => None
      end
  end.

(** The guarded pop of [generate_frames]:
<<
    if not frame_queue.empty():
        frame = frame_queue.get()
>> *)
Inductive popped := Got (f : frame) | Nothing.

Definition try_pop (q : Queue.t) : option (popped * Queue.t) :=
  if negb (Queue.empty q) then
    match Queue.get q with
    | Some (f, q1) => Some (Got f, q1)
    | None => None
    end
  else Some (Nothing, q).

(** [k] successive guarded pops, with what each returned. *)
Fixpoint try_pops (k : nat) (q : Queue.t) : option (list popped * Queue.t) :=
  match k with
  | O => Some ([], q)
  | S k' =>
      match try_pop q with
      | Some (r, q1) =>
          match try_pops k' q1 with
          | Some (rs, q2) => Some (r :: rs, q2)
          | None => None
          end
      | None => None
      end
  end.

(** ** The producer's socket

    What the receiver sees of a producer connection is the outcome of its
    successive [recv] calls.  A connection is a script of such outcomes,
    each after a delay; when the script is exhausted the peer has closed
    and [recv] returns [b'']. *)

Inductive recv_event :=
| Data (bs : list byte)   (* these bytes have arrived *)
| Timeout                 (* the call raises [socket.timeout] *)
| Eintr                   (* [socket.error] with [errno.EINTR] *)
| Error.                  (* any other [socket.error] *)

Definition script := list (Z * recv_event).

Record io := mkio { clock : Z; pending : script }.

Inductive recv_result :=
| Packet (packet : list byte)
| Raised_timeout
| Raised_error (eintr : bool).

(** [sock.recv(bufsize)]: at most [bufsize] bytes of what has arrived;
    the rest stays readable at once. *)
Definition recv (s : io) (bufsize : Z) : recv_result * io :=
  match pending s with
  | [] => (Packet [], s)
  | (d, ev) :: rest =>
      let now := clock s + d in
      match ev with
      | Data bs =>
          if bufsize <? len bs
          then (Packet (take bufsize bs), mkio now ((0, Data (drop bufsize bs)) :: rest))
          else (Packet bs, mkio now rest)
      | Timeout => (Raised_timeout, mkio now rest)
      | Eintr => (Raised_error true, mkio now rest)
      | Error => (Raised_error false, mkio now rest)
      end
  end.

(** A bound on the number of [recv] calls a script can serve. *)
Fixpoint weight (sc : script) : nat :=
  match sc with
  | [] => O
  | (_, Data bs) :: rest => S (length bs + weight rest)
  | _ :: rest => S (weight rest)
  end.

(** All the bytes a script holds, in order. *)
Fixpoint bytes_of (sc : script) : list byte :=
  match sc with
  | [] => []
  | (_, Data bs) :: rest => bs ++ bytes_of rest
  | _ :: rest => bytes_of rest
  end.

(** What a call of [recvall] comes to. *)
Inductive outcome :=
| Return (v : option (list byte))   (* [None], or the bytearray *)
| Raise_timeout                     (* [socket.timeout] *)
| Raise_error                       (* [socket.error] *)
| Out_of_fuel.

(** [not v] for what [recvall] returns. *)
Definition falsy (v : option (list byte)) : bool :=
  match v with
  | None => true
  | Some data => is_empty data
  end.

(** [struct.unpack('!I', size_data)[0]]; [None] is [struct.error]. *)
Definition byte_val (b : byte) : Z := Z.of_N (Byte.to_N b).

Definition unpack_be32 (size_data : list byte) : option Z :=
  match size_data with
  | [b0; b1; b2; b3] =>
      Some (((byte_val b0 * 256 + byte_val b1) * 256 + byte_val b2) * 256 + byte_val b3)
  | _ => None
  end.

(** The producer's side of the wire format, [struct.pack('!I', n)]. *)
Definition byte_of_Z (z : Z) : byte :=
  match Byte.of_N (Z.to_N (z mod 256)) with
  | Some b => b
  | None => x00
  end.

Definition pack_be32 (n : Z) : list byte :=
  [byte_of_Z (n / 16777216); byte_of_Z (n / 65536); byte_of_Z (n / 256); byte_of_Z n].

(** How the read loop of one connection ends. *)
Inductive ending :=
| Lost_reading_size    (* [not size_data] *)
| Lost_reading_frame   (* [not frame_data] *)
| Too_large            (* [ValueError("Frame size too large")] *)
| Timed_out            (* [socket.timeout] out of [recvall] *)
| Socket_failed        (* [socket.error] out of [recv] *)
| Bad_header           (* [struct.error] *)
| Not_running          (* [self.running] found false *)
| Blocked              (* a queue call that waits for ever *)
| No_fuel.

(** One pass of the read loop. *)
Inductive pass :=
| Pushed (frame_data : frame) (q : Queue.t) (s : io)
| Ended (e : ending) (q : Queue.t) (s : io).

(** A connection's read loop as a whole: how it ended, the queue and the
    socket it left, and the frames it put, in order. *)
Record run := mkrun { ended : ending; queue : Queue.t; sock : io; puts : list frame }.

Definition put_first (f : frame) (r : run) : run :=
  mkrun (ended r) (queue r) (sock r) (f :: puts r).

(** ** [stream_server.py] *)

Module Server.

(** [recvall]'s loop; [start_time] is [time.time()] at entry, and ten
    seconds are 10000 ms. *)
Fixpoint recvall_loop (fuel : nat) (start_time n : Z) (data : list byte) (s : io)
  : outcome * io :=
  match fuel with
  | O => (Out_of_fuel, s)
  | S fuel' =>
      if (len data <? n) && (clock s - start_time <? 10000) then
        match recv s (Z.min (n - len data) 8192) with
        | (Packet packet, s1) =>
            if is_empty packet then (Return None, s1)
            else recvall_loop fuel' start_time n (data ++ packet) s1
        | (Raised_timeout, s1) => recvall_loop fuel' start_time n data s1
        | (Raised_error true, s1) => recvall_loop fuel' start_time n data s1
        | (Raised_error false, s1) => (Raise_error, s1)
        end
      else if len data <? n then (Raise_timeout, s)
      else (Return (Some data), s)
  end.

Definition recvall (s : io) (n : Z) : outcome * io :=
  recvall_loop (S (weight (pending s))) (clock s) n [] s.

(** The body of [while self.running:] in [receive_frames], lines 97-113. *)
Definition read_frame (q : Queue.t) (s : io) : pass :=
  match recvall s 4 with
  | (Return size_data, s1) =>
      if falsy size_data then Ended Lost_reading_size q s1
      else
        match unpack_be32 (match size_data with Some d => d | None => [] end) with
        | None => Ended Bad_header q s1
        | Some frame_size =>
            if 10000000 <? frame_size then Ended Too_large q s1
            else
              match recvall s1 frame_size with
              | (Return frame_data, s2) =>
                  if falsy frame_data then Ended Lost_reading_frame q s2
                  else
                    let f := match frame_data with Some d => d | None => [] end in
                    match push q f with
                    | Some q1 => Pushed f q1 s2
                    | None => Ended Blocked q s2
                    end
              | (Raise_timeout, s2) => Ended Timed_out q s2
              | (Raise_error, s2) => Ended Socket_failed q s2
              | (Out_of_fuel, s2) => Ended No_fuel q s2
              end
        end
  | (Raise_timeout, s1) => Ended Timed_out q s1
  | (Raise_error, s1) => Ended Socket_failed q s1
  | (Out_of_fuel, s1) => Ended No_fuel q s1
  end.

(** The read loop of one connection, lines 96-113. *)
Fixpoint read_loop (fuel : nat) (running : bool) (q : Queue.t) (s : io) : run :=
  match fuel with
  | O => mkrun No_fuel q s []
  | S fuel' =>
      if running then
        match read_frame q s with
        | Pushed f q1 s1 => put_first f (read_loop fuel' running q1 s1)
        | Ended e q1 s1 => mkrun e q1 s1 []
        end
      else mkrun Not_running q s []
  end.

Definition serve (running : bool) (q : Queue.t) (s : io) : run :=
  read_loop (S (weight (pending s))) running q s.

End Server.

(** ** [stream_server_working_backup.py] *)

Module Backup.

Fixpoint recvall_loop (fuel : nat) (n : Z) (data : list byte) (s : io)
  : outcome * io :=
  match fuel with
  | O => (Out_of_fuel, s)
  | S fuel' =>
      if len data <? n then
        match recv s (n - len data) with
        | (Packet packet, s1) =>
            if is_empty packet then (Return None, s1)
            else recvall_loop fuel' n (data ++ packet) s1
        | (Raised_timeout, s1) => (Raise_timeout, s1)
        | (Raised_error _, s1) => (Raise_error, s1)
        end
      else (Return (Some data), s)
  end.

Definition recvall (s : io) (n : Z) : outcome * io :=
  recvall_loop (S (weight (pending s))) n [] s.

(** The body of [while True:] in [receive_frames], lines 56-70; the two
    [break]s end the loop as the exceptions of the other file do. *)
Definition read_frame (q : Queue.t) (s : io) : pass :=
  match recvall s 4 with
  | (Return size_data, s1) =>
      if falsy size_data then Ended Lost_reading_size q s1
      else
        match unpack_be32 (match size_data with Some d => d | None => [] end) with
        | None => Ended Bad_header q s1
        | Some frame_size =>
            match recvall s1 frame_size with
            | (Return frame_data, s2) =>
                if falsy frame_data then Ended Lost_reading_frame q s2
                else
                  let f := match frame_data with Some d => d | None => [] end in
                  match push q f with
                  | Some q1 => Pushed f q1 s2
                  | None => Ended Blocked q s2
                  end
            | (Raise_timeout, s2) => Ended Timed_out q s2
            | (Raise_error, s2) => Ended Socket_failed q s2
            | (Out_of_fuel, s2) => Ended No_fuel q s2
            end
        end
  | (Raise_timeout, s1) => Ended Timed_out q s1
  | (Raise_error, s1) => Ended Socket_failed q s1
  | (Out_of_fuel, s1) => Ended No_fuel q s1
  end.

Fixpoint read_loop (fuel : nat) (q : Queue.t) (s : io) : run :=
  match fuel with
  | O => mkrun No_fuel q s []
  | S fuel' =>
      match read_frame q s with
      | Pushed f q1 s1 => put_first f (read_loop fuel' q1 s1)
      | Ended e q1 s1 => mkrun e q1 s1 []
      end
  end.

Definition serve (q : Queue.t) (s : io) : run :=
  read_loop (S (weight (pending s))) q s.

End Backup.

(** ** The receiver's life cycle ([stream_server.py])

    The receiver object, the queue and what the environment decides: the
    time, whether the port can be bound, and what the successive
    [accept] calls give.  The calls that leave no mark on these
    (closing a socket, sleeping, putting a frame) are recorded as
    effects. *)

Record listener := mklistener { listening : bool; closed : bool }.

Record StreamReceiver := mkreceiver {
  bind_port : Z;
  running : bool;
  server_socket : option listener;
  current_client : option io
}.

Inductive effect :=
| Close_client          (* [self.current_client.close()] *)
| Close_server          (* [self.server_socket.close()] *)
| Put (f : frame)       (* [frame_queue.put(frame_data)] *)
| Sleep (ms : Z).       (* [time.sleep] *)

Record world := mkworld {
  self : StreamReceiver;
  buffer : Queue.t;                   (* [frame_queue] *)
  now : Z;
  port_free : bool;                   (* whether [bind] succeeds *)
  incoming : list (option script);    (* successive [accept]s; [None] fails *)
  effects : list effect
}.

Definition with_self (w : world) (r : StreamReceiver) : world :=
  mkworld r (buffer w) (now w) (port_free w) (incoming w) (effects w).

Definition with_effects (w : world) (es : list effect) : world :=
  mkworld (self w) (buffer w) (now w) (port_free w) (incoming w) (effects w ++ es).

Definition sleep (ms : Z) (w : world) : world :=
  mkworld (self w) (buffer w) (now w + ms) (port_free w) (incoming w)
          (effects w ++ [Sleep ms]).

Definition set_running (b : bool) (r : StreamReceiver) : StreamReceiver :=
  mkreceiver (bind_port r) b (server_socket r) (current_client r).

Definition set_server_socket (l : option listener) (r : StreamReceiver) : StreamReceiver :=
  mkreceiver (bind_port r) (running r) l (current_client r).

Definition set_current_client (c : option io) (r : StreamReceiver) : StreamReceiver :=
  mkreceiver (bind_port r) (running r) (server_socket r) c.

(** [setup_socket]: an existing socket is closed, a new one made; a
    failing [bind] leaves the new socket unbound, sleeps 5 s and
    returns [False]. *)
Definition setup_socket (w : world) : bool * world :=
  let w1 := match server_socket (self w) with
            | Some _ => with_effects w [Close_server]
            | None => w
            end in
  if port_free w1
  then (true, with_self w1 (set_server_socket (Some (mklistener true false)) (self w1)))
  else (false, sleep 5000
                 (with_self w1 (set_server_socket (Some (mklistener false false)) (self w1)))).

(** [cleanup_client] *)
Definition cleanup_client (w : world) : world :=
  match current_client (self w) with
  | Some _ => with_self (with_effects w [Close_client]) (set_current_client None (self w))
  | None => w
  end.

(** [stop] *)
Definition stop (w : world) : world :=
  let w1 := cleanup_client (with_self w (set_running false (self w))) in
  match server_socket (self w1) with
  | Some _ =>
      with_self (with_effects w1 [Close_server])
                (set_server_socket (Some (mklistener false true)) (self w1))
  | None => w1
  end.

(** [self.server_socket.accept()]; [None] when it raises: no socket, a
    socket closed or not listening, a failing accept, or nobody
    connecting within the 30 s of [settimeout(30)]. *)
Definition accept (w : world) : option io * world :=
  match server_socket (self w) with
  | Some l =>
      if listening l && negb (closed l) then
        match incoming w with
        | Some sc :: rest =>
            (Some (mkio (now w) sc),
             mkworld (self w) (buffer w) (now w) (port_free w) rest (effects w))
        | None :: rest =>
            (None, mkworld (self w) (buffer w) (now w) (port_free w) rest (effects w))
        | [] =>
            (None, mkworld (self w) (buffer w) (now w + 30000) (port_free w) [] (effects w))
        end
      else (None, w)
  | None => (None, w)
  end.

(** One pass of [while self.running:] in [receive_frames], lines 85-132;
    [None] when the pass does not come back. *)
Definition receive_frames_pass (w : world) : option world :=
  let '(ready, w1) := match server_socket (self w) with
                      | None => setup_socket w
                      | Some _ => (true, w)
                      end in
  if negb ready then Some (cleanup_client w1)
  else
    match accept w1 with
    | (Some s, w2) =>
        let r := Server.serve (running (self w2)) (buffer w2) s in
        let w3 := mkworld (set_current_client (Some (sock r)) (self w2)) (queue r)
                          (clock (sock r)) (port_free w2) (incoming w2)
                          (effects w2 ++ map Put (puts r)) in
        match ended r with
        | Blocked | No_fuel => None
        | Not_running => Some (cleanup_client w3)
        | _ => Some (cleanup_client (sleep 1000 (cleanup_client w3)))
        end
    | (None, w2) => Some (cleanup_client (sleep 1000 (cleanup_client w2)))
    end.

(** [receive_frames], watched for at most [passes] passes of its loop;
    the number is that of the passes made. *)
Fixpoint receive_frames (passes : nat) (w : world) : option (world * nat) :=
  match passes with
  | O => Some (w, O)
  | S k =>
      if running (self w) then
        match receive_frames_pass w with
        | Some w1 =>
            match receive_frames k w1 with
            | Some (w2, n) => Some (w2, S n)
            | None => None
            end
        | None => None
        end
      else Some (w, O)
  end.

(** [StreamReceiver(bind_port)] at module load, with the queue empty. *)
Definition init (port : Z) (free : bool) (conns : list (option script)) : world :=
  snd (setup_socket (mkworld (mkreceiver port true None None) frame_queue 0 free conns [])).

(** The [/status] route:
<<
    {'queue_size': frame_queue.qsize(),
     'server_running': receiver.running if receiver else False}
>> *)
Definition status (receiver : option StreamReceiver) (q : Queue.t) : Z * bool :=
  (Queue.qsize q,
   match receiver with
   | Some r => running r
   | None => false
   end).

(** Whether a producer connection is established. *)
Definition producer_connected (r : StreamReceiver) : bool :=
  match current_client r with
  | Some _ => true
  | None => false
  end.

(** What the operations of a receiver are. *)
Inductive operation :=
| Op_setup_socket
| Op_cleanup_client
| Op_receive_frames (passes : nat)
| Op_stop.

Definition perform (o : operation) (w : world) : option world :=
  match o with
  | Op_setup_socket => Some (snd (setup_socket w))
  | Op_cleanup_client => Some (cleanup_client w)
  | Op_receive_frames k => option_map fst (receive_frames k w)
  | Op_stop => Some (stop w)
  end.

Fixpoint perform_all (os : list operation) (w : world) : option world :=
  match os with
  | [] => Some w
  | o :: rest =>
      match perform o w with
      | Some w1 => perform_all rest w1
      | None => None
      end
  end.

(** ** [generate_frames] (both files) *)

Module Multipart.
Import Stdlib.Strings.String.
Local Open Scope string_scope.

Definition CRLF : list byte := [x0d; x0a].
Definition boundary : list byte := list_byte_of_string "--frame".
Definition content_type : list byte := list_byte_of_string "Content-Type: image/jpeg".
End Multipart.

(** [b'--frame\r\n' b'Content-Type: image/jpeg\r\n\r\n' + frame + b'\r\n'] *)
Definition part (f : frame) : list byte :=
  (Multipart.boundary ++ Multipart.CRLF
   ++ Multipart.content_type ++ Multipart.CRLF ++ Multipart.CRLF)
  ++ f ++ Multipart.CRLF.

Inductive action :=
| Yield (chunk : list byte)
| Idle (ms : Z).            (* [time.sleep(0.01)] is [Idle 10] *)

(** One pass of [while True:]; the [try] of [stream_server.py] has
    nothing to catch here, no queue call raising. *)
Definition generate_frames_pass (q : Queue.t) : option (action * Queue.t) :=
  match try_pop q with
  | Some (Got f, q1) => Some (Yield (part f), q1)
  | Some (Nothing, q1) => Some (Idle 10, q1)
  | None => None
  end.

(** The first [passes] passes of the generator. *)
Fixpoint generate_frames (passes : nat) (q : Queue.t) : option (list action * Queue.t) :=
  match passes with
  | O => Some ([], q)
  | S k =>
      match generate_frames_pass q with
      | Some (a, q1) =>
          match generate_frames k q1 with
          | Some (acts, q2) => Some (a :: acts, q2)
          | None => None
          end
      | None => None
      end
  end.

(** ** Notions used in the statements *)

(** The last [m] elements of a list. *)
Definition lastn {A : Type} (m : Z) (l : list A) : list A := drop (len l - m) l.

(** The frames put, among the effects of a run. *)
Fixpoint put_effects (es : list effect) : list frame :=
  match es with
  | [] => []
  | Put f :: rest => f :: put_effects rest
  | _ :: rest => put_effects rest
  end.

(** A delivery: the partial reads a byte string arrives in, each with
    its delay. *)
Definition delivery := list (Z * list byte).

Definition chunks (cs : delivery) : script :=
  map (fun c => (fst c, Data (snd c))) cs.

Definition payload_of (cs : delivery) : list byte := concat (map snd cs).

Definition delay_of (cs : delivery) : Z := fold_right Z.add 0 (map fst cs).

(** Every partial read brings at least one byte, after a delay that is
    not negative. *)
Definition timely (cs : delivery) : bool :=
  forallb (fun c => (0 <=? fst c) && negb (is_empty (snd c))) cs.

(** The time a script takes. *)
Definition total_delay (sc : script) : Z := fold_right Z.add 0 (map fst sc).

(** A script on which [recv] only ever returns bytes or [b'']. *)
Definition data_only (sc : script) : bool :=
  forallb (fun e => match snd e with Data _ => true | _ => false end) sc.

(** A script with neither end of file nor error: bytes, time-outs and
    interrupted calls only. *)
Definition stalling (sc : script) : bool :=
  forallb (fun e => (0 <=? fst e)
                    && match snd e with
                       | Data bs => negb (is_empty bs)
                       | Timeout | Eintr => true
                       | Error => false
                       end) sc.

(** ** A call of [recvall] against its deadline

    [recvall] of [stream_server.py] tests its ten seconds before each
    [recv], so a call gets its [n] bytes exactly when its last [recv]
    starts less than ten seconds after the call was entered.  For a
    delivery read from its first chunk on, [last_start n cs] is the time
    from the entry of [recvall(sock, n)] to the start of the [recv] that
    brings the [n]-th byte: the delays of the chunks before the one
    that holds it, and the delay of that chunk too when more than 8192
    of its bytes are wanted, as a second [recv] is then made on it. *)
Fixpoint last_start (n : Z) (cs : delivery) : Z :=
  match cs with
  | [] => 0
  | (d, bs) :: rest =>
      if n <=? Z.min (len bs) 8192 then 0
      else if n <=? len bs then d
      else d + last_start (n - len bs) rest
  end.

(** The time it takes until [n] bytes of a delivery are read. *)
Fixpoint time_for (n : Z) (cs : delivery) : Z :=
  match cs with
  | [] => 0
  | (d, bs) :: rest => if n <=? 0 then 0 else d + time_for (n - len bs) rest
  end.

(** What is left of a delivery once [n] bytes are read: the rest of a
    chunk read in part is there at once. *)
Fixpoint after (n : Z) (cs : delivery) : delivery :=
  match cs with
  | [] => []
  | (d, bs) :: rest =>
      if n <=? 0 then (d, bs) :: rest
      else if n <? len bs then (0, drop n bs) :: rest
      else after (n - len bs) rest
  end.

(** A message of [N] bytes whose header and whose payload each come
    within the ten seconds of their [recvall]. *)
Definition on_time (N : Z) (cs : delivery) : bool :=
  (last_start 4 cs <? 10000) && (last_start N (after 4 cs) <? 10000).

(** [k] passes of the read loop of [stream_server.py] that each push a
    frame: the frames, and the queue and the socket they leave. *)
Fixpoint passes (k : nat) (q : Queue.t) (s : io) : option (list frame * Queue.t * io) :=
  match k with
  | O => Some ([], q, s)
  | S k' =>
      match Server.read_frame q s with
      | Pushed f q1 s1 =>
          match passes k' q1 s1 with
          | Some (fs, q2, s2) => Some (f :: fs, q2, s2)
          | None => None
          end
      | Ended _ _ _ => None
      end
  end.

(** ** A stopped receiver, and the inputs of the examples *)

Definition halted (w0 w : world) : Prop :=
  running (self w) = false
  /\ current_client (self w) = None
  /\ buffer w = buffer w0
  /\ put_effects (effects w) = put_effects (effects w0).

(** The bytes of [HELLO]. *)

Definition HELLO : list byte := [x48; x45; x4c; x4c; x4f].

(** [HELLO] framed, arriving one byte at a time, a byte every [d] ms. *)

Definition hello_by_bytes (d : Z) : delivery :=
  map (fun b => (d, [b])) (pack_be32 5 ++ HELLO).

(** A length prefix of 10,000,001 followed by three bytes. *)

Definition oversize : script :=
  [(0, Data [x00; x98; x96; x81]); (0, Data [x01; x02; x03])].

(** A payload of 10,000,001 bytes. *)

Definition big_payload : list byte := repeat x00 (Z.to_nat 10000001).

(** ** The notions of the further properties *)

(** A frame on the wire: its length as a big-endian [uint32], then its
    bytes. *)
Definition wire (f : frame) : list byte := pack_be32 (len f) ++ f.

(** A queue as [Queue(maxsize)] with [maxsize > 0] keeps it: never more
    items than [maxsize]. *)
Definition bounded_queue (q : Queue.t) : bool :=
  (0 <? Queue.maxsize q) && (Queue.qsize q <=? Queue.maxsize q).

(** Frames of 1 to [hi] bytes. *)
Definition frames_within (hi : Z) (fs : list frame) : bool :=
  forallb (fun f => (1 <=? len f) && (len f <=? hi)) fs.

(** A burst: some frames, and the partial reads their wire bytes arrive
    in, all within ten seconds. *)
Definition burst := (list frame * delivery)%type.

Definition burst_ok (b : burst) : Prop :=
  frames_within 10000000 (fst b) = true
  /\ timely (snd b) = true
  /\ payload_of (snd b) = concat (map wire (fst b))
  /\ delay_of (snd b) < 10000.

Fixpoint bursts_ok (bs : list burst) : Prop :=
  match bs with
  | [] => True
  | b :: rest => burst_ok b /\ bursts_ok rest
  end.

(** The connection a sequence of bursts makes, and the time it takes. *)
Definition stream_of (bs : list burst) : script :=
  concat (map (fun b => chunks (snd b)) bs).

Definition duration (bs : list burst) : Z :=
  fold_right Z.add 0 (map (fun b => delay_of (snd b)) bs).

(** A script on which no [recv] lasts more than the 5 s of
    [settimeout(5)]. *)
Definition prompt (sc : script) : bool :=
  forallb (fun e => (0 <=? fst e) && (fst e <=? 5000)) sc.

(** The socket a pass of the read loop leaves. *)
Definition left_by (p : pass) : io :=
  match p with
  | Pushed _ _ s => s
  | Ended _ _ s => s
  end.

(** A receiver that is running, listens and holds no client. *)
Definition ready (w : world) : bool :=
  running (self w)
  && match server_socket (self w) with
     | Some l => listening l && negb (closed l)
     | None => false
     end
  && match current_client (self w) with
     | Some _ => false
     | None => true
     end.

(** The world after a pass of [receive_frames] that served a connection
    whose read loop ran as [r]: the frames are put, the client is
    closed, and the loop has slept one second. *)
Definition after_connection (w : world) (r : run) (conns : list (option script)) : world :=
  mkworld (self w) (queue r) (clock (sock r) + 1000) (port_free w) conns
          (effects w ++ map Put (puts r) ++ [Close_client; Sleep 1000]).

(** Successive producer connections, each a sequence of bursts. *)
Fixpoint connections_ok (cs : list (list burst)) : Prop :=
  match cs with
  | [] => True
  | bs :: rest => bursts_ok bs /\ connections_ok rest
  end.

(** The frames they carry, and the time serving them takes: each
    connection ends on end of file and is followed by the pause of one
    second. *)
Definition frames_of (cs : list (list burst)) : list frame :=
  concat (map (fun bs => concat (map fst bs)) cs).

Definition serving_time (cs : list (list burst)) : Z :=
  fold_right Z.add 0 (map (fun bs => duration bs + 1000) cs).

(** ** The receiver's life cycle ([stream_server_working_backup.py])

    The backup receiver holds a listening socket only; it has no
    [running] flag and sets no time-out, so an [accept] with nobody
    connecting never returns. *)

Module BackupReceiver.

Record world := mkworld {
  buffer : Queue.t;                   (* [frame_queue] *)
  now : Z;
  incoming : list (option script);    (* successive [accept]s; [None] fails *)
  effects : list effect
}.

(** [setup_socket]: the listening socket, or [None] for the [sys.exit(1)]
    of a failing [bind]. *)
Definition setup_socket (free : bool) : option listener :=
  if free then Some (mklistener true false) else None.

(** [StreamReceiver(bind_port)] at module load; [None] when the process
    exits. *)
Definition init (free : bool) (conns : list (option script)) : option world :=
  match setup_socket free with
  | Some _ => Some (mkworld frame_queue 0 conns [])
  | None => None
  end.

(** One pass of [while True:] in [receive_frames], lines 48-80.  The
    [finally] closes the client; [socket.error] (and [socket.timeout],
    which is one) is logged inside; only what is not a [socket.error]
    reaches the outer handler and its [time.sleep(1)], as a failing
    [accept] does.  [None] when the pass does not come back. *)
Definition receive_frames_pass (w : world) : option world :=
  match incoming w with
  | Some sc :: rest =>
      let r := Backup.serve (buffer w) (mkio (now w) sc) in
      match ended r with
      | Blocked | No_fuel => None
      | Bad_header =>
          Some (mkworld (queue r) (clock (sock r) + 1000) rest
                        (effects w ++ map Put (puts r) ++ [Close_client; Sleep 1000]))
      | _ =>
          Some (mkworld (queue r) (clock (sock r)) rest
                        (effects w ++ map Put (puts r) ++ [Close_client]))
      end
  | None :: rest =>
      Some (mkworld (buffer w) (now w + 1000) rest (effects w ++ [Sleep 1000]))
  | [] => None
  end.

(** [receive_frames], watched for [passes] passes of its loop. *)
Fixpoint receive_frames (passes : nat) (w : world) : option world :=
  match passes with
  | O => Some w
  | S k =>
      match receive_frames_pass w with
      | Some w1 => receive_frames k w1
      | None => None
      end
  end.

End BackupReceiver.

(** Successive producers of the backup: each sends some frames, in
    whatever partial reads, then closes. *)
Definition producer := (list frame * delivery)%type.

Definition producer_ok (p : producer) : Prop :=
  frames_within 4294967295 (fst p) = true
  /\ timely (snd p) = true
  /\ payload_of (snd p) = concat (map wire (fst p)).

Fixpoint producers_ok (ps : list producer) : Prop :=
  match ps with
  | [] => True
  | p :: rest => producer_ok p /\ producers_ok rest
  end.

(** ** The receiver thread and the generators on the shared queue

    The receiver thread and the generators of the HTTP clients run
    concurrently; each call of a [Queue] method is atomic, and the
    threads interleave between the calls.  A thread is at one of its
    queue calls:
<<
    if frame_queue.full():          # At_full
        frame_queue.get()           # At_get
    frame_queue.put(frame_data)     # At_put

    if not frame_queue.empty():     # At_empty
        frame = frame_queue.get()   # At_take
>> *)

Module Threads.

Inductive receiver_pc :=
| At_full (todo : list frame)              (* the frames still to come, the first one read *)
| At_get (f : frame) (todo : list frame)   (* [full()] was true *)
| At_put (f : frame) (todo : list frame).

Inductive consumer_pc :=
| At_empty
| At_take.                                 (* [empty()] was false *)

Inductive event :=
| Was_put (f : frame)                      (* the receiver put [f] *)
| Was_dropped (f : frame)                  (* the receiver's [get()] returned [f] *)
| Was_yielded (client : nat) (f : frame).  (* a generator got [f] and yields [part f] *)

Record state := mkstate {
  shared : Queue.t;
  receiver : receiver_pc;
  consumers : list consumer_pc;
  history : list event
}.

Inductive thread :=
| Receiver
| Consumer (i : nat).

Fixpoint set_nth {A : Type} (i : nat) (x : A) (l : list A) : list A :=
  match l, i with
  | [], _ => []
  | _ :: rest, O => x :: rest
  | y :: rest, S j => y :: set_nth j x rest
  end.

(** The next queue call of a thread; a call that waits, or a thread
    that does not exist, leaves the state as it is. *)
Definition step (th : thread) (st : state) : state :=
  match th with
  | Receiver =>
      match receiver st with
      | At_full [] => st
      | At_full (f :: todo) =>
          if Queue.full (shared st)
          then mkstate (shared st) (At_get f todo) (consumers st) (history st)
          else mkstate (shared st) (At_put f todo) (consumers st) (history st)
      | At_get f todo =>
          match Queue.get (shared st) with
          | Some (x, q1) =>
              mkstate q1 (At_put f todo) (consumers st) (history st ++ [Was_dropped x])
          | None => st
          end
      | At_put f todo =>
          match Queue.put (shared st) f with
          | Some q1 => mkstate q1 (At_full todo) (consumers st) (history st ++ [Was_put f])
          | None => st
          end
      end
  | Consumer i =>
      match nth_error (consumers st) i with
      | Some At_empty =>
          if negb (Queue.empty (shared st))
          then mkstate (shared st) (receiver st) (set_nth i At_take (consumers st))
                       (history st)
          else st
      | Some At_take =>
          match Queue.get (shared st) with
          | Some (x, q1) =>
              mkstate q1 (receiver st) (set_nth i At_empty (consumers st))
                      (history st ++ [Was_yielded i x])
          | None => st
          end
      | None => st
      end
  end.

Fixpoint run (schedule : list thread) (st : state) : state :=
  match schedule with
  | [] => st
  | th :: rest => run rest (step th st)
  end.

(** The receiver about to push [frames] into an empty queue of capacity
    [N], with [clients] generators. *)
Definition start (N : Z) (frames : list frame) (clients : nat) : state :=
  mkstate (Queue.create N) (At_full frames) (repeat At_empty clients) [].

(** What was put, and what the generators have yielded, in order. *)
Fixpoint put_in (h : list event) : list frame :=
  match h with
  | [] => []
  | Was_put f :: rest => f :: put_in rest
  | _ :: rest => put_in rest
  end.

Fixpoint yielded_in (h : list event) : list frame :=
  match h with
  | [] => []
  | Was_yielded _ f :: rest => f :: yielded_in rest
  | _ :: rest => yielded_in rest
  end.

Fixpoint yielded_to (client : nat) (h : list event) : list frame :=
  match h with
  | [] => []
  | Was_yielded c f :: rest =>
      if Nat.eqb c client then f :: yielded_to client rest else yielded_to client rest
  | _ :: rest => yielded_to client rest
  end.

(** The frames a receiver still has in hand. *)
Definition in_hand (pc : receiver_pc) : list frame :=
  match pc with
  | At_full todo => todo
  | At_get f todo => f :: todo
  | At_put f todo => f :: todo
  end.

End Threads.

(** [l1] is [l2] with some elements left out. *)
Inductive subseq {A : Type} : list A -> list A -> Prop :=
| subseq_nil : subseq [] []
| subseq_skip x l1 l2 : subseq l1 l2 -> subseq l1 (x :: l2)
| subseq_keep x l1 l2 : subseq l1 l2 -> subseq (x :: l1) (x :: l2).

(** What every interleaving keeps. *)
Definition kept (N : Z) (frames : list frame) (st : Threads.state) : Prop :=
  subseq (Threads.yielded_in (Threads.history st) ++ Queue.items (Threads.shared st))
         (Threads.put_in (Threads.history st))
  /\ frames = Threads.put_in (Threads.history st) ++ Threads.in_hand (Threads.receiver st)
  /\ Queue.maxsize (Threads.shared st) = N
  /\ (0 < N -> Queue.qsize (Threads.shared st) <= N).

(** * Properties *)

(** ** Lengths and slices *)

Lemma len_app {A} (l1 l2 : list A) : len (l1 ++ l2) = len l1 + len l2.
Proof. unfold len. rewrite length_app. lia. Qed.

Lemma len_nonneg {A} (l : list A) : 0 <= len l.
Proof. unfold len. lia. Qed.

Lemma len_cons {A} (x : A) l : len (x :: l) = 1 + len l.
Proof. unfold len. simpl length. lia. Qed.

Lemma take_nonpos {A} k (l : list A) : k <= 0 -> take k l = [].
Proof. intros H. unfold take. replace (Z.to_nat k) with O by lia. reflexivity. Qed.

Lemma drop_nonpos {A} k (l : list A) : k <= 0 -> drop k l = l.
Proof. intros H. unfold drop. replace (Z.to_nat k) with O by lia. reflexivity. Qed.

Lemma take_all {A} k (l : list A) : len l <= k -> take k l = l.
Proof. intros H. unfold take, len in *. apply firstn_all2. lia. Qed.

Lemma drop_all {A} k (l : list A) : len l <= k -> drop k l = [].
Proof. intros H. unfold drop, len in *. apply skipn_all2. lia. Qed.

Lemma take_drop {A} k (l : list A) : take k l ++ drop k l = l.
Proof. apply firstn_skipn. Qed.

Lemma len_take {A} k (l : list A) : 0 <= k <= len l -> len (take k l) = k.
Proof. intros H. unfold take, len in *. rewrite length_firstn. lia. Qed.

Lemma len_drop {A} k (l : list A) : 0 <= k <= len l -> len (drop k l) = len l - k.
Proof. intros H. unfold drop, len in *. rewrite length_skipn. lia. Qed.

Lemma take_app_ge {A} k (l1 l2 : list A) :
  len l1 <= k -> take k (l1 ++ l2) = l1 ++ take (k - len l1) l2.
Proof.
  intros H. unfold take, len in *. rewrite firstn_app, firstn_all2 by lia.
  f_equal. f_equal. lia.
Qed.

Lemma drop_app_ge {A} k (l1 l2 : list A) :
  len l1 <= k -> drop k (l1 ++ l2) = drop (k - len l1) l2.
Proof.
  intros H. unfold drop, len in *. rewrite skipn_app, skipn_all2 by lia.
  simpl. f_equal. lia.
Qed.

Lemma take_app_le {A} k (l1 l2 : list A) :
  k <= len l1 -> take k (l1 ++ l2) = take k l1.
Proof.
  intros H. unfold take, len in *. rewrite firstn_app.
  replace (Z.to_nat k - length l1)%nat with O by lia. simpl. apply app_nil_r.
Qed.

Lemma drop_app_le {A} k (l1 l2 : list A) :
  k <= len l1 -> drop k (l1 ++ l2) = drop k l1 ++ l2.
Proof.
  intros H. unfold drop, len in *. rewrite skipn_app.
  replace (Z.to_nat k - length l1)%nat with O by lia. reflexivity.
Qed.

Lemma take_add {A} a b (l : list A) :
  0 <= a -> 0 <= b -> take (a + b) l = take a l ++ take b (drop a l).
Proof.
  intros Ha Hb. destruct (Z_le_gt_dec (len l) a) as [Hle|Hgt].
  - rewrite (drop_all a l), (take_all a l), (take_all (a + b) l) by lia.
    unfold take. rewrite firstn_nil, app_nil_r. reflexivity.
  - rewrite <- (take_drop a l) at 1.
    rewrite take_app_ge by (rewrite len_take; lia). rewrite len_take by lia.
    f_equal. f_equal. lia.
Qed.

Lemma drop_add {A} a b (l : list A) :
  0 <= a -> 0 <= b -> drop (a + b) l = drop b (drop a l).
Proof.
  intros Ha Hb. unfold drop. rewrite skipn_skipn. f_equal. lia.
Qed.

Lemma is_empty_false {A} (l : list A) : is_empty l = false <-> l <> [].
Proof. destruct l; simpl; split; congruence. Qed.

Lemma len_pos {A} (l : list A) : l <> [] -> 0 < len l.
Proof. destruct l; [congruence|]. intros _. rewrite len_cons. pose proof (len_nonneg l). lia. Qed.

Lemma take_ne {A} k (l : list A) : 1 <= k -> l <> [] -> is_empty (take k l) = false.
Proof.
  intros Hk Hl. destruct l as [|x l]; [congruence|]. unfold take.
  destruct (Z.to_nat k) eqn:E; [lia | reflexivity].
Qed.

Lemma drop_ne {A} k (l : list A) : 0 <= k < len l -> drop k l <> [].
Proof.
  intros Hk E. apply (f_equal len) in E. change (len (@nil A)) with 0 in E.
  rewrite len_drop in E by lia. lia.
Qed.

Lemma weight_take_drop k (bs : list byte) :
  1 <= k < len bs -> (S (length (drop k bs)) <= length bs)%nat.
Proof.
  intros Hk. pose proof (len_drop k bs ltac:(lia)) as H. unfold len in *. lia.
Qed.

(** ** The queue *)

Lemma push_full q x oldest rest :
  0 < Queue.maxsize q -> Queue.items q = oldest :: rest -> Queue.qsize q = Queue.maxsize q ->
  push q x = Some (Queue.mk (Queue.maxsize q) (rest ++ [x])).
Proof.
  intros Hpos Hit Hsz. unfold push, Queue.full, Queue.get, Queue.put.
  rewrite Hit. unfold Queue.qsize in *. rewrite Hit in *.
  replace (0 <? Queue.maxsize q) with true by (symmetry; apply Z.ltb_lt; lia).
  replace (Queue.maxsize q <=? len (oldest :: rest)) with true by (symmetry; apply Z.leb_le; lia).
  cbn [andb Queue.maxsize Queue.items].
  rewrite len_cons in Hsz.
  replace (Queue.maxsize q <=? len rest) with false by (symmetry; apply Z.leb_gt; lia).
  rewrite andb_false_r. reflexivity.
Qed.

Lemma push_room q x :
  Queue.qsize q < Queue.maxsize q ->
  push q x = Some (Queue.mk (Queue.maxsize q) (Queue.items q ++ [x])).
Proof.
  intros Hsz. unfold push, Queue.full, Queue.put.
  replace (Queue.maxsize q <=? Queue.qsize q) with false by (symmetry; apply Z.leb_gt; lia).
  rewrite andb_false_r. reflexivity.
Qed.

Lemma push_all_app xs ys q :
  push_all q (xs ++ ys) =
  match push_all q xs with Some q1 => push_all q1 ys | None => None end.
Proof.
  revert q. induction xs as [|x xs IH]; intros q; simpl; [reflexivity|].
  destruct (push q x); [apply IH | reflexivity].
Qed.

Lemma push_all_create N (frames : list frame) :
  0 < N ->
  push_all (Queue.create N) frames = Some (Queue.mk N (lastn (Z.min (len frames) N) frames)).
Proof.
  intros HN. induction frames as [|x xs IH] using rev_ind.
  - unfold lastn, drop. rewrite skipn_nil. reflexivity.
  - rewrite push_all_app, IH. cbn [push_all].
    unfold lastn. rewrite len_app. change (len [x]) with 1.
    pose proof (len_nonneg xs) as Hk.
    destruct (Z_lt_le_dec (len xs) N) as [Hlt|Hge].
    + rewrite push_room; cbn [Queue.maxsize Queue.items Queue.qsize].
      * f_equal. f_equal. unfold drop.
        replace (Z.to_nat (len xs - Z.min (len xs) N)) with O by lia.
        replace (Z.to_nat (len xs + 1 - Z.min (len xs + 1) N)) with O by lia.
        reflexivity.
      * unfold Queue.qsize; cbn [Queue.items]. unfold drop.
        replace (Z.to_nat (len xs - Z.min (len xs) N)) with O by lia.
        simpl. lia.
    + unfold drop.
      replace (Z.to_nat (len xs - Z.min (len xs) N)) with (Z.to_nat (len xs - N)) by lia.
      replace (Z.to_nat (len xs + 1 - Z.min (len xs + 1) N)) with (S (Z.to_nat (len xs - N))) by lia.
      remember (Z.to_nat (len xs - N)) as j.
      assert (Hj : (j < length xs)%nat) by (unfold len in *; lia).
      destruct (skipn j xs) as [|o rest] eqn:Hsk.
      { apply (f_equal (@length _)) in Hsk. rewrite length_skipn in Hsk. simpl in Hsk. lia. }
      assert (Hlen : len (o :: rest) = N).
      { rewrite <- Hsk. unfold len. rewrite length_skipn. unfold len in *. lia. }
      rewrite (push_full _ x o rest); cbn [Queue.maxsize Queue.items Queue.qsize]; auto.
      f_equal. f_equal.
      rewrite skipn_app. replace (S j - length xs)%nat with O by lia.
      simpl (skipn 0 _). f_equal.
      change (S j) with (1 + j)%nat. rewrite <- skipn_skipn, Hsk. reflexivity.
Qed.

Lemma push_never_blocks q x :
  0 < Queue.maxsize q -> Queue.qsize q <= Queue.maxsize q ->
  exists q', push q x = Some q' /\ Queue.maxsize q' = Queue.maxsize q
             /\ Queue.qsize q' <= Queue.maxsize q.
Proof.
  intros Hpos Hle. destruct (Z_lt_le_dec (Queue.qsize q) (Queue.maxsize q)) as [Hlt|Hge].
  - rewrite push_room by assumption. eexists; split; [reflexivity|].
    unfold Queue.qsize in *. cbn [Queue.maxsize Queue.items]. rewrite len_app.
    change (len [x]) with 1. split; [reflexivity | lia].
  - destruct (Queue.items q) as [|o rest] eqn:Hit.
    + unfold Queue.qsize in Hge. rewrite Hit in Hge. change (len []) with 0 in Hge. lia.
    + rewrite (push_full q x o rest) by (auto; lia). eexists; split; [reflexivity|].
      unfold Queue.qsize in *. rewrite Hit in *. cbn [Queue.maxsize Queue.items].
      rewrite len_app. rewrite !len_cons in *. change (len (@nil frame)) with 0.
      split; [reflexivity | lia].
Qed.

Lemma try_pops_items (l : list frame) N k :
  try_pops (length l + k) (Queue.mk N l)
  = Some (map Got l ++ repeat Nothing k, Queue.mk N []).
Proof.
  induction l as [|f l IH].
  - change (length (@nil frame) + k)%nat with k. change (map Got [] ++ repeat Nothing k) with (repeat Nothing k).
    induction k as [|k IHk]; [reflexivity|].
    change (try_pops (S k) (Queue.mk N []))
      with (match try_pops k (Queue.mk N []) with
            | Some (rs, q2) => Some (Nothing :: rs, q2)
            | None => None
            end).
    rewrite IHk. reflexivity.
  - cbn [length Nat.add try_pops map app].
    assert (Hp : try_pop (Queue.mk N (f :: l)) = Some (Got f, Queue.mk N l)).
    { unfold try_pop, Queue.empty, Queue.qsize. cbn [Queue.items]. rewrite len_cons.
      pose proof (len_nonneg l).
      replace (1 + len l =? 0) with false by (symmetry; apply Z.eqb_neq; lia).
      reflexivity. }
    rewrite Hp, IH. reflexivity.
Qed.

(** ** The generator *)

Lemma generate_frames_pass_frame N f rest :
  generate_frames_pass (Queue.mk N (f :: rest)) = Some (Yield (part f), Queue.mk N rest).
Proof.
  unfold generate_frames_pass, try_pop, Queue.empty, Queue.qsize. cbn [Queue.items].
  rewrite len_cons. pose proof (len_nonneg rest).
  replace (1 + len rest =? 0) with false by (symmetry; apply Z.eqb_neq; lia).
  reflexivity.
Qed.

Lemma generate_frames_items (l : list frame) N k :
  generate_frames (length l + k) (Queue.mk N l)
  = Some (map (fun f => Yield (part f)) l ++ repeat (Idle 10) k, Queue.mk N []).
Proof.
  induction l as [|f l IH].
  - change (length (@nil frame) + k)%nat with k.
    change (map (fun f => Yield (part f)) [] ++ repeat (Idle 10) k) with (repeat (Idle 10) k).
    induction k as [|k IHk]; [reflexivity|].
    change (generate_frames (S k) (Queue.mk N []))
      with (match generate_frames k (Queue.mk N []) with
            | Some (acts, q2) => Some (Idle 10 :: acts, q2)
            | None => None
            end).
    rewrite IHk. reflexivity.
  - cbn [length Nat.add generate_frames map app].
    rewrite generate_frames_pass_frame, IH. reflexivity.
Qed.

Lemma generate_frames_total k : forall q,
  exists acts q', generate_frames k q = Some (acts, q') /\ length acts = k.
Proof.
  induction k as [|k IH]; intros [N l].
  - exists [], (Queue.mk N l). split; reflexivity.
  - cbn [generate_frames]. destruct l as [|f l].
    + change (generate_frames_pass (Queue.mk N [])) with (Some (Idle 10, Queue.mk N [])).
      destruct (IH (Queue.mk N [])) as (acts & q' & -> & Hl).
      exists (Idle 10 :: acts), q'. split; [reflexivity | simpl; congruence].
    + rewrite generate_frames_pass_frame.
      destruct (IH (Queue.mk N l)) as (acts & q' & -> & Hl).
      exists (Yield (part f) :: acts), q'. split; [reflexivity | simpl; congruence].
Qed.

(** ** The life cycle *)

Lemma put_effects_app es1 es2 : put_effects (es1 ++ es2) = put_effects es1 ++ put_effects es2.
Proof.
  induction es1 as [|e es1 IH]; [reflexivity|].
  destruct e; simpl; rewrite IH; reflexivity.
Qed.

Lemma receive_frames_not_running passes w :
  running (self w) = false -> receive_frames passes w = Some (w, O).
Proof. intros H. destruct passes; simpl; [|rewrite H]; reflexivity. Qed.

Lemma halted_stop w : halted w (stop w).
Proof.
  unfold halted, stop, cleanup_client. cbn.
  destruct (current_client (self w)) eqn:Ec; cbn;
    destruct (server_socket (self w)); cbn;
    rewrite ?put_effects_app; cbn; rewrite ?app_nil_r, ?Ec; auto.
Qed.

Lemma halted_perform w0 o w :
  halted w0 w -> exists w1, perform o w = Some w1 /\ halted w0 w1.
Proof.
  intros (Hr & Hc & Hb & He). destruct o as [| |passes|]; cbn [perform].
  - eexists; split; [reflexivity|]. unfold halted, setup_socket.
    destruct (server_socket (self w)); cbn; destruct (port_free w); cbn;
      rewrite ?put_effects_app; cbn; rewrite ?app_nil_r; auto.
  - eexists; split; [reflexivity|]. unfold halted, cleanup_client. rewrite Hc. auto.
  - rewrite receive_frames_not_running by assumption. eexists; split; [reflexivity|].
    unfold halted; auto.
  - eexists; split; [reflexivity|]. pose proof (halted_stop w) as (Hr' & Hc' & Hb' & He').
    unfold halted. repeat split; congruence.
Qed.

Lemma halted_perform_all w0 os : forall w,
  halted w0 w -> exists w1, perform_all os w = Some w1 /\ halted w0 w1.
Proof.
  induction os as [|o os IH]; intros w Hw.
  - exists w. split; [reflexivity | assumption].
  - cbn [perform_all]. destruct (halted_perform w0 o w Hw) as (w1 & -> & Hw1).
    apply IH; assumption.
Qed.

(** ** [recv] *)

Lemma recv_packet s k p s1 :
  1 <= k -> recv s k = (Packet p, s1) -> p <> [] ->
  len p <= k
  /\ bytes_of (pending s) = p ++ bytes_of (pending s1)
  /\ (weight (pending s1) + length p <= weight (pending s))%nat
  /\ (weight (pending s1) < weight (pending s))%nat
  /\ (data_only (pending s) = true -> data_only (pending s1) = true).
Proof.
  intros Hk Hr Hp. unfold recv in Hr.
  destruct (pending s) as [|[d ev] rest] eqn:Hs.
  - inversion Hr; subst. congruence.
  - destruct ev; try discriminate Hr.
    destruct (k <? len bs) eqn:Hlt; inversion Hr; subst; clear Hr; cbn [pending].
    + apply Z.ltb_lt in Hlt.
      assert (Hl : len (take k bs) = k) by (apply len_take; lia).
      assert (Hn : (length (take k bs) + length (drop k bs) = length bs)%nat).
      { rewrite <- length_app, take_drop. reflexivity. }
      assert (Hpos : (0 < length (take k bs))%nat) by (unfold len in Hl; lia).
      repeat split.
      * lia.
      * cbn [bytes_of]. rewrite app_assoc, take_drop. reflexivity.
      * cbn [weight]. lia.
      * cbn [weight]. lia.
      * cbn [data_only forallb snd]. auto.
    + apply Z.ltb_ge in Hlt.
      assert (Hpos : (0 < length p)%nat) by (destruct p; [congruence | simpl; lia]).
      repeat split.
      * lia.
      * cbn [weight]. lia.
      * cbn [weight]. lia.
      * cbn [data_only forallb snd]. auto.
Qed.

Lemma recv_weight s k r s1 :
  recv s k = (r, s1) -> (weight (pending s1) <= weight (pending s))%nat.
Proof.
  intros Hr. unfold recv in Hr.
  destruct (pending s) as [|[d ev] rest] eqn:Hs.
  - inversion Hr; subst. rewrite Hs. auto.
  - destruct ev; [destruct (k <? len bs) eqn:Hlt|..]; inversion Hr; subst; cbn [pending weight]; try lia.
    assert (Hn : (length (take k bs) + length (drop k bs) = length bs)%nat).
    { rewrite <- length_app, take_drop. reflexivity. }
    lia.
Qed.

Lemma recv_raised s k r s1 :
  recv s k = (r, s1) -> (forall p, r <> Packet p) ->
  bytes_of (pending s) = bytes_of (pending s1)
  /\ (weight (pending s1) < weight (pending s))%nat
  /\ data_only (pending s) = false.
Proof.
  intros Hr Hp. unfold recv in Hr.
  destruct (pending s) as [|[d ev] rest] eqn:Hs.
  - inversion Hr; subst. exfalso. eapply Hp. reflexivity.
  - destruct ev; [destruct (k <? len bs)|..]; inversion Hr; subst;
      try (exfalso; eapply Hp; reflexivity);
      cbn [pending weight bytes_of data_only forallb snd andb]; repeat split; lia.
Qed.

Lemma recv_data_only s k r s1 :
  recv s k = (r, s1) -> data_only (pending s) = true ->
  data_only (pending s1) = true /\ exists p, r = Packet p.
Proof.
  intros Hr Hd. unfold recv in Hr.
  destruct (pending s) as [|[d ev] rest] eqn:Hs.
  - inversion Hr; subst. rewrite Hs. eauto.
  - destruct ev; cbn [data_only forallb snd andb] in Hd; try discriminate Hd.
    destruct (k <? len bs); inversion Hr; subst; cbn [pending]; eauto.
Qed.

(** ** [recvall] returns [n] bytes or none

    With the fuel [recvall] gives it, the loop never runs out; what it
    returns has [n] bytes, the next [n] of the script. *)

Lemma Server_recvall_loop_sound fuel : forall start n data s r s',
  (weight (pending s) < fuel)%nat ->
  Server.recvall_loop fuel start n data s = (r, s') ->
  r <> Out_of_fuel
  /\ (weight (pending s') <= weight (pending s))%nat
  /\ (data_only (pending s) = true -> data_only (pending s') = true)
  /\ forall d, r = Return (Some d) ->
       (weight (pending s') + length d <= weight (pending s) + length data)%nat
       /\ (len data <= n ->
           len d = n
           /\ d = data ++ take (n - len data) (bytes_of (pending s))
           /\ bytes_of (pending s') = drop (n - len data) (bytes_of (pending s))).
Proof.
  induction fuel as [|fuel IH]; intros start n data s r s' Hw H; [lia|].
  cbn [Server.recvall_loop] in H.
  destruct (len data <? n) eqn:Hn; [destruct (clock s - start <? 10000) eqn:Ht|];
    cbn [andb] in H.
  - apply Z.ltb_lt in Hn.
    assert (Hk : 1 <= Z.min (n - len data) 8192) by lia.
    destruct (recv s (Z.min (n - len data) 8192)) as [rr s1] eqn:Hrecv.
    destruct rr as [p| |[|]].
    + destruct (is_empty p) eqn:Hp.
      * inversion H; subst. split; [discriminate|]. split; [eapply recv_weight; eauto|].
        split; [intros Hd; eapply recv_data_only; eauto|]. intros d Hd; discriminate Hd.
      * apply is_empty_false in Hp.
        destruct (recv_packet _ _ _ _ Hk Hrecv Hp) as (Hlp & Hb & Hw1 & Hw2 & Hdo).
        assert (Hf : (weight (pending s1) < fuel)%nat) by lia.
        destruct (IH _ _ _ _ _ _ Hf H) as (I1 & I2 & I3 & I4).
        split; [assumption|]. split; [lia|]. split; [auto|].
        intros d Hd. destruct (I4 d Hd) as [I5 I6]. rewrite length_app in I5.
        split; [lia|]. intros Hle. rewrite len_app in I6.
        destruct (I6 ltac:(lia)) as (J1 & J2 & J3). split; [assumption|].
        rewrite Hb. split.
        -- rewrite J2, <- app_assoc. f_equal. rewrite take_app_ge by lia.
           f_equal. f_equal. lia.
        -- rewrite J3, drop_app_ge by lia. f_equal. lia.
    + destruct (recv_raised _ _ _ _ Hrecv ltac:(discriminate)) as (Hb & Hw1 & Hdo).
      assert (Hf : (weight (pending s1) < fuel)%nat) by lia.
        destruct (IH _ _ _ _ _ _ Hf H) as (I1 & I2 & I3 & I4).
      split; [assumption|]. split; [lia|]. split; [congruence|].
      intros d Hd. destruct (I4 d Hd) as [I5 I6]. split; [lia|]. rewrite Hb. exact I6.
    + destruct (recv_raised _ _ _ _ Hrecv ltac:(discriminate)) as (Hb & Hw1 & Hdo).
      assert (Hf : (weight (pending s1) < fuel)%nat) by lia.
        destruct (IH _ _ _ _ _ _ Hf H) as (I1 & I2 & I3 & I4).
      split; [assumption|]. split; [lia|]. split; [congruence|].
      intros d Hd. destruct (I4 d Hd) as [I5 I6]. split; [lia|]. rewrite Hb. exact I6.
    + destruct (recv_raised _ _ _ _ Hrecv ltac:(discriminate)) as (Hb & Hw1 & Hdo).
      inversion H; subst. split; [discriminate|]. split; [lia|]. split; [congruence|].
      intros d Hd; discriminate Hd.
  - inversion H; subst. split; [discriminate|]. split; [lia|]. split; [auto|].
    intros d Hd; discriminate Hd.
  - apply Z.ltb_ge in Hn. inversion H; subst. split; [discriminate|]. split; [lia|].
    split; [auto|]. intros d Hd. inversion Hd; subst. split; [lia|]. intros Hle.
    assert (len d = n) by lia. split; [assumption|].
    rewrite take_nonpos, drop_nonpos, app_nil_r by lia. auto.
Qed.

Lemma Backup_recvall_loop_sound fuel : forall n data s r s',
  (weight (pending s) < fuel)%nat ->
  Backup.recvall_loop fuel n data s = (r, s') ->
  r <> Out_of_fuel
  /\ (weight (pending s') <= weight (pending s))%nat
  /\ (data_only (pending s) = true -> data_only (pending s') = true)
  /\ forall d, r = Return (Some d) ->
       (weight (pending s') + length d <= weight (pending s) + length data)%nat
       /\ (len data <= n ->
           len d = n
           /\ d = data ++ take (n - len data) (bytes_of (pending s))
           /\ bytes_of (pending s') = drop (n - len data) (bytes_of (pending s))).
Proof.
  induction fuel as [|fuel IH]; intros n data s r s' Hw H; [lia|].
  cbn [Backup.recvall_loop] in H.
  destruct (len data <? n) eqn:Hn.
  - apply Z.ltb_lt in Hn.
    assert (Hk : 1 <= n - len data) by lia.
    destruct (recv s (n - len data)) as [rr s1] eqn:Hrecv.
    destruct rr as [p| |b].
    + destruct (is_empty p) eqn:Hp.
      * inversion H; subst. split; [discriminate|]. split; [eapply recv_weight; eauto|].
        split; [intros Hd; eapply recv_data_only; eauto|]. intros d Hd; discriminate Hd.
      * apply is_empty_false in Hp.
        destruct (recv_packet _ _ _ _ Hk Hrecv Hp) as (Hlp & Hb & Hw1 & Hw2 & Hdo).
        assert (Hf : (weight (pending s1) < fuel)%nat) by lia.
        destruct (IH _ _ _ _ _ Hf H) as (I1 & I2 & I3 & I4).
        split; [assumption|]. split; [lia|]. split; [auto|].
        intros d Hd. destruct (I4 d Hd) as [I5 I6]. rewrite length_app in I5.
        split; [lia|]. intros Hle. rewrite len_app in I6.
        destruct (I6 ltac:(lia)) as (J1 & J2 & J3). split; [assumption|].
        rewrite Hb. split.
        -- rewrite J2, <- app_assoc. f_equal. rewrite take_app_ge by lia.
           f_equal. f_equal. lia.
        -- rewrite J3, drop_app_ge by lia. f_equal. lia.
    + destruct (recv_raised _ _ _ _ Hrecv ltac:(discriminate)) as (Hb & Hw1 & Hdo).
      inversion H; subst. split; [discriminate|]. split; [lia|]. split; [congruence|].
      intros d Hd; discriminate Hd.
    + destruct (recv_raised _ _ _ _ Hrecv ltac:(discriminate)) as (Hb & Hw1 & Hdo).
      inversion H; subst. split; [discriminate|]. split; [lia|]. split; [congruence|].
      intros d Hd; discriminate Hd.
  - apply Z.ltb_ge in Hn. inversion H; subst. split; [discriminate|]. split; [lia|].
    split; [auto|]. intros d Hd. inversion Hd; subst. split; [lia|]. intros Hle.
    assert (len d = n) by lia. split; [assumption|].
    rewrite take_nonpos, drop_nonpos, app_nil_r by lia. auto.
Qed.

Lemma Backup_recvall_loop_more_fuel fuel : forall fuel' n data s r s',
  (fuel <= fuel')%nat ->
  Backup.recvall_loop fuel n data s = (r, s') -> r <> Out_of_fuel ->
  Backup.recvall_loop fuel' n data s = (r, s').
Proof.
  induction fuel as [|fuel IH]; intros fuel' n data s r s' Hle H Hr.
  - inversion H; subst. congruence.
  - destruct fuel' as [|fuel']; [lia|].
    cbn [Backup.recvall_loop] in *.
    destruct (len data <? n); [|assumption].
    destruct (recv s (n - len data)) as [[p| |b] s1]; try assumption.
    destruct (is_empty p); [assumption|]. apply IH; [lia | assumption | assumption].
Qed.

(** ** Deliveries *)

Lemma timely_cons d bs cs :
  timely ((d, bs) :: cs) = true <-> 0 <= d /\ bs <> [] /\ timely cs = true.
Proof.
  unfold timely. cbn [forallb fst snd]. rewrite !andb_true_iff, negb_true_iff, is_empty_false.
  rewrite Z.leb_le. tauto.
Qed.

Lemma delay_of_nonneg cs : timely cs = true -> 0 <= delay_of cs.
Proof.
  induction cs as [|[d bs] cs IH]; intros H; [cbn; lia|].
  apply timely_cons in H. destruct H as (Hd & _ & Hc). specialize (IH Hc).
  unfold delay_of in *. cbn [map fold_right fst]. lia.
Qed.

Lemma payload_of_cons d bs cs : payload_of ((d, bs) :: cs) = bs ++ payload_of cs.
Proof. reflexivity. Qed.

Lemma delay_of_cons d bs cs : delay_of ((d, bs) :: cs) = d + delay_of cs.
Proof. reflexivity. Qed.

Lemma chunks_cons d bs cs rest :
  chunks ((d, bs) :: cs) ++ rest = (d, Data bs) :: chunks cs ++ rest.
Proof. reflexivity. Qed.

Lemma timely_payload_nil cs : timely cs = true -> payload_of cs = [] -> cs = [].
Proof.
  destruct cs as [|[d bs] cs]; [reflexivity|]. intros H Hp.
  apply timely_cons in H. destruct H as (_ & Hb & _).
  rewrite payload_of_cons in Hp. destruct bs; [congruence | discriminate Hp].
Qed.

Lemma Server_recvall_loop_delivery fuel : forall start n data cs rest t,
  timely cs = true -> len data <= n -> n - len data <= len (payload_of cs) ->
  (t - start) + delay_of cs < 10000 ->
  (weight (chunks cs ++ rest) < fuel)%nat ->
  exists cs' t',
    Server.recvall_loop fuel start n data (mkio t (chunks cs ++ rest))
    = (Return (Some (data ++ take (n - len data) (payload_of cs))),
       mkio t' (chunks cs' ++ rest))
    /\ timely cs' = true
    /\ payload_of cs' = drop (n - len data) (payload_of cs)
    /\ t' + delay_of cs' = t + delay_of cs
    /\ t <= t'.
Proof.
  induction fuel as [|fuel IH]; intros start n data cs rest t Hc Hle Hn Ht Hw; [lia|].
  pose proof (delay_of_nonneg cs Hc) as Hd0.
  cbn [Server.recvall_loop clock].
  destruct (len data <? n) eqn:Hlt.
  - apply Z.ltb_lt in Hlt.
    replace (t - start <? 10000) with true by (symmetry; apply Z.ltb_lt; lia).
    cbn [andb].
    destruct cs as [|[d bs] cs].
    { change (payload_of []) with (@nil byte) in Hn. change (len (@nil byte)) with 0 in Hn. lia. }
    apply timely_cons in Hc. destruct Hc as (Hd & Hbs & Hc).
    pose proof (len_pos bs Hbs) as Hbl. pose proof (delay_of_nonneg cs Hc) as Hd1.
    rewrite payload_of_cons, delay_of_cons in *. rewrite chunks_cons in *.
    unfold recv. cbn [pending clock].
    set (k := Z.min (n - len data) 8192). assert (Hk : 1 <= k <= n - len data) by (unfold k; lia).
    clearbody k.
    destruct (k <? len bs) eqn:Hkb.
    + apply Z.ltb_lt in Hkb.
      assert (Hpk : is_empty (take k bs) = false).
      { apply is_empty_false. intros E. apply (f_equal len) in E.
        rewrite len_take in E by lia. change (len (@nil byte)) with 0 in E. lia. }
      rewrite Hpk.
      assert (Hdr : drop k bs <> []).
      { intros E. apply (f_equal len) in E. rewrite len_drop in E by lia.
        change (len (@nil byte)) with 0 in E. lia. }
      assert (Hn' : (length (take k bs) + length (drop k bs) = length bs)%nat).
      { rewrite <- length_app, take_drop. reflexivity. }
      assert (Hlk : len (take k bs) = k) by (apply len_take; lia).
      destruct (IH start n (data ++ take k bs) ((0, drop k bs) :: cs) rest (t + d))
        as (cs' & t' & E & H1 & H2 & H3 & H4).
      * apply timely_cons. repeat split; [lia | assumption | assumption].
      * rewrite len_app. lia.
      * rewrite len_app, payload_of_cons, len_app, len_drop by lia.
        rewrite len_app in Hn. lia.
      * rewrite delay_of_cons. lia.
      * rewrite chunks_cons. cbn [weight] in *. unfold len in Hlk. lia.
      * exists cs', t'. rewrite chunks_cons in E. rewrite E.
        rewrite len_app, payload_of_cons, delay_of_cons in *. rewrite Hlk in *.
        split; [|split; [assumption|split; [|split; [|lia]]]].
        -- f_equal. f_equal. f_equal. rewrite <- app_assoc. f_equal.
           replace (n - len data) with (k + (n - (len data + k))) by lia.
           rewrite take_add by lia.
           rewrite (take_app_le k bs), (drop_app_le k bs) by lia. reflexivity.
        -- rewrite H2. replace (n - len data) with (k + (n - (len data + k))) by lia.
           rewrite drop_add by lia. rewrite (drop_app_le k bs) by lia. reflexivity.
        -- lia.
    + apply Z.ltb_ge in Hkb.
      rewrite (proj2 (is_empty_false bs) Hbs).
      destruct (IH start n (data ++ bs) cs rest (t + d)) as (cs' & t' & E & H1 & H2 & H3 & H4).
      * assumption.
      * rewrite len_app. lia.
      * rewrite !len_app in *. lia.
      * lia.
      * cbn [weight] in Hw. lia.
      * exists cs', t'. rewrite E. rewrite len_app in *.
        split; [|split; [assumption|split; [|split; [|lia]]]].
        -- f_equal. f_equal. f_equal. rewrite <- app_assoc. f_equal.
           rewrite (take_app_ge _ bs) by lia. f_equal. f_equal. lia.
        -- rewrite H2, (drop_app_ge _ bs) by lia. f_equal. lia.
        -- lia.
  - apply Z.ltb_ge in Hlt. cbn [andb].
    exists cs, t. rewrite take_nonpos, drop_nonpos, app_nil_r by lia.
    repeat split; auto; lia.
Qed.

Lemma Server_recvall_delivery n cs rest t :
  timely cs = true -> 0 <= n <= len (payload_of cs) -> delay_of cs < 10000 ->
  exists cs' t',
    Server.recvall (mkio t (chunks cs ++ rest)) n
    = (Return (Some (take n (payload_of cs))), mkio t' (chunks cs' ++ rest))
    /\ timely cs' = true
    /\ payload_of cs' = drop n (payload_of cs)
    /\ t' + delay_of cs' = t + delay_of cs
    /\ t <= t'.
Proof.
  intros Hc Hn Hd. unfold Server.recvall. cbn [pending clock].
  destruct (Server_recvall_loop_delivery (S (weight (chunks cs ++ rest))) t n [] cs rest t)
    as (cs' & t' & E & H); try assumption; change (len (@nil byte)) with 0; try lia.
  exists cs', t'. rewrite E. rewrite Z.sub_0_r in *. cbn [app]. split; [reflexivity | exact H].
Qed.

Lemma Backup_recvall_loop_delivery fuel : forall n data cs rest t,
  timely cs = true -> len data <= n -> n - len data <= len (payload_of cs) ->
  (weight (chunks cs ++ rest) < fuel)%nat ->
  exists cs' t',
    Backup.recvall_loop fuel n data (mkio t (chunks cs ++ rest))
    = (Return (Some (data ++ take (n - len data) (payload_of cs))),
       mkio t' (chunks cs' ++ rest))
    /\ timely cs' = true
    /\ payload_of cs' = drop (n - len data) (payload_of cs)
    /\ t' + delay_of cs' = t + delay_of cs.
Proof.
  induction fuel as [|fuel IH]; intros n data cs rest t Hc Hle Hn Hw; [lia|].
  cbn [Backup.recvall_loop].
  destruct (len data <? n) eqn:Hlt.
  - apply Z.ltb_lt in Hlt.
    destruct cs as [|[d bs] cs].
    { change (payload_of []) with (@nil byte) in Hn. change (len (@nil byte)) with 0 in Hn. lia. }
    apply timely_cons in Hc. destruct Hc as (Hd & Hbs & Hc).
    pose proof (len_pos bs Hbs) as Hbl.
    rewrite payload_of_cons, delay_of_cons in *. rewrite chunks_cons in *.
    unfold recv. cbn [pending clock].
    set (k := n - len data) in *. assert (Hk : 1 <= k /\ k = n - len data) by (unfold k; lia).
    clearbody k. destruct Hk as [Hk Hkn]. cbn [weight] in Hw.
    destruct (k <? len bs) eqn:Hkb.
    + apply Z.ltb_lt in Hkb. rewrite take_ne by (assumption || lia).
      pose proof (weight_take_drop k bs ltac:(lia)).
      assert (Hlk : len (take k bs) = k) by (apply len_take; lia).
      destruct (IH n (data ++ take k bs) ((0, drop k bs) :: cs) rest (t + d))
        as (cs' & t' & E & H1 & H2 & H3).
      * apply timely_cons. repeat split; [lia | apply drop_ne; lia | assumption].
      * rewrite len_app. lia.
      * rewrite len_app, payload_of_cons, len_app, len_drop by lia.
        rewrite len_app in Hn. lia.
      * rewrite chunks_cons. cbn [weight]. lia.
      * exists cs', t'. rewrite chunks_cons in E.
        rewrite len_app, payload_of_cons, delay_of_cons in *. rewrite Hlk in *.
        replace (n - (len data + k)) with 0 in * by lia.
        rewrite (take_nonpos 0), app_nil_r in E by lia. rewrite (drop_nonpos 0) in H2 by lia.
        rewrite E.
        split; [|split; [assumption|split]].
        -- rewrite (take_app_le k bs) by lia. reflexivity.
        -- rewrite H2, (drop_app_le k bs) by lia. reflexivity.
        -- lia.
    + apply Z.ltb_ge in Hkb.
      rewrite (proj2 (is_empty_false bs) Hbs).
      destruct (IH n (data ++ bs) cs rest (t + d)) as (cs' & t' & E & H1 & H2 & H3).
      * assumption.
      * rewrite len_app. lia.
      * rewrite !len_app in *. lia.
      * lia.
      * exists cs', t'. rewrite E. rewrite len_app in *.
        split; [|split; [assumption|split]].
        -- f_equal. f_equal. f_equal. rewrite <- app_assoc. f_equal.
           rewrite (take_app_ge _ bs) by lia. f_equal. f_equal. lia.
        -- rewrite H2, (drop_app_ge _ bs) by lia. f_equal. lia.
        -- lia.
  - apply Z.ltb_ge in Hlt.
    exists cs, t. rewrite take_nonpos, drop_nonpos, app_nil_r by lia.
    repeat split; auto.
Qed.

Lemma Backup_recvall_delivery n cs rest t :
  timely cs = true -> 0 <= n <= len (payload_of cs) ->
  exists cs' t',
    Backup.recvall (mkio t (chunks cs ++ rest)) n
    = (Return (Some (take n (payload_of cs))), mkio t' (chunks cs' ++ rest))
    /\ timely cs' = true
    /\ payload_of cs' = drop n (payload_of cs)
    /\ t' + delay_of cs' = t + delay_of cs.
Proof.
  intros Hc Hn. unfold Backup.recvall. cbn [pending].
  destruct (Backup_recvall_loop_delivery (S (weight (chunks cs ++ rest))) n [] cs rest t)
    as (cs' & t' & E & H); try assumption; change (len (@nil byte)) with 0; try lia.
  exists cs', t'. rewrite E. rewrite Z.sub_0_r in *. cbn [app]. split; [reflexivity | exact H].
Qed.

(** ** End of file and stalls *)

Lemma Server_recvall_loop_eof fuel : forall start n data cs t,
  timely cs = true -> len data + len (payload_of cs) < n ->
  (t - start) + delay_of cs < 10000 ->
  (weight (chunks cs) < fuel)%nat ->
  fst (Server.recvall_loop fuel start n data (mkio t (chunks cs))) = Return None.
Proof.
  induction fuel as [|fuel IH]; intros start n data cs t Hc Hn Ht Hw; [lia|].
  pose proof (delay_of_nonneg cs Hc) as Hd0. pose proof (len_nonneg (payload_of cs)) as Hp0.
  cbn [Server.recvall_loop clock].
  replace (len data <? n) with true by (symmetry; apply Z.ltb_lt; lia).
  replace (t - start <? 10000) with true by (symmetry; apply Z.ltb_lt; lia).
  cbn [andb]. destruct cs as [|[d bs] cs]; [reflexivity|].
  apply timely_cons in Hc. destruct Hc as (Hd & Hbs & Hc).
  pose proof (len_pos bs Hbs) as Hbl. pose proof (delay_of_nonneg cs Hc) as Hd1.
  rewrite payload_of_cons, delay_of_cons, len_app in *.
  change (chunks ((d, bs) :: cs)) with ((d, Data bs) :: chunks cs) in *.
  unfold recv. cbn [pending clock].
  set (k := Z.min (n - len data) 8192). assert (Hk : 1 <= k <= n - len data) by (unfold k; lia).
  clearbody k. cbn [weight] in Hw.
  destruct (k <? len bs) eqn:Hkb.
  - apply Z.ltb_lt in Hkb. rewrite take_ne by (assumption || lia).
    pose proof (weight_take_drop k bs ltac:(lia)).
    apply (IH start n (data ++ take k bs) ((0, drop k bs) :: cs) (t + d)).
    + apply timely_cons. repeat split; [lia | apply drop_ne; lia | assumption].
    + rewrite len_app, payload_of_cons, len_app, len_take, len_drop by lia. lia.
    + rewrite delay_of_cons. lia.
    + change (chunks ((0, drop k bs) :: cs)) with ((0, Data (drop k bs)) :: chunks cs).
      cbn [weight]. lia.
  - rewrite (proj2 (is_empty_false bs) Hbs).
    apply (IH start n (data ++ bs) cs (t + d)); try assumption.
    + rewrite len_app. lia.
    + lia.
    + lia.
Qed.

Lemma Backup_recvall_loop_eof fuel : forall n data cs t,
  timely cs = true -> len data + len (payload_of cs) < n ->
  (weight (chunks cs) < fuel)%nat ->
  fst (Backup.recvall_loop fuel n data (mkio t (chunks cs))) = Return None.
Proof.
  induction fuel as [|fuel IH]; intros n data cs t Hc Hn Hw; [lia|].
  pose proof (len_nonneg (payload_of cs)) as Hp0.
  cbn [Backup.recvall_loop].
  replace (len data <? n) with true by (symmetry; apply Z.ltb_lt; lia).
  destruct cs as [|[d bs] cs]; [reflexivity|].
  apply timely_cons in Hc. destruct Hc as (Hd & Hbs & Hc).
  pose proof (len_pos bs Hbs) as Hbl. pose proof (len_nonneg (payload_of cs)) as Hp1.
  rewrite payload_of_cons, len_app in *.
  change (chunks ((d, bs) :: cs)) with ((d, Data bs) :: chunks cs) in *.
  unfold recv. cbn [pending clock].
  replace (n - len data <? len bs) with false by (symmetry; apply Z.ltb_ge; lia).
  rewrite (proj2 (is_empty_false bs) Hbs). cbn [weight] in Hw.
  apply (IH n (data ++ bs) cs (t + d)); try assumption.
  - rewrite len_app. lia.
  - lia.
Qed.

Lemma stalling_cons d ev sc :
  stalling ((d, ev) :: sc) = true <->
  0 <= d /\ match ev with Data bs => bs <> [] | Timeout | Eintr => True | Error => False end
  /\ stalling sc = true.
Proof.
  unfold stalling. cbn [forallb fst snd]. rewrite !andb_true_iff, Z.leb_le.
  destruct ev; rewrite ?negb_true_iff, ?is_empty_false; intuition congruence.
Qed.

Lemma Server_recvall_loop_stall fuel : forall start n data sc rest t,
  stalling sc = true -> len data + len (bytes_of sc) < n ->
  10000 <= (t - start) + total_delay sc ->
  (weight (sc ++ rest) < fuel)%nat ->
  fst (Server.recvall_loop fuel start n data (mkio t (sc ++ rest))) = Raise_timeout.
Proof.
  induction fuel as [|fuel IH]; intros start n data sc rest t Hs Hn Ht Hw; [lia|].
  pose proof (len_nonneg (bytes_of sc)) as Hp0.
  cbn [Server.recvall_loop clock].
  replace (len data <? n) with true by (symmetry; apply Z.ltb_lt; lia).
  destruct (t - start <? 10000) eqn:Hlt; cbn [andb]; [|reflexivity].
  apply Z.ltb_lt in Hlt.
  destruct sc as [|[d ev] sc]; [change (total_delay []) with 0 in Ht; lia|].
  apply stalling_cons in Hs. destruct Hs as (Hd & Hev & Hs).
  change (total_delay ((d, ev) :: sc)) with (d + total_delay sc) in Ht.
  cbn [app] in *. unfold recv. cbn [pending clock].
  destruct ev as [bs| | |]; cbn [bytes_of weight] in *; [|..|contradiction].
  - rewrite len_app in Hn. pose proof (len_pos bs Hev) as Hbl.
    pose proof (len_nonneg (bytes_of sc)) as Hp1.
    set (k := Z.min (n - len data) 8192).
    assert (Hk : 1 <= k <= n - len data) by (unfold k; lia). clearbody k.
    destruct (k <? len bs) eqn:Hkb.
    + apply Z.ltb_lt in Hkb. rewrite take_ne by (assumption || lia).
      pose proof (weight_take_drop k bs ltac:(lia)).
      apply (IH start n (data ++ take k bs) ((0, Data (drop k bs)) :: sc) rest (t + d)).
      * apply stalling_cons. repeat split; [lia | apply drop_ne; lia | assumption].
      * cbn [bytes_of]. rewrite !len_app, len_take, len_drop by lia. lia.
      * change (total_delay ((0, Data (drop k bs)) :: sc)) with (0 + total_delay sc). lia.
      * cbn [app weight]. lia.
    + rewrite (proj2 (is_empty_false bs) Hev).
      apply (IH start n (data ++ bs) sc rest (t + d)); try assumption.
      * rewrite len_app. lia.
      * lia.
      * lia.
  - apply (IH start n data sc rest (t + d)); try assumption; lia.
  - apply (IH start n data sc rest (t + d)); try assumption; lia.
Qed.

(** ** The length prefix and one pass of the read loop *)

Lemma byte_val_of_Z z : byte_val (byte_of_Z z) = z mod 256.
Proof.
  unfold byte_val, byte_of_Z. pose proof (Z.mod_pos_bound z 256 ltac:(lia)) as Hm.
  destruct (Byte.of_N (Z.to_N (z mod 256))) as [b|] eqn:E.
  - apply Byte.to_of_N in E. rewrite E. lia.
  - apply Byte.of_N_None_iff in E. lia.
Qed.

Lemma unpack_pack n : 0 <= n < 4294967296 -> unpack_be32 (pack_be32 n) = Some n.
Proof.
  intros Hn. unfold unpack_be32, pack_be32. rewrite !byte_val_of_Z. f_equal.
  Z.div_mod_to_equations. lia.
Qed.

Lemma len_pack n : len (pack_be32 n) = 4.
Proof. reflexivity. Qed.

Lemma unpack_some_nonempty size_data frame_size :
  unpack_be32 size_data = Some frame_size -> falsy (Some size_data) = false.
Proof. destruct size_data; [discriminate | reflexivity]. Qed.

Lemma Server_read_frame_eof q t :
  Server.read_frame q (mkio t []) = Ended Lost_reading_size q (mkio t []).
Proof.
  unfold Server.read_frame, Server.recvall. cbn [pending clock weight Server.recvall_loop].
  rewrite Z.sub_diag. reflexivity.
Qed.

(** The backup relays a framed payload whatever its length. *)
Lemma Backup_round_trip N payload cs rest t q q' :
  len payload = N -> 1 <= N < 4294967296 ->
  timely cs = true -> payload_of cs = pack_be32 N ++ payload ->
  push q payload = Some q' ->
  Backup.read_frame q (mkio t (chunks cs ++ rest))
  = Pushed payload q' (mkio (t + delay_of cs) rest).
Proof.
  intros Hlen HN Hc Hp Hpush. unfold Backup.read_frame.
  destruct (Backup_recvall_delivery 4 cs rest t Hc) as (cs1 & t1 & E1 & Hc1 & Hp1 & Ht1);
    [rewrite Hp, len_app, len_pack; lia|].
  rewrite E1. rewrite Hp in *.
  rewrite (take_app_le 4 (pack_be32 N)) by (rewrite len_pack; lia).
  rewrite (take_all 4 (pack_be32 N)) by (rewrite len_pack; lia).
  rewrite (drop_app_ge 4 (pack_be32 N)) in Hp1 by (rewrite len_pack; lia).
  rewrite len_pack, drop_nonpos in Hp1 by lia.
  cbn [falsy]. change (is_empty (pack_be32 N)) with false. cbv iota.
  rewrite unpack_pack by lia.
  destruct (Backup_recvall_delivery N cs1 rest t1 Hc1) as (cs2 & t2 & E2 & Hc2 & Hp2 & Ht2);
    [rewrite Hp1; lia|].
  rewrite E2. rewrite Hp1 in *. rewrite take_all by lia. rewrite drop_all in Hp2 by lia.
  apply timely_payload_nil in Hp2; [|assumption]. subst cs2.
  change (delay_of []) with 0 in Ht2. cbn [chunks map app].
  cbn [falsy]. assert (Hne : is_empty payload = false).
  { apply is_empty_false. intros ->. change (len (@nil byte)) with 0 in Hlen. lia. }
  rewrite Hne, Hpush. replace t2 with (t + delay_of cs) by lia. reflexivity.
Qed.

Lemma len_big_payload : len big_payload = 10000001.
Proof. unfold big_payload, len. rewrite repeat_length. apply Z2Nat.id. lia. Qed.

(** ** The two files compared *)

Lemma Backup_recvall_loop_split fuel n data d bs rest t k r s' :
  1 <= k < len bs -> k <= n - len data ->
  Backup.recvall_loop fuel n (data ++ take k bs)
                      (mkio (t + d) ((0, Data (drop k bs)) :: rest)) = (r, s') ->
  r <> Out_of_fuel ->
  Backup.recvall_loop (S fuel) n data (mkio t ((d, Data bs) :: rest)) = (r, s').
Proof.
  intros Hk Hkn H Hr.
  destruct fuel as [|fuel]; [inversion H; subst; congruence|].
  assert (Hlk : len (take k bs) = k) by (apply len_take; lia).
  assert (Hld : len (drop k bs) = len bs - k) by (apply len_drop; lia).
  pose proof (len_nonneg data) as Hd0.
  assert (Hbs0 : bs <> []).
  { intros ->. change (len (@nil byte)) with 0 in *. lia. }
  cbn [Backup.recvall_loop] in H. rewrite len_app, Hlk in H.
  unfold recv in H. cbn [pending clock] in H. rewrite Hld in H.
  cbn [Backup.recvall_loop].
  replace (len data <? n) with true by (symmetry; apply Z.ltb_lt; lia).
  unfold recv at 1. cbn [pending clock].
  destruct (n - len data <? len bs) eqn:Hnb.
  - apply Z.ltb_lt in Hnb. rewrite (take_ne (n - len data) bs) by (assumption || lia).
    rewrite len_app, len_take by lia.
    replace (len data + (n - len data) <? n) with false by (symmetry; apply Z.ltb_ge; lia).
    destruct (len data + k <? n) eqn:Hkn'.
    + apply Z.ltb_lt in Hkn'.
      replace (n - (len data + k) <? len bs - k) with true in H by (symmetry; apply Z.ltb_lt; lia).
      rewrite take_ne in H by (try apply drop_ne; lia).
      destruct fuel as [|fuel]; [inversion H; subst; congruence|].
      cbn [Backup.recvall_loop] in H.
      rewrite <- app_assoc, <- take_add, <- drop_add in H by lia.
      replace (k + (n - (len data + k))) with (n - len data) in H by lia.
      rewrite len_app, len_take in H by lia.
      replace (len data + (n - len data) <? n) with false in H by (symmetry; apply Z.ltb_ge; lia).
      rewrite Z.add_0_r in H. exact H.
    + apply Z.ltb_ge in Hkn'. assert (k = n - len data) by lia. subst k.
      exact H.
  - apply Z.ltb_ge in Hnb.
    rewrite (proj2 (is_empty_false bs) Hbs0).
    replace (len data + k <? n) with true in H by (symmetry; apply Z.ltb_lt; lia).
    replace (n - (len data + k) <? len bs - k) with false in H by (symmetry; apply Z.ltb_ge; lia).
    assert (Hdr : is_empty (drop k bs) = false) by (apply is_empty_false, drop_ne; lia).
    rewrite Hdr, <- app_assoc, take_drop, Z.add_0_r in H.
    apply (Backup_recvall_loop_more_fuel fuel (S fuel)); [lia | assumption | assumption].
Qed.

Lemma data_only_cases sc :
  data_only sc = true ->
  sc = [] \/ exists d bs rest, sc = (d, Data bs) :: rest /\ data_only rest = true.
Proof.
  destruct sc as [|[d ev] rest]; [auto|]. intros H. right.
  cbn [data_only forallb snd] in H. destruct ev; try discriminate H. eauto.
Qed.

Lemma recvall_loop_agree fuel : forall start n data s r s',
  data_only (pending s) = true ->
  Server.recvall_loop fuel start n data s = (r, s') ->
  r <> Raise_timeout -> r <> Out_of_fuel ->
  Backup.recvall_loop fuel n data s = (r, s').
Proof.
  induction fuel as [|fuel IH]; intros start n data s r s' Hd H Ht Hf.
  { inversion H; subst. congruence. }
  cbn [Server.recvall_loop] in H. cbn [Backup.recvall_loop].
  destruct (len data <? n) eqn:Hn; [|exact H].
  destruct (clock s - start <? 10000); cbn [andb] in H; [|inversion H; subst; congruence].
  apply Z.ltb_lt in Hn.
  destruct s as [t sc]. cbn [pending clock] in *.
  destruct (data_only_cases sc Hd) as [->|(d & bs & rest & -> & Hd')].
  - exact H.
  - unfold recv in *. cbn [pending clock] in *.
    set (k := Z.min (n - len data) 8192) in *.
    assert (Hk : 1 <= k <= n - len data) by (unfold k; lia).
    assert (Hk' : k = n - len data \/ k = 8192) by (unfold k; lia).
    clearbody k.
    destruct (k <? len bs) eqn:Hkb.
    + apply Z.ltb_lt in Hkb.
      assert (Hbs0 : bs <> []).
      { intros ->. change (len (@nil byte)) with 0 in *. lia. }
      rewrite take_ne in H by (assumption || lia).
      apply IH in H; [|assumption..].
      pose proof (Backup_recvall_loop_split fuel n data d bs rest t k r s'
                    ltac:(lia) ltac:(lia) H Hf) as Hs.
      cbn [Backup.recvall_loop] in Hs.
      replace (len data <? n) with true in Hs by (symmetry; apply Z.ltb_lt; lia).
      unfold recv in Hs. cbn [pending clock] in Hs. exact Hs.
    + apply Z.ltb_ge in Hkb.
      replace (n - len data <? len bs) with false by (symmetry; apply Z.ltb_ge; lia).
      destruct (is_empty bs); [exact H|].
      eapply IH; eauto.
Qed.

Lemma recvall_agree s n r s' :
  data_only (pending s) = true ->
  Server.recvall s n = (r, s') -> r <> Raise_timeout ->
  Backup.recvall s n = (r, s') /\ data_only (pending s') = true.
Proof.
  intros Hd H Ht. unfold Server.recvall in H.
  destruct (Server_recvall_loop_sound _ _ _ _ _ _ _ (Nat.lt_succ_diag_r _) H)
    as (H1 & _ & H3 & _).
  split; [|auto]. unfold Backup.recvall. eapply recvall_loop_agree; eauto.
Qed.

Lemma read_frame_agree q s :
  data_only (pending s) = true ->
  (forall q1 s1, Server.read_frame q s <> Ended Timed_out q1 s1) ->
  (forall q1 s1, Server.read_frame q s <> Ended Too_large q1 s1) ->
  Backup.read_frame q s = Server.read_frame q s
  /\ (forall f q1 s1, Server.read_frame q s = Pushed f q1 s1 ->
        data_only (pending s1) = true).
Proof.
  intros Hd Ht Hl. unfold Backup.read_frame. unfold Server.read_frame in *.
  destruct (Server.recvall s 4) as [r1 s1] eqn:E1.
  destruct r1 as [v| | |]; try (exfalso; eapply Ht; reflexivity);
    destruct (recvall_agree _ _ _ _ Hd E1 ltac:(discriminate)) as [-> Hd1];
    try (split; [reflexivity | discriminate]).
  destruct (falsy v); [split; [reflexivity | discriminate]|].
  destruct (unpack_be32 _) as [frame_size|]; [|split; [reflexivity | discriminate]].
  destruct (10000000 <? frame_size); [exfalso; eapply Hl; reflexivity|].
  destruct (Server.recvall s1 frame_size) as [r2 s2] eqn:E2.
  destruct r2 as [v2| | |]; try (exfalso; eapply Ht; reflexivity);
    destruct (recvall_agree _ _ _ _ Hd1 E2 ltac:(discriminate)) as [-> Hd2];
    try (split; [reflexivity | discriminate]).
  split; [reflexivity|]. intros f q1 s3 H.
  destruct (falsy v2); [discriminate H|].
  destruct (push q _); inversion H; subst. assumption.
Qed.

Lemma read_loop_agree fuel : forall q s,
  data_only (pending s) = true ->
  ended (Server.read_loop fuel true q s) <> Timed_out ->
  ended (Server.read_loop fuel true q s) <> Too_large ->
  Backup.read_loop fuel q s = Server.read_loop fuel true q s.
Proof.
  induction fuel as [|fuel IH]; intros q s Hd Ht Hl; [reflexivity|].
  cbn [Server.read_loop Backup.read_loop] in *.
  destruct (read_frame_agree q s Hd) as [E Hp].
  - intros q1 s1 H. rewrite H in Ht. apply Ht. reflexivity.
  - intros q1 s1 H. rewrite H in Hl. apply Hl. reflexivity.
  - rewrite E. destruct (Server.read_frame q s) as [f q1 s1|e q1 s1]; [|reflexivity].
    cbn [put_first ended] in Ht, Hl. rewrite IH; eauto.
Qed.

(** ** The read loops end *)

Lemma Server_read_frame_progress q s :
  match Server.read_frame q s with
  | Pushed _ _ s1 => (weight (pending s1) < weight (pending s))%nat
  | Ended e _ _ => e <> No_fuel
  end.
Proof.
  unfold Server.read_frame, Server.recvall.
  destruct (Server.recvall_loop _ _ 4 [] s) as [r1 s1] eqn:E1.
  destruct (Server_recvall_loop_sound _ _ _ _ _ _ _ (Nat.lt_succ_diag_r _) E1)
    as (H1 & H2 & _ & H4).
  destruct r1 as [v| | |]; try discriminate; [|congruence].
  destruct (falsy v) eqn:Hv; [discriminate|].
  destruct v as [d|]; [|discriminate Hv]. cbn [falsy] in Hv.
  destruct (H4 d eq_refl) as [H5 _].
  assert (Hd : (0 < length d)%nat) by (destruct d; [discriminate Hv | simpl; lia]).
  destruct (unpack_be32 d) as [frame_size|]; [|discriminate].
  destruct (10000000 <? frame_size); [discriminate|].
  destruct (Server.recvall_loop _ _ frame_size [] s1) as [r2 s2] eqn:E2.
  destruct (Server_recvall_loop_sound _ _ _ _ _ _ _ (Nat.lt_succ_diag_r _) E2)
    as (G1 & G2 & _).
  destruct r2 as [v2| | |]; try discriminate; [|congruence].
  destruct (falsy v2); [discriminate|].
  destruct (push q _); [simpl in *; lia | discriminate].
Qed.

Lemma Server_read_loop_fuel fuel : forall b q s,
  (weight (pending s) < fuel)%nat -> ended (Server.read_loop fuel b q s) <> No_fuel.
Proof.
  induction fuel as [|fuel IH]; intros b q s Hw; [lia|].
  cbn [Server.read_loop]. destruct b; [|discriminate].
  pose proof (Server_read_frame_progress q s) as Hp.
  destruct (Server.read_frame q s) as [f q1 s1|e q1 s1]; [|exact Hp].
  cbn [put_first ended]. apply IH. lia.
Qed.

Lemma Backup_read_frame_progress q s :
  match Backup.read_frame q s with
  | Pushed _ _ s1 => (weight (pending s1) < weight (pending s))%nat
  | Ended e _ _ => e <> No_fuel
  end.
Proof.
  unfold Backup.read_frame, Backup.recvall.
  destruct (Backup.recvall_loop _ 4 [] s) as [r1 s1] eqn:E1.
  destruct (Backup_recvall_loop_sound _ _ _ _ _ _ (Nat.lt_succ_diag_r _) E1)
    as (H1 & H2 & _ & H4).
  destruct r1 as [v| | |]; try discriminate; [|congruence].
  destruct (falsy v) eqn:Hv; [discriminate|].
  destruct v as [d|]; [|discriminate Hv]. cbn [falsy] in Hv.
  destruct (H4 d eq_refl) as [H5 _].
  assert (Hd : (0 < length d)%nat) by (destruct d; [discriminate Hv | simpl; lia]).
  destruct (unpack_be32 d) as [frame_size|]; [|discriminate].
  destruct (Backup.recvall_loop _ frame_size [] s1) as [r2 s2] eqn:E2.
  destruct (Backup_recvall_loop_sound _ _ _ _ _ _ (Nat.lt_succ_diag_r _) E2)
    as (G1 & G2 & _).
  destruct r2 as [v2| | |]; try discriminate; [|congruence].
  destruct (falsy v2); [discriminate|].
  destruct (push q _); [simpl in *; lia | discriminate].
Qed.

Lemma Backup_read_loop_fuel fuel : forall q s,
  (weight (pending s) < fuel)%nat -> ended (Backup.read_loop fuel q s) <> No_fuel.
Proof.
  induction fuel as [|fuel IH]; intros q s Hw; [lia|].
  cbn [Backup.read_loop].
  pose proof (Backup_read_frame_progress q s) as Hp.
  destruct (Backup.read_frame q s) as [f q1 s1|e q1 s1]; [|exact Hp].
  cbn [put_first ended]. apply IH. lia.
Qed.

(** ** Fuel does not matter *)

Lemma Server_read_loop_more_fuel fuel : forall fuel' b q s,
  (weight (pending s) < fuel)%nat -> (weight (pending s) < fuel')%nat ->
  Server.read_loop fuel b q s = Server.read_loop fuel' b q s.
Proof.
  induction fuel as [|fuel IH]; intros fuel' b q s H1 H2; [lia|].
  destruct fuel' as [|fuel']; [lia|]. cbn [Server.read_loop].
  destruct b; [|reflexivity].
  pose proof (Server_read_frame_progress q s) as Hp.
  destruct (Server.read_frame q s) as [f q1 s1|e q1 s1]; [|reflexivity].
  f_equal. apply IH; lia.
Qed.

Lemma Backup_read_loop_more_fuel fuel : forall fuel' q s,
  (weight (pending s) < fuel)%nat -> (weight (pending s) < fuel')%nat ->
  Backup.read_loop fuel q s = Backup.read_loop fuel' q s.
Proof.
  induction fuel as [|fuel IH]; intros fuel' q s H1 H2; [lia|].
  destruct fuel' as [|fuel']; [lia|]. cbn [Backup.read_loop].
  pose proof (Backup_read_frame_progress q s) as Hp.
  destruct (Backup.read_frame q s) as [f q1 s1|e q1 s1]; [|reflexivity].
  f_equal. apply IH; lia.
Qed.

(** The read loop, one pass at a time. *)
Lemma Server_serve_step q s :
  Server.serve true q s
  = match Server.read_frame q s with
    | Pushed f q1 s1 => put_first f (Server.serve true q1 s1)
    | Ended e q1 s1 => mkrun e q1 s1 []
    end.
Proof.
  unfold Server.serve.
  change (Server.read_loop (S (weight (pending s))) true q s)
    with (match Server.read_frame q s with
          | Pushed f q1 s1 => put_first f (Server.read_loop (weight (pending s)) true q1 s1)
          | Ended e q1 s1 => mkrun e q1 s1 []
          end).
  pose proof (Server_read_frame_progress q s) as Hp.
  destruct (Server.read_frame q s) as [f q1 s1|e q1 s1]; [|reflexivity].
  f_equal. apply Server_read_loop_more_fuel; lia.
Qed.

Lemma Backup_serve_step q s :
  Backup.serve q s
  = match Backup.read_frame q s with
    | Pushed f q1 s1 => put_first f (Backup.serve q1 s1)
    | Ended e q1 s1 => mkrun e q1 s1 []
    end.
Proof.
  unfold Backup.serve.
  change (Backup.read_loop (S (weight (pending s))) q s)
    with (match Backup.read_frame q s with
          | Pushed f q1 s1 => put_first f (Backup.read_loop (weight (pending s)) q1 s1)
          | Ended e q1 s1 => mkrun e q1 s1 []
          end).
  pose proof (Backup_read_frame_progress q s) as Hp.
  destruct (Backup.read_frame q s) as [f q1 s1|e q1 s1]; [|reflexivity].
  f_equal. apply Backup_read_loop_more_fuel; lia.
Qed.

(** ** [recvall] against its deadline *)

Lemma time_for_nonpos n cs : n <= 0 -> time_for n cs = 0.
Proof.
  intros H. destruct cs as [|[d bs] cs]; [reflexivity|]. cbn [time_for].
  replace (n <=? 0) with true by (symmetry; apply Z.leb_le; lia). reflexivity.
Qed.

Lemma after_nonpos n cs : n <= 0 -> after n cs = cs.
Proof.
  intros H. destruct cs as [|[d bs] cs]; [reflexivity|]. cbn [after].
  replace (n <=? 0) with true by (symmetry; apply Z.leb_le; lia). reflexivity.
Qed.

Lemma last_start_nonneg cs : forall n, timely cs = true -> 0 <= last_start n cs.
Proof.
  induction cs as [|[d bs] cs IH]; intros n H; [cbn; lia|].
  apply timely_cons in H. destruct H as (Hd & _ & Hc). specialize (IH (n - len bs) Hc).
  cbn [last_start]. destruct (n <=? Z.min (len bs) 8192); [lia|].
  destruct (n <=? len bs); lia.
Qed.

Lemma time_for_nonneg cs : forall n, timely cs = true -> 0 <= time_for n cs.
Proof.
  induction cs as [|[d bs] cs IH]; intros n H; [cbn; lia|].
  apply timely_cons in H. destruct H as (Hd & _ & Hc). specialize (IH (n - len bs) Hc).
  cbn [time_for]. destruct (n <=? 0); lia.
Qed.

(** A chunk read in part: [k] of its bytes are taken, [m - k] are still
    wanted. *)
Lemma after_split d bs cs m k :
  1 <= k < len bs -> k <= m ->
  after (m - k) ((0, drop k bs) :: cs) = after m ((d, bs) :: cs).
Proof.
  intros Hk Hm. cbn [after]. rewrite len_drop by lia.
  replace (m <=? 0) with false by (symmetry; apply Z.leb_gt; lia).
  destruct (m - k <=? 0) eqn:E1.
  - apply Z.leb_le in E1. assert (m = k) by lia. subst m.
    replace (k <? len bs) with true by (symmetry; apply Z.ltb_lt; lia). reflexivity.
  - apply Z.leb_gt in E1.
    destruct (m <? len bs) eqn:E2.
    + apply Z.ltb_lt in E2.
      replace (m - k <? len bs - k) with true by (symmetry; apply Z.ltb_lt; lia).
      rewrite <- drop_add by lia. do 3 f_equal. lia.
    + apply Z.ltb_ge in E2.
      replace (m - k <? len bs - k) with false by (symmetry; apply Z.ltb_ge; lia).
      f_equal. lia.
Qed.

Lemma time_for_split d bs cs m k :
  1 <= k < len bs -> k <= m ->
  d + time_for (m - k) ((0, drop k bs) :: cs) = time_for m ((d, bs) :: cs).
Proof.
  intros Hk Hm. cbn [time_for]. rewrite len_drop by lia.
  replace (m <=? 0) with false by (symmetry; apply Z.leb_gt; lia).
  destruct (m - k <=? 0) eqn:E1.
  - apply Z.leb_le in E1. rewrite time_for_nonpos by lia. lia.
  - replace (m - k - (len bs - k)) with (m - len bs) by lia. lia.
Qed.

Lemma last_start_split d bs cs m :
  8192 < len bs -> 8192 < m ->
  d + last_start (m - 8192) ((0, drop 8192 bs) :: cs) = last_start m ((d, bs) :: cs).
Proof.
  intros Hk Hm. cbn [last_start]. rewrite len_drop by lia.
  replace (m <=? Z.min (len bs) 8192) with false by (symmetry; apply Z.leb_gt; lia).
  destruct (m <=? len bs) eqn:E.
  - apply Z.leb_le in E.
    destruct (m - 8192 <=? Z.min (len bs - 8192) 8192); [lia|].
    replace (m - 8192 <=? len bs - 8192) with true by (symmetry; apply Z.leb_le; lia). lia.
  - apply Z.leb_gt in E.
    replace (m - 8192 <=? Z.min (len bs - 8192) 8192) with false
      by (symmetry; apply Z.leb_gt; lia).
    replace (m - 8192 <=? len bs - 8192) with false by (symmetry; apply Z.leb_gt; lia).
    replace (m - 8192 - (len bs - 8192)) with (m - len bs) by lia. lia.
Qed.

(** A chunk read whole, more bytes wanted. *)
Lemma last_start_whole d bs cs m :
  len bs < m -> last_start m ((d, bs) :: cs) = d + last_start (m - len bs) cs.
Proof.
  intros H. cbn [last_start].
  replace (m <=? Z.min (len bs) 8192) with false by (symmetry; apply Z.leb_gt; lia).
  replace (m <=? len bs) with false by (symmetry; apply Z.leb_gt; lia). reflexivity.
Qed.

Lemma after_whole d bs cs m :
  0 < m -> len bs <= m -> after m ((d, bs) :: cs) = after (m - len bs) cs.
Proof.
  intros H0 H. cbn [after].
  replace (m <=? 0) with false by (symmetry; apply Z.leb_gt; lia).
  replace (m <? len bs) with false by (symmetry; apply Z.ltb_ge; lia). reflexivity.
Qed.

Lemma time_for_whole d bs cs m :
  0 < m -> time_for m ((d, bs) :: cs) = d + time_for (m - len bs) cs.
Proof.
  intros H0. cbn [time_for].
  replace (m <=? 0) with false by (symmetry; apply Z.leb_gt; lia). reflexivity.
Qed.

(** What is left after [n] bytes. *)
Lemma after_spec cs : forall n,
  timely cs = true -> 0 <= n <= len (payload_of cs) ->
  timely (after n cs) = true
  /\ payload_of (after n cs) = drop n (payload_of cs)
  /\ time_for n cs + delay_of (after n cs) = delay_of cs.
Proof.
  induction cs as [|[d bs] cs IH]; intros n Hc Hn.
  - change (payload_of []) with (@nil byte) in *. change (len (@nil byte)) with 0 in Hn.
    cbn [after time_for]. rewrite drop_nonpos by lia. auto.
  - pose proof Hc as Hc0. apply timely_cons in Hc. destruct Hc as (Hd & Hbs & Hc).
    pose proof (len_pos bs Hbs) as Hbl.
    rewrite payload_of_cons, len_app in Hn.
    destruct (Z_le_gt_dec n 0) as [H0|H0].
    + rewrite after_nonpos, time_for_nonpos, drop_nonpos by lia. split; [assumption|].
      split; [reflexivity | lia].
    + destruct (Z_lt_le_dec n (len bs)) as [Hlt|Hge].
      * cbn [after time_for].
        replace (n <=? 0) with false by (symmetry; apply Z.leb_gt; lia).
        replace (n <? len bs) with true by (symmetry; apply Z.ltb_lt; lia).
        rewrite time_for_nonpos by lia.
        split; [apply timely_cons; repeat split; [lia | apply drop_ne; lia | assumption]|].
        rewrite !payload_of_cons, !delay_of_cons, drop_app_le by lia.
        split; [reflexivity | lia].
      * rewrite after_whole, time_for_whole by lia.
        destruct (IH (n - len bs) Hc ltac:(lia)) as (H1 & H2 & H3).
        split; [assumption|]. rewrite payload_of_cons, delay_of_cons, drop_app_ge by lia.
        split; [assumption | lia].
Qed.

Lemma after_all cs n :
  timely cs = true -> n = len (payload_of cs) -> after n cs = [] /\ time_for n cs = delay_of cs.
Proof.
  intros Hc Hn. pose proof (len_nonneg (payload_of cs)).
  destruct (after_spec cs n Hc ltac:(lia)) as (H1 & H2 & H3).
  rewrite drop_all in H2 by lia. apply timely_payload_nil in H2; [|assumption].
  rewrite H2 in H3. change (delay_of []) with 0 in H3. split; [assumption | lia].
Qed.

(** [recvall] gets its bytes when its last [recv] starts in time. *)
Lemma Server_recvall_loop_in_time fuel : forall start n data cs rest t,
  timely cs = true -> len data <= n -> n - len data <= len (payload_of cs) ->
  (len data < n -> (t - start) + last_start (n - len data) cs < 10000) ->
  (weight (chunks cs ++ rest) < fuel)%nat ->
  Server.recvall_loop fuel start n data (mkio t (chunks cs ++ rest))
  = (Return (Some (data ++ take (n - len data) (payload_of cs))),
     mkio (t + time_for (n - len data) cs) (chunks (after (n - len data) cs) ++ rest)).
Proof.
  induction fuel as [|fuel IH]; intros start n data cs rest t Hc Hle Hn Ht Hw; [lia|].
  cbn [Server.recvall_loop clock].
  destruct (len data <? n) eqn:Hlt.
  - apply Z.ltb_lt in Hlt. specialize (Ht Hlt).
    pose proof (last_start_nonneg cs (n - len data) Hc) as Hl0.
    replace (t - start <? 10000) with true by (symmetry; apply Z.ltb_lt; lia).
    cbn [andb].
    destruct cs as [|[d bs] cs].
    { change (payload_of []) with (@nil byte) in Hn. change (len (@nil byte)) with 0 in Hn. lia. }
    pose proof Hc as Hc0.
    apply timely_cons in Hc. destruct Hc as (Hd & Hbs & Hc).
    pose proof (len_pos bs Hbs) as Hbl.
    rewrite chunks_cons in *.
    unfold recv. cbn [pending clock].
    set (m := n - len data) in *.
    assert (Hm : 0 < m /\ n = len data + m) by (unfold m; lia). clearbody m.
    destruct Hm as [Hm0 Hnm].
    remember (Z.min m 8192) as k eqn:Hk.
    destruct (k <? len bs) eqn:Hkb.
    + apply Z.ltb_lt in Hkb.
      assert (Hk1 : 1 <= k <= m) by lia.
      rewrite take_ne by (assumption || lia).
      assert (Hlk : len (take k bs) = k) by (apply len_take; lia).
      pose proof (weight_take_drop k bs ltac:(lia)) as Hwd.
      change ((0, Data (drop k bs)) :: chunks cs ++ rest)
        with (chunks ((0, drop k bs) :: cs) ++ rest).
      rewrite (IH start n (data ++ take k bs) ((0, drop k bs) :: cs) rest (t + d)).
      * rewrite len_app, Hlk. replace (n - (len data + k)) with (m - k) by lia.
        rewrite (after_split d bs cs m k) by lia.
        rewrite <- (time_for_split d bs cs m k) by lia.
        rewrite !payload_of_cons.
        f_equal; [|f_equal; lia].
        f_equal. f_equal. rewrite <- app_assoc. f_equal.
        replace m with (k + (m - k)) at 2 by lia.
        rewrite take_add by lia.
        rewrite (take_app_le k bs), (drop_app_le k bs) by lia. reflexivity.
      * apply timely_cons. repeat split; [lia | apply drop_ne; lia | assumption].
      * rewrite len_app. lia.
      * rewrite len_app, Hlk, payload_of_cons, len_app, len_drop by lia.
        rewrite payload_of_cons, len_app in Hn. lia.
      * rewrite len_app, Hlk. intros Hmore.
        assert (Hk8 : k = 8192) by lia. clear Hk. subst k.
        replace (n - (len data + 8192)) with (m - 8192) by lia.
        pose proof (last_start_split d bs cs m ltac:(lia) ltac:(lia)). lia.
      * rewrite chunks_cons. cbn [weight] in *. lia.
    + apply Z.ltb_ge in Hkb.
      rewrite (proj2 (is_empty_false bs) Hbs).
      assert (Hbm : len bs <= m) by lia.
      rewrite (IH start n (data ++ bs) cs rest (t + d)).
      * rewrite len_app. replace (n - (len data + len bs)) with (m - len bs) by lia.
        rewrite after_whole, time_for_whole by lia. rewrite payload_of_cons.
        f_equal; [|f_equal; lia].
        f_equal. f_equal. rewrite <- app_assoc. f_equal.
        rewrite (take_app_ge _ bs) by lia. reflexivity.
      * assumption.
      * rewrite len_app. lia.
      * rewrite len_app. rewrite payload_of_cons, len_app in Hn. lia.
      * rewrite len_app. intros Hmore.
        replace (n - (len data + len bs)) with (m - len bs) by lia.
        rewrite last_start_whole in Ht by lia. lia.
      * cbn [weight] in Hw. lia.
  - apply Z.ltb_ge in Hlt. cbn [andb].
    rewrite take_nonpos, after_nonpos, time_for_nonpos, app_nil_r, Z.add_0_r by lia.
    reflexivity.
Qed.

(** And gives up when it does not. *)
Lemma Server_recvall_loop_late fuel : forall start n data cs rest t,
  timely cs = true -> len data < n -> n - len data <= len (payload_of cs) ->
  10000 <= (t - start) + last_start (n - len data) cs ->
  (weight (chunks cs ++ rest) < fuel)%nat ->
  fst (Server.recvall_loop fuel start n data (mkio t (chunks cs ++ rest))) = Raise_timeout.
Proof.
  induction fuel as [|fuel IH]; intros start n data cs rest t Hc Hlt Hn Ht Hw; [lia|].
  cbn [Server.recvall_loop clock].
  replace (len data <? n) with true by (symmetry; apply Z.ltb_lt; lia).
  destruct (t - start <? 10000) eqn:Hts; cbn [andb]; [|reflexivity].
  apply Z.ltb_lt in Hts.
  destruct cs as [|[d bs] cs].
  { change (payload_of []) with (@nil byte) in Hn. change (len (@nil byte)) with 0 in Hn. lia. }
  apply timely_cons in Hc. destruct Hc as (Hd & Hbs & Hc).
  pose proof (len_pos bs Hbs) as Hbl.
  rewrite chunks_cons in *.
  unfold recv. cbn [pending clock].
  set (m := n - len data) in *.
  assert (Hm : 0 < m /\ n = len data + m) by (unfold m; lia). clearbody m.
  destruct Hm as [Hm0 Hnm].
  remember (Z.min m 8192) as k eqn:Hk.
  assert (Hfirst : Z.min (len bs) 8192 < m).
  { destruct (Z_lt_le_dec (Z.min (len bs) 8192) m) as [H|H]; [assumption|].
    cbn [last_start] in Ht.
    replace (m <=? Z.min (len bs) 8192) with true in Ht by (symmetry; apply Z.leb_le; lia).
    lia. }
  destruct (k <? len bs) eqn:Hkb.
  + apply Z.ltb_lt in Hkb.
    assert (Hk8 : k = 8192) by lia. clear Hk. subst k.
    rewrite take_ne by (assumption || lia).
    assert (Hlk : len (take 8192 bs) = 8192) by (apply len_take; lia).
    pose proof (weight_take_drop 8192 bs ltac:(lia)) as Hwd.
    change ((0, Data (drop 8192 bs)) :: chunks cs ++ rest)
      with (chunks ((0, drop 8192 bs) :: cs) ++ rest).
    apply (IH start n (data ++ take 8192 bs) ((0, drop 8192 bs) :: cs) rest (t + d)).
    * apply timely_cons. repeat split; [lia | apply drop_ne; lia | assumption].
    * rewrite len_app. lia.
    * rewrite len_app, Hlk, payload_of_cons, len_app, len_drop by lia.
      rewrite payload_of_cons, len_app in Hn. lia.
    * rewrite len_app, Hlk. replace (n - (len data + 8192)) with (m - 8192) by lia.
      pose proof (last_start_split d bs cs m ltac:(lia) ltac:(lia)). lia.
    * rewrite chunks_cons. cbn [weight] in *. lia.
  + apply Z.ltb_ge in Hkb.
    rewrite (proj2 (is_empty_false bs) Hbs).
    assert (Hbm : len bs < m) by lia.
    apply (IH start n (data ++ bs) cs rest (t + d)).
    * assumption.
    * rewrite len_app. lia.
    * rewrite len_app. rewrite payload_of_cons, len_app in Hn. lia.
    * rewrite len_app. replace (n - (len data + len bs)) with (m - len bs) by lia.
      rewrite last_start_whole in Ht by lia. lia.
    * cbn [weight] in Hw. lia.
Qed.

Lemma Server_recvall_in_time n cs rest t :
  timely cs = true -> 0 <= n <= len (payload_of cs) ->
  (0 < n -> last_start n cs < 10000) ->
  Server.recvall (mkio t (chunks cs ++ rest)) n
  = (Return (Some (take n (payload_of cs))),
     mkio (t + time_for n cs) (chunks (after n cs) ++ rest)).
Proof.
  intros Hc Hn Hl. unfold Server.recvall. cbn [pending clock].
  pose proof (Server_recvall_loop_in_time (S (weight (chunks cs ++ rest))) t n [] cs rest t Hc)
    as E.
  change (len (@nil byte)) with 0 in E. rewrite Z.sub_0_r in E.
  rewrite E; [reflexivity | lia | lia | | lia].
  intros H. specialize (Hl H). lia.
Qed.

Lemma Server_recvall_late n cs rest t :
  timely cs = true -> 0 < n <= len (payload_of cs) -> 10000 <= last_start n cs ->
  exists s1, Server.recvall (mkio t (chunks cs ++ rest)) n = (Raise_timeout, s1).
Proof.
  intros Hc Hn Hl. unfold Server.recvall. cbn [pending clock].
  pose proof (Server_recvall_loop_late (S (weight (chunks cs ++ rest))) t n [] cs rest t Hc) as H.
  change (len (@nil byte)) with 0 in H. rewrite Z.sub_0_r in H.
  specialize (H ltac:(lia) ltac:(lia) ltac:(lia) ltac:(lia)).
  destruct (Server.recvall_loop _ t n [] _) as [r s1]. cbn [fst] in H. subst r.
  exists s1. reflexivity.
Qed.

Lemma last_start_le_time_for cs : forall n,
  timely cs = true -> last_start n cs <= time_for n cs.
Proof.
  induction cs as [|[d bs] cs IH]; intros n H; [cbn; lia|].
  pose proof (time_for_nonneg _ n H) as Ht.
  apply timely_cons in H. destruct H as (Hd & Hbs & Hc). specialize (IH (n - len bs) Hc).
  pose proof (len_pos bs Hbs) as Hbl.
  cbn [last_start]. destruct (n <=? Z.min (len bs) 8192) eqn:E1; [assumption|].
  apply Z.leb_gt in E1. rewrite time_for_whole by lia.
  pose proof (time_for_nonneg cs (n - len bs) Hc).
  destruct (n <=? len bs); lia.
Qed.

Lemma last_start_le_delay cs : forall n,
  timely cs = true -> last_start n cs <= delay_of cs.
Proof.
  induction cs as [|[d bs] cs IH]; intros n H; [cbn; lia|].
  apply timely_cons in H. destruct H as (Hd & Hbs & Hc). specialize (IH (n - len bs) Hc).
  pose proof (delay_of_nonneg cs Hc). rewrite delay_of_cons.
  cbn [last_start]. destruct (n <=? Z.min (len bs) 8192); [lia|].
  destruct (n <=? len bs); lia.
Qed.

(** ** Passes that push *)

(** The read loop after [k] passes that pushed. *)
Lemma Server_serve_passes k : forall q s fs q' s',
  passes k q s = Some (fs, q', s') ->
  Server.serve true q s
  = mkrun (ended (Server.serve true q' s')) (queue (Server.serve true q' s'))
          (sock (Server.serve true q' s')) (fs ++ puts (Server.serve true q' s')).
Proof.
  induction k as [|k IH]; intros q s fs q' s' H.
  - inversion H; subst. destruct (Server.serve true q' s'); reflexivity.
  - cbn [passes] in H. rewrite Server_serve_step.
    destruct (Server.read_frame q s) as [f q1 s1|e q1 s1]; [|discriminate H].
    destruct (passes k q1 s1) as [[[fs1 q2] s2]|] eqn:E; [|discriminate H].
    inversion H; subst. rewrite (IH _ _ _ _ _ E). reflexivity.
Qed.

(** ** The backup has no bound *)

Lemma Backup_read_frame_never_too_large q s q' s' :
  Backup.read_frame q s <> Ended Too_large q' s'.
Proof.
  unfold Backup.read_frame.
  destruct (Backup.recvall s 4) as [[v| | |] s1]; try discriminate.
  destruct (falsy v); [discriminate|].
  destruct (unpack_be32 _); [|discriminate].
  destruct (Backup.recvall s1 z) as [[v2| | |] s2]; try discriminate.
  destruct (falsy v2); [discriminate|]. destruct (push q _); discriminate.
Qed.

(** * The claims *)

(** C1.  For a queue of capacity [N > 0] (the code's is 10): a push onto
    a full queue removes the one oldest entry and appends the new frame;
    a push never blocks and keeps the size within [N]; after the pushes
    of [frames] into the empty queue it holds exactly the last
    [min (len frames) N] of them, in push order; and after any prefix of
    the pushes the size is at most [N]. *)
Theorem C1_drop_oldest (N : Z) (frames : list frame) :
  0 < N ->
  (forall q x, Queue.maxsize q = N -> Queue.qsize q <= N -> Queue.full q = true ->
     exists oldest rest, Queue.items q = oldest :: rest
                         /\ push q x = Some (Queue.mk N (rest ++ [x])))
  /\ (forall q x, Queue.maxsize q = N -> Queue.qsize q <= N ->
        exists q', push q x = Some q' /\ Queue.maxsize q' = N /\ Queue.qsize q' <= N)
  /\ push_all (Queue.create N) frames
     = Some (Queue.mk N (lastn (Z.min (len frames) N) frames))
  /\ (forall pre suf, frames = pre ++ suf ->
        exists q, push_all (Queue.create N) pre = Some q /\ Queue.qsize q <= N).
Proof.
  intros HN. repeat split.
  - intros q x Hm Hle Hfull. unfold Queue.full in Hfull.
    apply andb_true_iff in Hfull. destruct Hfull as [_ Hge]. apply Z.leb_le in Hge.
    destruct (Queue.items q) as [|o rest] eqn:Hit.
    + unfold Queue.qsize in Hge. rewrite Hit in Hge. change (len []) with 0 in Hge. lia.
    + exists o, rest. split; [reflexivity|]. rewrite <- Hm.
      apply (push_full q x o rest); auto; lia.
  - intros q x Hm Hle. subst N. apply push_never_blocks; auto.
  - apply push_all_create; assumption.
  - intros pre suf _. rewrite push_all_create by assumption. eexists; split; [reflexivity|].
    unfold Queue.qsize, lastn, drop, len. cbn [Queue.items]. rewrite length_skipn. lia.
Qed.

(** C1 at the capacity of the code: fifteen pushes into [frame_queue]
    leave the last ten. *)
Lemma C1_witness :
  push_all frame_queue (map (fun b => [b]) (HELLO ++ HELLO ++ HELLO))
  = Some (Queue.mk 10 (map (fun b => [b]) (HELLO ++ HELLO))).
Proof.
  exact (proj1 (proj2 (proj2
           (C1_drop_oldest 10 (map (fun b => [b]) (HELLO ++ HELLO ++ HELLO)) eq_refl)))).
Defined.




(** C3 fails for [stream_server_working_backup.py]: a prefix of
    10,000,001 is taken as any other, and the 10,000,001 bytes that follow
    are pushed as a frame. *)
Lemma C3_counterexample :
  unpack_be32 (pack_be32 10000001) = Some 10000001
  /\ Backup.read_frame frame_queue (mkio 0 [(0, Data (pack_be32 10000001 ++ big_payload))])
     = Pushed big_payload (Queue.mk 10 [big_payload]) (mkio 0 []).
Proof.
  split; [apply unpack_pack; lia|].
  apply (Backup_round_trip 10000001 big_payload
           [(0, pack_be32 10000001 ++ big_payload)] [] 0 frame_queue).
  - apply len_big_payload.
  - lia.
  - reflexivity.
  - unfold payload_of. cbn [map concat snd]. apply app_nil_r.
  - reflexivity.
Qed.

(** C3, amended.  In [stream_server.py], after any number of passes that
    pushed a frame, when the size read returns four bytes that decode to
    more than 10,000,000 the pass ends with [Too_large]: nothing is
    pushed for it and the socket is where the size read left it, no
    further byte read; the read loop ends there with the frames put
    before; and the pass of [receive_frames] that accepted the
    connection closes it, sleeps one second and leaves the queue as
    those frames made it.  A length of at most 10,000,000 never ends a
    pass with [Too_large].  The backup has no such check: no pass of its
    read loop ends with [Too_large], and a message of any length from 1
    to 2^32 - 1 is read and pushed, in whatever partial reads. *)
Theorem C3_oversize_prefix_aborts
        (k : nat) (q : Queue.t) (s : io) (fs : list frame) (q' : Queue.t) (s' s1 : io)
        (size_data : list byte) (frame_size : Z) :
  passes k q s = Some (fs, q', s') ->
  Server.recvall s' 4 = (Return (Some size_data), s1) ->
  unpack_be32 size_data = Some frame_size ->
  (10000000 < frame_size ->
     Server.read_frame q' s' = Ended Too_large q' s1
     /\ Server.serve true q s = mkrun Too_large q' s1 fs
     /\ forall w l conns,
          running (self w) = true -> server_socket (self w) = Some l ->
          listening l = true -> closed l = false ->
          incoming w = Some (pending s) :: conns -> now w = clock s -> buffer w = q ->
          exists w',
            receive_frames_pass w = Some w'
            /\ current_client (self w') = None
            /\ buffer w' = q'
            /\ now w' = clock s1 + 1000
            /\ incoming w' = conns
            /\ effects w' = effects w ++ map Put fs ++ [Close_client; Sleep 1000])
  /\ (frame_size <= 10000000 ->
        forall q2 s2, Server.read_frame q' s' <> Ended Too_large q2 s2)
  /\ (forall qb sb q2 s2, Backup.read_frame qb sb <> Ended Too_large q2 s2)
  /\ (forall N payload cs rest t qb,
        len payload = N -> 1 <= N < 4294967296 ->
        timely cs = true -> payload_of cs = pack_be32 N ++ payload ->
        0 < Queue.maxsize qb -> Queue.qsize qb <= Queue.maxsize qb ->
        exists qb',
          push qb payload = Some qb'
          /\ Backup.read_frame qb (mkio t (chunks cs ++ rest))
             = Pushed payload qb' (mkio (t + delay_of cs) rest)).
Proof.
  intros Hk Hr Hu. pose proof (unpack_some_nonempty _ _ Hu) as Hf.
  split; [|split; [|split]].
  - intros Hbig.
    assert (Hframe : Server.read_frame q' s' = Ended Too_large q' s1).
    { unfold Server.read_frame. rewrite Hr, Hf, Hu.
      replace (10000000 <? frame_size) with true by (symmetry; apply Z.ltb_lt; lia).
      reflexivity. }
    assert (Hserve : Server.serve true q s = mkrun Too_large q' s1 fs).
    { rewrite (Server_serve_passes k q s fs q' s' Hk), Server_serve_step, Hframe.
      cbn [ended queue sock puts]. rewrite app_nil_r. reflexivity. }
    split; [assumption|]. split; [assumption|].
    intros w l conns Hrun Hsock Hlis Hclo Hinc Hnow Hbuf.
    unfold receive_frames_pass. rewrite Hsock. cbn [negb].
    unfold accept. rewrite Hsock, Hlis, Hclo, Hinc. cbn [andb negb].
    cbn [self buffer now port_free incoming effects].
    rewrite Hrun, Hbuf, Hnow. destruct s as [t sc]. cbn [pending clock] in *.
    rewrite Hserve. cbn [ended queue sock puts].
    eexists. split; [reflexivity|].
    unfold cleanup_client, sleep. cbn. rewrite <- !app_assoc. cbn. auto.
  - intros Hok q2 s2 H. unfold Server.read_frame in H. rewrite Hr, Hf, Hu in H.
    replace (10000000 <? frame_size) with false in H by (symmetry; apply Z.ltb_ge; lia).
    destruct (Server.recvall s1 frame_size) as [[v| | |] s3]; try discriminate H.
    destruct (falsy v); [discriminate H|]. destruct (push q' _); discriminate H.
  - intros qb sb q2 s2. apply Backup_read_frame_never_too_large.
  - intros N payload cs rest t qb Hlen HN Hc Hp Hm Hq.
    destruct (push_never_blocks qb payload Hm Hq) as (qb' & Hpush & _).
    exists qb'. split; [assumption|].
    apply (Backup_round_trip N payload cs rest t qb qb'); assumption.
Qed.

(** C3 on [HELLO] followed by a prefix of 10,000,001, and on that prefix
    alone: the three bytes after it stay unread. *)
Lemma C3_witness :
  Server.serve true frame_queue (mkio 0 (chunks (hello_by_bytes 1) ++ oversize))
  = mkrun Too_large (Queue.mk 10 [HELLO]) (mkio 9 [(0, Data [x01; x02; x03])]) [HELLO]
  /\ Server.read_frame frame_queue (mkio 0 oversize)
     = Ended Too_large frame_queue (mkio 0 [(0, Data [x01; x02; x03])]).
Proof.
  split.
  - refine (proj1 (proj2 (proj1 (C3_oversize_prefix_aborts
                      1 frame_queue (mkio 0 (chunks (hello_by_bytes 1) ++ oversize))
                      [HELLO] (Queue.mk 10 [HELLO]) (mkio 9 oversize)
                      (mkio 9 [(0, Data [x01; x02; x03])])
                      [x00; x98; x96; x81] 10000001 _ _ _) _))).
    + vm_compute. reflexivity.
    + vm_compute. reflexivity.
    + reflexivity.
    + lia.
  - refine (proj1 (proj1 (C3_oversize_prefix_aborts
                      0 frame_queue (mkio 0 oversize) [] frame_queue (mkio 0 oversize)
                      (mkio 0 [(0, Data [x01; x02; x03])])
                      [x00; x98; x96; x81] 10000001 _ _ _) _)).
    + reflexivity.
    + vm_compute. reflexivity.
    + reflexivity.
    + lia.
Defined.

(** C4 fails as stated.  On [HELLO] arriving one byte every four seconds
    [stream_server.py] puts nothing and the backup puts [HELLO]; on a
    prefix of 10,000,001 the first ends at the prefix and the second
    reads on through the bytes that follow. *)
Lemma C4_counterexample :
  puts (Server.serve true frame_queue (mkio 0 (chunks (hello_by_bytes 4000))))
  <> puts (Backup.serve frame_queue (mkio 0 (chunks (hello_by_bytes 4000))))
  /\ puts (Server.serve true frame_queue (mkio 0 (chunks (hello_by_bytes 4000)))) = []
  /\ puts (Backup.serve frame_queue (mkio 0 (chunks (hello_by_bytes 4000)))) = [HELLO]
  /\ ended (Server.serve true frame_queue (mkio 0 oversize)) = Too_large
  /\ pending (sock (Server.serve true frame_queue (mkio 0 oversize)))
     = [(0, Data [x01; x02; x03])]
  /\ ended (Backup.serve frame_queue (mkio 0 oversize)) = Lost_reading_frame
  /\ pending (sock (Backup.serve frame_queue (mkio 0 oversize))) = [].
Proof. vm_compute. repeat split; (reflexivity || discriminate). Qed.

(** C4, amended.  On a connection whose reads only return bytes or end
    of file, whenever the read loop of [stream_server.py] ends neither on
    a length above 10,000,000 nor on its ten-second deadline, the read
    loop of the backup does the same: same frames put in the same order,
    same queue, same end of the connection at the same point of the
    stream.  The loop always ends. *)
Theorem C4_same_relay_without_bound_and_deadline (q : Queue.t) (s : io) :
  data_only (pending s) = true ->
  ended (Server.serve true q s) <> Too_large ->
  ended (Server.serve true q s) <> Timed_out ->
  Backup.serve q s = Server.serve true q s
  /\ ended (Server.serve true q s) <> No_fuel.
Proof.
  intros Hd Hl Ht. split.
  - unfold Backup.serve, Server.serve in *. apply read_loop_agree; assumption.
  - apply Server_read_loop_fuel. lia.
Qed.

(** C4 on [HELLO] in nine reads of one byte. *)
Lemma C4_witness :
  Backup.serve frame_queue (mkio 0 (chunks (hello_by_bytes 1)))
  = Server.serve true frame_queue (mkio 0 (chunks (hello_by_bytes 1))).
Proof.
  apply (proj1 (C4_same_relay_without_bound_and_deadline
                  frame_queue (mkio 0 (chunks (hello_by_bytes 1)))
                  eq_refl
                  ltac:(vm_compute; discriminate)
                  ltac:(vm_compute; discriminate))).
Defined.

(** C5 fails as stated: right after construction no producer is
    connected and the boolean of [status] is true. *)
Lemma C5_status_counterexample :
  ~ (snd (status (Some (self (init 5555 true []))) (buffer (init 5555 true []))) = true
     <-> producer_connected (self (init 5555 true [])) = true).
Proof. intros [H _]. specialize (H eq_refl). discriminate H. Qed.

(** C5, amended.  [status] returns the size of the queue and the
    [running] flag of the receiver; it does not depend on
    [current_client]; it is [(0, True)] once the receiver is constructed
    and its boolean is false after [stop]. *)
Theorem C5_status_reports_running (r : StreamReceiver) (q : Queue.t) :
  status (Some r) q = (len (Queue.items q), running r)
  /\ (forall c, status (Some (set_current_client c r)) q = status (Some r) q)
  /\ (forall port free conns,
        status (Some (self (init port free conns))) (buffer (init port free conns))
        = (0, true))
  /\ (forall w, snd (status (Some (self (stop w))) (buffer (stop w))) = false).
Proof.
  repeat split.
  - intros port free conns. unfold init, setup_socket. cbn. destruct free; reflexivity.
  - intros w. unfold stop, cleanup_client. cbn.
    destruct (current_client (self w)); cbn; destruct (server_socket (self w)); reflexivity.
Qed.

(** C6.  For [n > 0], in both files: whatever [recvall] returns as bytes
    has exactly [n] bytes, the first [n] of the connection, and the
    connection goes on after them; the loop never runs out of fuel.  End
    of file before [n] bytes gives [None].  In [stream_server.py], when
    fewer than [n] bytes come in the ten seconds the call raises
    [socket.timeout].  And when [n] bytes do arrive, in whatever partial
    reads, they are returned. *)
Theorem C6_recvall (n : Z) :
  0 < n ->
  (forall s r s', Server.recvall s n = (r, s') ->
     match r with
     | Return (Some d) =>
         len d = n /\ d = take n (bytes_of (pending s))
         /\ bytes_of (pending s') = drop n (bytes_of (pending s))
     | Return None | Raise_timeout | Raise_error => True
     | Out_of_fuel => False
     end)
  /\ (forall s r s', Backup.recvall s n = (r, s') ->
        match r with
        | Return (Some d) =>
            len d = n /\ d = take n (bytes_of (pending s))
            /\ bytes_of (pending s') = drop n (bytes_of (pending s))
        | Return None | Raise_timeout | Raise_error => True
        | Out_of_fuel => False
        end)
  /\ (forall cs t, timely cs = true -> len (payload_of cs) < n -> delay_of cs < 10000 ->
        fst (Server.recvall (mkio t (chunks cs)) n) = Return None)
  /\ (forall cs t, timely cs = true -> len (payload_of cs) < n ->
        fst (Backup.recvall (mkio t (chunks cs)) n) = Return None)
  /\ (forall sc rest t, stalling sc = true -> len (bytes_of sc) < n ->
        10000 <= total_delay sc ->
        fst (Server.recvall (mkio t (sc ++ rest)) n) = Raise_timeout)
  /\ (forall cs rest t, timely cs = true -> n <= len (payload_of cs) ->
        delay_of cs < 10000 ->
        fst (Server.recvall (mkio t (chunks cs ++ rest)) n)
        = Return (Some (take n (payload_of cs))))
  /\ (forall cs rest t, timely cs = true -> n <= len (payload_of cs) ->
        fst (Backup.recvall (mkio t (chunks cs ++ rest)) n)
        = Return (Some (take n (payload_of cs)))).
Proof.
  intros Hn. split; [|split; [|split; [|split; [|split; [|split]]]]].
  - intros s r s' H. unfold Server.recvall in H.
    destruct (Server_recvall_loop_sound _ _ _ _ _ _ _ (Nat.lt_succ_diag_r _) H)
      as (H1 & _ & _ & H4).
    destruct r as [[d|]| | |]; try exact I; [|congruence].
    destruct (H4 d eq_refl) as [_ H5]. change (len (@nil byte)) with 0 in H5.
    rewrite Z.sub_0_r in H5. apply H5. lia.
  - intros s r s' H. unfold Backup.recvall in H.
    destruct (Backup_recvall_loop_sound _ _ _ _ _ _ (Nat.lt_succ_diag_r _) H)
      as (H1 & _ & _ & H4).
    destruct r as [[d|]| | |]; try exact I; [|congruence].
    destruct (H4 d eq_refl) as [_ H5]. change (len (@nil byte)) with 0 in H5.
    rewrite Z.sub_0_r in H5. apply H5. lia.
  - intros cs t Hc Hl Hd. unfold Server.recvall. cbn [pending clock].
    apply Server_recvall_loop_eof; try assumption; change (len (@nil byte)) with 0; lia.
  - intros cs t Hc Hl. unfold Backup.recvall. cbn [pending].
    apply Backup_recvall_loop_eof; try assumption; change (len (@nil byte)) with 0; lia.
  - intros sc rest t Hs Hl Hd. unfold Server.recvall. cbn [pending clock].
    apply Server_recvall_loop_stall; try assumption; change (len (@nil byte)) with 0; lia.
  - intros cs rest t Hc Hl Hd.
    destruct (Server_recvall_delivery n cs rest t Hc) as (cs' & t' & E & _);
      [lia | assumption | rewrite E; reflexivity].
  - intros cs rest t Hc Hl.
    destruct (Backup_recvall_delivery n cs rest t Hc) as (cs' & t' & E & _);
      [lia | rewrite E; reflexivity].
Qed.

(** C6 for [n = 4]: two time-outs of five seconds raise; two bytes then
    end of file give [None]. *)
Lemma C6_witness :
  fst (Server.recvall (mkio 0 [(5000, Timeout); (5000, Timeout)]) 4) = Raise_timeout
  /\ fst (Server.recvall (mkio 0 (chunks [(0, [x00; x00])])) 4) = Return None
  /\ fst (Backup.recvall (mkio 0 (chunks [(0, [x00; x00])])) 4) = Return None.
Proof.
  pose proof (C6_recvall 4 eq_refl) as (_ & _ & H3 & H4 & H5 & _).
  split; [|split].
  - apply (H5 [(5000, Timeout); (5000, Timeout)] [] 0); [reflexivity | reflexivity | discriminate].
  - apply (H3 [(0, [x00; x00])] 0); reflexivity.
  - apply (H4 [(0, [x00; x00])] 0); reflexivity.
Defined.

(** C7.  The guarded pop on an empty queue returns [Nothing] and leaves
    the queue as it is; successive guarded pops return the frames of the
    queue in order, each once, and [Nothing] from then on; with capacity
    3, pushing [A], [B], [C], [D] leaves [B; C; D] and four pops give
    [B], [C], [D], [Nothing]. *)
Theorem C7_try_pop :
  (forall N, try_pop (Queue.mk N []) = Some (Nothing, Queue.mk N []))
  /\ (forall q k,
        try_pops (length (Queue.items q) + k) q
        = Some (map Got (Queue.items q) ++ repeat Nothing k, Queue.mk (Queue.maxsize q) []))
  /\ (forall A B C D : frame,
        push_all (Queue.create 3) [A; B; C; D] = Some (Queue.mk 3 [B; C; D])
        /\ try_pops 4 (Queue.mk 3 [B; C; D])
           = Some ([Got B; Got C; Got D; Nothing], Queue.mk 3 [])).
Proof.
  split; [|split].
  - reflexivity.
  - intros [N l] k. apply try_pops_items.
  - intros A B C D. split; reflexivity.
Qed.

(** C8.  After [stop]: [running] is false, no client is held, the client
    that was held and the listening socket have been closed, the queue is
    untouched; [receive_frames] makes no pass and the read loop no
    iteration; and whatever operations follow, [running] stays false, no
    client is held, the queue is unchanged and no frame is put. *)
Theorem C8_stopped_is_terminal (w : world) :
  running (self (stop w)) = false
  /\ current_client (self (stop w)) = None
  /\ server_socket (self (stop w))
     = match server_socket (self w) with
       | Some _ => Some (mklistener false true)
       | None => None
       end
  /\ effects (stop w)
     = effects w
       ++ match current_client (self w) with Some _ => [Close_client] | None => [] end
       ++ match server_socket (self w) with Some _ => [Close_server] | None => [] end
  /\ buffer (stop w) = buffer w
  /\ (forall passes, receive_frames passes (stop w) = Some (stop w, O))
  /\ (forall fuel q s,
        Server.read_loop (S fuel) (running (self (stop w))) q s = mkrun Not_running q s [])
  /\ (forall os, exists w1,
        perform_all os (stop w) = Some w1
        /\ running (self w1) = false
        /\ current_client (self w1) = None
        /\ buffer w1 = buffer w
        /\ put_effects (effects w1) = put_effects (effects w)).
Proof.
  pose proof (halted_stop w) as Hh. destruct Hh as (Hr & Hc & Hb & He).
  split; [exact Hr|]. split; [exact Hc|].
  split. { unfold stop, cleanup_client. cbn.
           destruct (current_client (self w)); cbn;
             destruct (server_socket (self w)) eqn:Es; cbn; rewrite ?Es; reflexivity. }
  split. { unfold stop, cleanup_client. cbn.
           destruct (current_client (self w)); cbn;
             destruct (server_socket (self w)) eqn:Es; cbn;
             rewrite <- ?app_assoc, ?app_nil_r; reflexivity. }
  split; [exact Hb|].
  split. { intros passes. apply receive_frames_not_running. exact Hr. }
  split. { intros fuel q s. rewrite Hr. reflexivity. }
  intros os. destruct (halted_perform_all w os (stop w) (halted_stop w)) as (w1 & Hp & H1 & H2 & H3 & H4).
  exists w1. auto.
Qed.

(** C9.  The chunk of a frame [f] is the bytes [--frame], CR LF,
    [Content-Type: image/jpeg], CR LF CR LF, the bytes of [f], CR LF, in
    that order.  One pass of the generator on a queue whose oldest frame
    is [f] yields that chunk and pops [f]; on an empty queue it yields
    nothing and sleeps 10 ms; any number of passes can be made; and on a
    queue left alone it yields the chunk of each frame in order, then
    idles. *)
Theorem C9_generate_frames :
  (forall f,
     part f
     = ["-"%byte; "-"%byte; "f"%byte; "r"%byte; "a"%byte; "m"%byte; "e"%byte]
       ++ [x0d; x0a]
       ++ ["C"%byte; "o"%byte; "n"%byte; "t"%byte; "e"%byte; "n"%byte; "t"%byte; "-"%byte;
           "T"%byte; "y"%byte; "p"%byte; "e"%byte; ":"%byte; " "%byte;
           "i"%byte; "m"%byte; "a"%byte; "g"%byte; "e"%byte; "/"%byte;
           "j"%byte; "p"%byte; "e"%byte; "g"%byte]
       ++ [x0d; x0a; x0d; x0a]
       ++ f
       ++ [x0d; x0a])
  /\ (forall N f rest,
        generate_frames_pass (Queue.mk N (f :: rest))
        = Some (Yield (["-"%byte; "-"%byte; "f"%byte; "r"%byte; "a"%byte; "m"%byte; "e"%byte]
                       ++ [x0d; x0a]
                       ++ ["C"%byte; "o"%byte; "n"%byte; "t"%byte; "e"%byte; "n"%byte;
                           "t"%byte; "-"%byte; "T"%byte; "y"%byte; "p"%byte; "e"%byte;
                           ":"%byte; " "%byte; "i"%byte; "m"%byte; "a"%byte; "g"%byte;
                           "e"%byte; "/"%byte; "j"%byte; "p"%byte; "e"%byte; "g"%byte]
                       ++ [x0d; x0a; x0d; x0a]
                       ++ f
                       ++ [x0d; x0a]),
                Queue.mk N rest))
  /\ (forall N, generate_frames_pass (Queue.mk N []) = Some (Idle 10, Queue.mk N []))
  /\ (forall k q, exists acts q', generate_frames k q = Some (acts, q') /\ length acts = k)
  /\ (forall q k,
        generate_frames (length (Queue.items q) + k) q
        = Some (map (fun f => Yield (part f)) (Queue.items q) ++ repeat (Idle 10) k,
                Queue.mk (Queue.maxsize q) [])).
Proof.
  split; [|split; [|split; [|split]]].
  - intros f. reflexivity.
  - intros N f rest. rewrite generate_frames_pass_frame. reflexivity.
  - reflexivity.
  - intros k q. apply generate_frames_total.
  - intros [N l] k. apply generate_frames_items.
Qed.

(** C10.  [recvall] of 0 bytes returns the empty bytearray, which is
    falsy; so on a message whose length prefix is 0, however it arrives,
    the pass of both files ends with [Lost_reading_frame], nothing
    pushed, and the read loop ends there, what follows unread (for
    [stream_server.py], when the prefix comes within ten seconds). *)
Theorem C10_zero_length_frame_is_dropped
        (q : Queue.t) (cs : delivery) (rest : script) (t : Z) :
  timely cs = true -> payload_of cs = pack_be32 0 ->
  (forall s, Server.recvall s 0 = (Return (Some []), s)
             /\ Backup.recvall s 0 = (Return (Some []), s))
  /\ falsy (Some []) = true
  /\ (delay_of cs < 10000 ->
        Server.read_frame q (mkio t (chunks cs ++ rest))
        = Ended Lost_reading_frame q (mkio (t + delay_of cs) rest)
        /\ Server.serve true q (mkio t (chunks cs ++ rest))
           = mkrun Lost_reading_frame q (mkio (t + delay_of cs) rest) [])
  /\ Backup.read_frame q (mkio t (chunks cs ++ rest))
     = Ended Lost_reading_frame q (mkio (t + delay_of cs) rest)
  /\ Backup.serve q (mkio t (chunks cs ++ rest))
     = mkrun Lost_reading_frame q (mkio (t + delay_of cs) rest) [].
Proof.
  intros Hc Hp.
  split; [intros s; split; reflexivity|]. split; [reflexivity|].
  assert (HB : Backup.read_frame q (mkio t (chunks cs ++ rest))
               = Ended Lost_reading_frame q (mkio (t + delay_of cs) rest)).
  { unfold Backup.read_frame.
    destruct (Backup_recvall_delivery 4 cs rest t Hc) as (cs1 & t1 & E1 & Hc1 & Hp1 & Ht1);
      [rewrite Hp, len_pack; lia|].
    rewrite E1, Hp. rewrite Hp in Hp1.
    change (drop 4 (pack_be32 0)) with (@nil byte) in Hp1.
    apply timely_payload_nil in Hp1; [|assumption]. subst cs1.
    change (delay_of []) with 0 in Ht1. replace t1 with (t + delay_of cs) by lia.
    reflexivity. }
  split; [|split].
  - intros Hd.
    assert (HS : Server.read_frame q (mkio t (chunks cs ++ rest))
                 = Ended Lost_reading_frame q (mkio (t + delay_of cs) rest)).
    { unfold Server.read_frame.
      destruct (Server_recvall_delivery 4 cs rest t Hc) as (cs1 & t1 & E1 & Hc1 & Hp1 & Ht1 & _);
        [rewrite Hp, len_pack; lia | assumption |].
      rewrite E1, Hp. rewrite Hp in Hp1.
      change (drop 4 (pack_be32 0)) with (@nil byte) in Hp1.
      apply timely_payload_nil in Hp1; [|assumption]. subst cs1.
      change (delay_of []) with 0 in Ht1. replace t1 with (t + delay_of cs) by lia.
      reflexivity. }
    split; [assumption|]. unfold Server.serve. cbn [Server.read_loop]. rewrite HS. reflexivity.
  - assumption.
  - unfold Backup.serve. cbn [Backup.read_loop]. rewrite HB. reflexivity.
Qed.

(** C10 on the empty message followed by [HELLO]: neither file relays
    anything. *)
Lemma C10_witness :
  Server.serve true frame_queue
    (mkio 0 (chunks [(0, pack_be32 0); (0, pack_be32 5 ++ HELLO)]))
  = mkrun Lost_reading_frame frame_queue (mkio 0 (chunks [(0, pack_be32 5 ++ HELLO)])) []
  /\ Backup.serve frame_queue
       (mkio 0 (chunks [(0, pack_be32 0); (0, pack_be32 5 ++ HELLO)]))
     = mkrun Lost_reading_frame frame_queue (mkio 0 (chunks [(0, pack_be32 5 ++ HELLO)])) [].
Proof.
  pose proof (C10_zero_length_frame_is_dropped frame_queue [(0, pack_be32 0)]
                (chunks [(0, pack_be32 5 ++ HELLO)]) 0 eq_refl eq_refl)
    as (_ & _ & HS & _ & HB).
  split; [apply HS; reflexivity | exact HB].
Defined.

(** * Further properties *)

Lemma byte_val_range b : 0 <= byte_val b <= 255.
Proof.
  unfold byte_val. pose proof (Byte.to_N_bounded b). lia.
Qed.

Lemma byte_of_Z_val z b : z mod 256 = byte_val b -> byte_of_Z z = b.
Proof.
  intros H. unfold byte_of_Z. rewrite H. unfold byte_val.
  rewrite N2Z.id, Byte.of_to_N. reflexivity.
Qed.

Lemma unpack_inv d v :
  unpack_be32 d = Some v -> len d = 4 /\ 0 <= v < 4294967296 /\ pack_be32 v = d.
Proof.
  destruct d as [|b0 [|b1 [|b2 [|b3 [|b4 d]]]]]; try discriminate.
  intros H. inversion H as [Hv]. clear H.
  pose proof (byte_val_range b0). pose proof (byte_val_range b1).
  pose proof (byte_val_range b2). pose proof (byte_val_range b3).
  split; [reflexivity|]. split; [lia|].
  unfold pack_be32.
  rewrite (byte_of_Z_val _ b0), (byte_of_Z_val _ b1), (byte_of_Z_val _ b2), (byte_of_Z_val _ b3);
    [reflexivity | | | |]; Z.div_mod_to_equations; lia.
Qed.

Lemma unpack_len4 d : len d = 4 -> exists v, unpack_be32 d = Some v.
Proof.
  destruct d as [|b0 [|b1 [|b2 [|b3 [|b4 d]]]]]; intros H;
    try (unfold len in H; simpl in H; lia).
  eexists. reflexivity.
Qed.

(** What one pass that pushes has read. *)
Lemma Server_read_frame_pushed q s f q1 s1 :
  Server.read_frame q s = Pushed f q1 s1 ->
  1 <= len f <= 10000000
  /\ bytes_of (pending s) = wire f ++ bytes_of (pending s1)
  /\ push q f = Some q1.
Proof.
  unfold Server.read_frame, Server.recvall. intros H.
  destruct (Server.recvall_loop _ _ 4 [] s) as [r1 s0] eqn:E1.
  destruct (Server_recvall_loop_sound _ _ _ _ _ _ _ (Nat.lt_succ_diag_r _) E1)
    as (_ & _ & _ & H4).
  destruct r1 as [v| | |]; try discriminate H.
  destruct (falsy v) eqn:Hv; [discriminate H|].
  destruct v as [d|]; [|discriminate Hv].
  destruct (H4 d eq_refl) as [_ H5]. change (len (@nil byte)) with 0 in H5.
  destruct (H5 ltac:(lia)) as (Hd4 & Hd & Hb1). rewrite Z.sub_0_r in *. cbn [app] in Hd.
  destruct (unpack_be32 d) as [frame_size|] eqn:Hu; [|discriminate H].
  destruct (unpack_inv _ _ Hu) as (_ & Hrange & Hpack).
  destruct (10000000 <? frame_size) eqn:Hbig; [discriminate H|]. apply Z.ltb_ge in Hbig.
  destruct (Server.recvall_loop _ _ frame_size [] s0) as [r2 s2] eqn:E2.
  destruct (Server_recvall_loop_sound _ _ _ _ _ _ _ (Nat.lt_succ_diag_r _) E2)
    as (_ & _ & _ & G4).
  destruct r2 as [v2| | |]; try discriminate H.
  destruct (falsy v2) eqn:Hv2; [discriminate H|].
  destruct v2 as [d2|]; [|discriminate Hv2]. cbn [falsy] in Hv2.
  destruct (G4 d2 eq_refl) as [_ G5]. change (len (@nil byte)) with 0 in G5.
  destruct (G5 ltac:(lia)) as (Hl2 & Hd2 & Hb2). rewrite Z.sub_0_r in *. cbn [app] in Hd2.
  destruct (push q d2) as [q'|] eqn:Hpush; [|discriminate H].
  injection H as Hf Hq Hs. subst f q1 s1.
  assert (Hne : 0 < len d2) by (apply len_pos, is_empty_false; assumption).
  split; [lia|]. split; [|assumption].
  unfold wire. rewrite Hl2, Hpack, <- app_assoc, Hb2.
  rewrite Hd2 at 1. rewrite take_drop, Hb1. rewrite Hd at 1. rewrite take_drop.
  reflexivity.
Qed.

Lemma Backup_read_frame_pushed q s f q1 s1 :
  Backup.read_frame q s = Pushed f q1 s1 ->
  1 <= len f < 4294967296
  /\ bytes_of (pending s) = wire f ++ bytes_of (pending s1)
  /\ push q f = Some q1.
Proof.
  unfold Backup.read_frame, Backup.recvall. intros H.
  destruct (Backup.recvall_loop _ 4 [] s) as [r1 s0] eqn:E1.
  destruct (Backup_recvall_loop_sound _ _ _ _ _ _ (Nat.lt_succ_diag_r _) E1)
    as (_ & _ & _ & H4).
  destruct r1 as [v| | |]; try discriminate H.
  destruct (falsy v) eqn:Hv; [discriminate H|].
  destruct v as [d|]; [|discriminate Hv].
  destruct (H4 d eq_refl) as [_ H5]. change (len (@nil byte)) with 0 in H5.
  destruct (H5 ltac:(lia)) as (Hd4 & Hd & Hb1). rewrite Z.sub_0_r in *. cbn [app] in Hd.
  destruct (unpack_be32 d) as [frame_size|] eqn:Hu; [|discriminate H].
  destruct (unpack_inv _ _ Hu) as (_ & Hrange & Hpack).
  destruct (Backup.recvall_loop _ frame_size [] s0) as [r2 s2] eqn:E2.
  destruct (Backup_recvall_loop_sound _ _ _ _ _ _ (Nat.lt_succ_diag_r _) E2)
    as (_ & _ & _ & G4).
  destruct r2 as [v2| | |]; try discriminate H.
  destruct (falsy v2) eqn:Hv2; [discriminate H|].
  destruct v2 as [d2|]; [|discriminate Hv2]. cbn [falsy] in Hv2.
  destruct (G4 d2 eq_refl) as [_ G5]. change (len (@nil byte)) with 0 in G5.
  destruct (G5 ltac:(lia)) as (Hl2 & Hd2 & Hb2). rewrite Z.sub_0_r in *. cbn [app] in Hd2.
  destruct (push q d2) as [q'|] eqn:Hpush; [|discriminate H].
  injection H as Hf Hq Hs. subst f q1 s1.
  assert (Hne : 0 < len d2) by (apply len_pos, is_empty_false; assumption).
  split; [lia|]. split; [|assumption].
  unfold wire. rewrite Hl2, Hpack, <- app_assoc, Hb2.
  rewrite Hd2 at 1. rewrite take_drop, Hb1. rewrite Hd at 1. rewrite take_drop.
  reflexivity.
Qed.

(** A pass that ends leaves the queue alone, and never on a bad header. *)
Lemma Server_read_frame_ended q s e q1 s1 :
  Server.read_frame q s = Ended e q1 s1 ->
  e <> Bad_header /\ e <> No_fuel /\ e <> Not_running
  /\ (e = Blocked \/ q1 = q).
Proof.
  unfold Server.read_frame, Server.recvall. intros H.
  destruct (Server.recvall_loop _ _ 4 [] s) as [r1 s0] eqn:E1.
  destruct (Server_recvall_loop_sound _ _ _ _ _ _ _ (Nat.lt_succ_diag_r _) E1)
    as (F1 & _ & _ & H4).
  destruct r1 as [v| | |]; try solve [inversion H; subst; repeat split; (discriminate || (right; reflexivity))];
    [|congruence].
  destruct (falsy v) eqn:Hv; [inversion H; subst; repeat split; (discriminate || (right; reflexivity))|].
  destruct v as [d|]; [|discriminate Hv].
  destruct (H4 d eq_refl) as [_ H5]. change (len (@nil byte)) with 0 in H5.
  destruct (H5 ltac:(lia)) as (Hd4 & _).
  destruct (unpack_len4 d Hd4) as [frame_size Hu]. rewrite Hu in H.
  destruct (10000000 <? frame_size);
    [inversion H; subst; repeat split; (discriminate || (right; reflexivity))|].
  destruct (Server.recvall_loop _ _ frame_size [] s0) as [r2 s2] eqn:E2.
  destruct (Server_recvall_loop_sound _ _ _ _ _ _ _ (Nat.lt_succ_diag_r _) E2)
    as (G1 & _).
  destruct r2 as [v2| | |]; try solve [inversion H; subst; repeat split; (discriminate || (right; reflexivity))];
    [|congruence].
  destruct (falsy v2); [inversion H; subst; repeat split; (discriminate || (right; reflexivity))|].
  destruct (push q _); inversion H; subst; repeat split; (discriminate || (left; reflexivity)).
Qed.

Lemma Backup_read_frame_ended q s e q1 s1 :
  Backup.read_frame q s = Ended e q1 s1 ->
  e <> Bad_header /\ e <> No_fuel /\ e <> Not_running /\ e <> Too_large
  /\ (e = Blocked \/ q1 = q).
Proof.
  unfold Backup.read_frame, Backup.recvall. intros H.
  destruct (Backup.recvall_loop _ 4 [] s) as [r1 s0] eqn:E1.
  destruct (Backup_recvall_loop_sound _ _ _ _ _ _ (Nat.lt_succ_diag_r _) E1)
    as (F1 & _ & _ & H4).
  destruct r1 as [v| | |]; try solve [inversion H; subst; repeat split; (discriminate || (right; reflexivity))];
    [|congruence].
  destruct (falsy v) eqn:Hv; [inversion H; subst; repeat split; (discriminate || (right; reflexivity))|].
  destruct v as [d|]; [|discriminate Hv].
  destruct (H4 d eq_refl) as [_ H5]. change (len (@nil byte)) with 0 in H5.
  destruct (H5 ltac:(lia)) as (Hd4 & _).
  destruct (unpack_len4 d Hd4) as [frame_size Hu]. rewrite Hu in H.
  destruct (Backup.recvall_loop _ frame_size [] s0) as [r2 s2] eqn:E2.
  destruct (Backup_recvall_loop_sound _ _ _ _ _ _ (Nat.lt_succ_diag_r _) E2)
    as (G1 & _).
  destruct r2 as [v2| | |]; try solve [inversion H; subst; repeat split; (discriminate || (right; reflexivity))];
    [|congruence].
  destruct (falsy v2); [inversion H; subst; repeat split; (discriminate || (right; reflexivity))|].
  destruct (push q _); inversion H; subst; repeat split; (discriminate || (left; reflexivity)).
Qed.

(** Induction on the passes of a read loop. *)
Lemma serve_ind (P : io -> Prop) :
  (forall s, (forall s1, (weight (pending s1) < weight (pending s))%nat -> P s1) -> P s) ->
  forall s, P s.
Proof.
  intros H s. remember (weight (pending s)) as n eqn:Hn.
  revert s Hn. induction n as [n IH] using lt_wf_ind. intros s Hn.
  apply H. intros s1 Hlt. apply (IH (weight (pending s1))); [lia | reflexivity].
Qed.

(** ** What a read loop puts is what the stream frames *)

Lemma Server_serve_sound : forall s q,
  (exists tail,
      bytes_of (pending s) = concat (map wire (puts (Server.serve true q s))) ++ tail)
  /\ Forall (fun f => 1 <= len f <= 10000000) (puts (Server.serve true q s)).
Proof.
  induction s as [s IH] using serve_ind. intros q.
  rewrite Server_serve_step.
  pose proof (Server_read_frame_progress q s) as Hp.
  destruct (Server.read_frame q s) as [f q1 s1|e q1 s1] eqn:E.
  - destruct (Server_read_frame_pushed _ _ _ _ _ E) as (Hl & Hb & _).
    destruct (IH s1 Hp q1) as [[tail Ht] Hf].
    cbn [put_first puts map concat]. split.
    + exists tail. rewrite Hb, Ht, <- app_assoc. reflexivity.
    + constructor; assumption.
  - cbn [puts map concat]. split; [exists (bytes_of (pending s)); reflexivity | constructor].
Qed.

Lemma Backup_serve_sound : forall s q,
  (exists tail,
      bytes_of (pending s) = concat (map wire (puts (Backup.serve q s))) ++ tail)
  /\ Forall (fun f => 1 <= len f < 4294967296) (puts (Backup.serve q s)).
Proof.
  induction s as [s IH] using serve_ind. intros q.
  rewrite Backup_serve_step.
  pose proof (Backup_read_frame_progress q s) as Hp.
  destruct (Backup.read_frame q s) as [f q1 s1|e q1 s1] eqn:E.
  - destruct (Backup_read_frame_pushed _ _ _ _ _ E) as (Hl & Hb & _).
    destruct (IH s1 Hp q1) as [[tail Ht] Hf].
    cbn [put_first puts map concat]. split.
    + exists tail. rewrite Hb, Ht, <- app_assoc. reflexivity.
    + constructor; assumption.
  - cbn [puts map concat]. split; [exists (bytes_of (pending s)); reflexivity | constructor].
Qed.

(** X1.  Whatever arrives on a connection, the frames its read loop puts
    are, each behind its four-byte big-endian length, a prefix of the
    bytes that arrive: concatenating [wire f] over the frames put gives
    the first bytes of the connection.  Every frame put has at least one
    byte, and at most 10,000,000 in [stream_server.py], at most 2^32 - 1
    in the backup. *)
Theorem X1_read_loop_puts_only_framed_payloads (q : Queue.t) (s : io) :
  (exists tail,
      bytes_of (pending s) = concat (map wire (puts (Server.serve true q s))) ++ tail)
  /\ Forall (fun f => 1 <= len f <= 10000000) (puts (Server.serve true q s))
  /\ (exists tail,
        bytes_of (pending s) = concat (map wire (puts (Backup.serve q s))) ++ tail)
  /\ Forall (fun f => 1 <= len f < 4294967296) (puts (Backup.serve q s)).
Proof.
  destruct (Server_serve_sound s q) as [H1 H2].
  destruct (Backup_serve_sound s q) as [H3 H4]. auto.
Qed.

(** ** The queue a read loop leaves *)

Lemma bounded_queue_iff q :
  bounded_queue q = true <-> 0 < Queue.maxsize q /\ Queue.qsize q <= Queue.maxsize q.
Proof.
  unfold bounded_queue. rewrite andb_true_iff, Z.ltb_lt, Z.leb_le. tauto.
Qed.

Lemma lastn_all {A} m (l : list A) : len l <= m -> lastn m l = l.
Proof. intros H. unfold lastn. apply drop_nonpos. lia. Qed.

Lemma len_lastn {A} m (l : list A) : 0 <= m <= len l -> len (lastn m l) = m.
Proof. intros H. unfold lastn. rewrite len_drop by lia. lia. Qed.

Lemma lastn_app_lastn {A} N (l xs : list A) :
  0 <= N ->
  lastn (Z.min (len (lastn (Z.min (len l) N) l ++ xs)) N)
        (lastn (Z.min (len l) N) l ++ xs)
  = lastn (Z.min (len (l ++ xs)) N) (l ++ xs).
Proof.
  intros HN. pose proof (len_nonneg l) as Hl. pose proof (len_nonneg xs) as Hx.
  unfold lastn. set (j := len l - Z.min (len l) N).
  assert (Hj : 0 <= j <= len l) by (unfold j; lia).
  rewrite !len_app, (len_drop j l) by lia.
  rewrite <- (drop_app_le j l xs) by lia.
  rewrite <- drop_add by lia. f_equal. unfold j. lia.
Qed.

Lemma push_bounded q x :
  bounded_queue q = true ->
  push q x = Some (Queue.mk (Queue.maxsize q)
                            (lastn (Z.min (len (Queue.items q ++ [x])) (Queue.maxsize q))
                                   (Queue.items q ++ [x]))).
Proof.
  intros Hb. apply bounded_queue_iff in Hb. destruct Hb as [Hpos Hle].
  unfold Queue.qsize in Hle. rewrite len_app. change (len [x]) with 1.
  destruct (Z_lt_le_dec (len (Queue.items q)) (Queue.maxsize q)) as [Hlt|Hge].
  - rewrite push_room by assumption. rewrite lastn_all; [reflexivity|].
    rewrite len_app. change (len [x]) with 1. lia.
  - destruct (Queue.items q) as [|o rest] eqn:Hit.
    + change (len (@nil frame)) with 0 in Hge. lia.
    + rewrite (push_full q x o rest) by (auto; unfold Queue.qsize; rewrite Hit; lia).
      f_equal. f_equal. unfold lastn. rewrite len_app, len_cons in *. change (len [x]) with 1.
      replace (1 + len rest + 1 - Z.min (1 + len rest + 1) (Queue.maxsize q)) with 1 by lia.
      reflexivity.
Qed.

Lemma push_all_bounded xs : forall q,
  bounded_queue q = true ->
  push_all q xs
  = Some (Queue.mk (Queue.maxsize q)
                   (lastn (Z.min (len (Queue.items q ++ xs)) (Queue.maxsize q))
                          (Queue.items q ++ xs))).
Proof.
  induction xs as [|x xs IH]; intros q Hb.
  - cbn [push_all]. rewrite app_nil_r. apply bounded_queue_iff in Hb.
    rewrite lastn_all by (unfold Queue.qsize in Hb; lia). destruct q; reflexivity.
  - cbn [push_all]. rewrite (push_bounded q x Hb).
    pose proof Hb as Hb'. apply bounded_queue_iff in Hb'. destruct Hb' as [Hpos Hle].
    rewrite IH; cbn [Queue.maxsize Queue.items].
    + rewrite lastn_app_lastn by lia. rewrite <- app_assoc. reflexivity.
    + apply bounded_queue_iff. cbn [Queue.maxsize Queue.items]. unfold Queue.qsize.
      cbn [Queue.items]. pose proof (len_nonneg (Queue.items q ++ [x])).
      rewrite len_lastn by lia. lia.
Qed.

Lemma bounded_lastn N {l : list frame} :
  0 < N -> bounded_queue (Queue.mk N (lastn (Z.min (len l) N) l)) = true.
Proof.
  intros HN. apply bounded_queue_iff. unfold Queue.qsize. cbn [Queue.maxsize Queue.items].
  pose proof (len_nonneg l). rewrite len_lastn by lia. lia.
Qed.

Lemma Server_serve_queue : forall s q,
  bounded_queue q = true ->
  ended (Server.serve true q s) <> Blocked
  /\ ended (Server.serve true q s) <> Bad_header
  /\ ended (Server.serve true q s) <> No_fuel
  /\ ended (Server.serve true q s) <> Not_running
  /\ push_all q (puts (Server.serve true q s)) = Some (queue (Server.serve true q s)).
Proof.
  induction s as [s IH] using serve_ind. intros q Hb.
  rewrite Server_serve_step.
  pose proof (Server_read_frame_progress q s) as Hp.
  destruct (Server.read_frame q s) as [f q1 s1|e q1 s1] eqn:E.
  - destruct (Server_read_frame_pushed _ _ _ _ _ E) as (_ & _ & Hpush).
    assert (Hb1 : bounded_queue q1 = true).
    { rewrite (push_bounded q f Hb) in Hpush. inversion Hpush.
      apply bounded_lastn. apply bounded_queue_iff in Hb. tauto. }
    destruct (IH s1 Hp q1 Hb1) as (I1 & I2 & I3 & I4 & I5).
    cbn [put_first ended puts queue push_all]. rewrite Hpush. auto.
  - destruct (Server_read_frame_ended _ _ _ _ _ E) as (H1 & H2 & H3 & H4).
    cbn [ended puts queue push_all].
    assert (Hnb : e <> Blocked).
    { intros ->. unfold Server.read_frame in E.
      destruct (Server.recvall s 4) as [[v| | |] s0]; try discriminate E.
      destruct (falsy v); [discriminate E|].
      destruct (unpack_be32 _); [|discriminate E].
      destruct (10000000 <? z); [discriminate E|].
      destruct (Server.recvall s0 z) as [[v2| | |] s2]; try discriminate E.
      destruct (falsy v2); [discriminate E|].
      rewrite (push_bounded q _ Hb) in E. discriminate E. }
    destruct H4 as [H4|H4]; [contradiction | subst q1]. auto.
Qed.

Lemma Backup_serve_queue : forall s q,
  bounded_queue q = true ->
  ended (Backup.serve q s) <> Blocked
  /\ ended (Backup.serve q s) <> Bad_header
  /\ ended (Backup.serve q s) <> No_fuel
  /\ ended (Backup.serve q s) <> Too_large
  /\ push_all q (puts (Backup.serve q s)) = Some (queue (Backup.serve q s)).
Proof.
  induction s as [s IH] using serve_ind. intros q Hb.
  rewrite Backup_serve_step.
  pose proof (Backup_read_frame_progress q s) as Hp.
  destruct (Backup.read_frame q s) as [f q1 s1|e q1 s1] eqn:E.
  - destruct (Backup_read_frame_pushed _ _ _ _ _ E) as (_ & _ & Hpush).
    assert (Hb1 : bounded_queue q1 = true).
    { rewrite (push_bounded q f Hb) in Hpush. inversion Hpush.
      apply bounded_lastn. apply bounded_queue_iff in Hb. tauto. }
    destruct (IH s1 Hp q1 Hb1) as (I1 & I2 & I3 & I4 & I5).
    cbn [put_first ended puts queue push_all]. rewrite Hpush. auto.
  - destruct (Backup_read_frame_ended _ _ _ _ _ E) as (H1 & H2 & H3 & H3' & H4).
    cbn [ended puts queue push_all].
    assert (Hnb : e <> Blocked).
    { intros ->. unfold Backup.read_frame in E.
      destruct (Backup.recvall s 4) as [[v| | |] s0]; try discriminate E.
      destruct (falsy v); [discriminate E|].
      destruct (unpack_be32 _); [|discriminate E].
      destruct (Backup.recvall s0 z) as [[v2| | |] s2]; try discriminate E.
      destruct (falsy v2); [discriminate E|].
      rewrite (push_bounded q _ Hb) in E. discriminate E. }
    destruct H4 as [H4|H4]; [contradiction | subst q1]. auto.
Qed.

(** X2.  On a queue of positive capacity that holds no more than its
    capacity, the read loop of either file never waits in [put], never
    fails in [struct.unpack] and always comes to an end; the queue it leaves
    holds the last [maxsize] of the old items followed by the frames put
    (all of them when they are fewer), and is again within its
    capacity. *)
Theorem X2_read_loop_never_blocks_and_keeps_last (q : Queue.t) (s : io) :
  bounded_queue q = true ->
  (ended (Server.serve true q s) <> Blocked
   /\ ended (Server.serve true q s) <> Bad_header
   /\ ended (Server.serve true q s) <> No_fuel
   /\ queue (Server.serve true q s)
      = Queue.mk (Queue.maxsize q)
          (lastn (Z.min (len (Queue.items q ++ puts (Server.serve true q s)))
                        (Queue.maxsize q))
                 (Queue.items q ++ puts (Server.serve true q s)))
   /\ bounded_queue (queue (Server.serve true q s)) = true)
  /\ (ended (Backup.serve q s) <> Blocked
      /\ ended (Backup.serve q s) <> Bad_header
      /\ ended (Backup.serve q s) <> No_fuel
      /\ queue (Backup.serve q s)
         = Queue.mk (Queue.maxsize q)
             (lastn (Z.min (len (Queue.items q ++ puts (Backup.serve q s)))
                           (Queue.maxsize q))
                    (Queue.items q ++ puts (Backup.serve q s)))
      /\ bounded_queue (queue (Backup.serve q s)) = true).
Proof.
  intros Hb. pose proof Hb as Hb'. apply bounded_queue_iff in Hb'. destruct Hb' as [Hpos _].
  destruct (Server_serve_queue s q Hb) as (S1 & S2 & S3 & _ & S5).
  destruct (Backup_serve_queue s q Hb) as (B1 & B2 & B3 & _ & B5).
  rewrite push_all_bounded in S5, B5 by assumption.
  inversion S5 as [S6]. inversion B5 as [B6].
  repeat split; auto; rewrite <- ?S6, <- ?B6; try reflexivity; apply bounded_lastn; assumption.
Qed.

(** X2 on a full queue of ten frames and a connection that sends two:
    the two oldest are dropped. *)
Lemma X2_witness :
  ended (Server.serve true (Queue.mk 10 (map (fun b => [b]) (HELLO ++ HELLO)))
           (mkio 0 (chunks [(0, wire HELLO ++ wire [x01])]))) <> Blocked
  /\ queue (Server.serve true (Queue.mk 10 (map (fun b => [b]) (HELLO ++ HELLO)))
              (mkio 0 (chunks [(0, wire HELLO ++ wire [x01])])))
     = Queue.mk 10 (map (fun b => [b]) [x4c; x4c; x4f; x48; x45; x4c; x4c; x4f]
                    ++ [HELLO; [x01]])
  /\ ended (Backup.serve (Queue.mk 10 (map (fun b => [b]) (HELLO ++ HELLO)))
              (mkio 0 (chunks [(0, wire HELLO ++ wire [x01])]))) <> Blocked
  /\ queue (Backup.serve (Queue.mk 10 (map (fun b => [b]) (HELLO ++ HELLO)))
              (mkio 0 (chunks [(0, wire HELLO ++ wire [x01])])))
     = Queue.mk 10 (map (fun b => [b]) [x4c; x4c; x4f; x48; x45; x4c; x4c; x4f]
                    ++ [HELLO; [x01]]).
Proof.
  pose proof (X2_read_loop_never_blocks_and_keeps_last
                (Queue.mk 10 (map (fun b => [b]) (HELLO ++ HELLO)))
                (mkio 0 (chunks [(0, wire HELLO ++ wire [x01])])) eq_refl)
    as [(H1 & _ & _ & H4 & _) (H6 & _ & _ & H9 & _)].
  split; [exact H1|]. split; [rewrite H4; reflexivity|].
  split; [exact H6|]. rewrite H9. reflexivity.
Defined.


(** ** Streams of messages *)

Lemma frames_within_cons hi f fs :
  frames_within hi (f :: fs) = true <-> 1 <= len f <= hi /\ frames_within hi fs = true.
Proof.
  unfold frames_within. cbn [forallb]. rewrite !andb_true_iff, !Z.leb_le. tauto.
Qed.

Lemma len_wire f : len (wire f) = 4 + len f.
Proof. unfold wire. rewrite len_app, len_pack. reflexivity. Qed.

Lemma Server_read_frame_relay payload more cs rest t q q' :
  timely cs = true -> payload_of cs = wire payload ++ more ->
  1 <= len payload <= 10000000 -> delay_of cs < 10000 ->
  push q payload = Some q' ->
  exists cs' t',
    Server.read_frame q (mkio t (chunks cs ++ rest))
    = Pushed payload q' (mkio t' (chunks cs' ++ rest))
    /\ timely cs' = true /\ payload_of cs' = more
    /\ t' + delay_of cs' = t + delay_of cs /\ t <= t'.
Proof.
  intros Hc Hp HN Hd Hpush. unfold Server.read_frame, wire in *.
  pose proof (len_nonneg more) as Hm. rewrite <- app_assoc in Hp.
  destruct (Server_recvall_delivery 4 cs rest t Hc) as (cs1 & t1 & E1 & Hc1 & Hp1 & Ht1 & Hle1);
    [rewrite Hp, !len_app, len_pack; lia | assumption |].
  rewrite E1. rewrite Hp in *.
  rewrite (take_app_le 4 (pack_be32 _)) by (rewrite len_pack; lia).
  rewrite (take_all 4 (pack_be32 _)) by (rewrite len_pack; lia).
  rewrite (drop_app_ge 4 (pack_be32 _)) in Hp1 by (rewrite len_pack; lia).
  rewrite len_pack, drop_nonpos in Hp1 by lia.
  cbn [falsy]. change (is_empty (pack_be32 (len payload))) with false. cbv iota.
  rewrite unpack_pack by lia.
  replace (10000000 <? len payload) with false by (symmetry; apply Z.ltb_ge; lia).
  pose proof (delay_of_nonneg cs1 Hc1) as Hd1.
  destruct (Server_recvall_delivery (len payload) cs1 rest t1 Hc1)
    as (cs2 & t2 & E2 & Hc2 & Hp2 & Ht2 & Hle2);
    [rewrite Hp1, len_app; lia | lia |].
  rewrite E2. rewrite Hp1 in *.
  rewrite (take_app_le _ payload), take_all by lia.
  rewrite (drop_app_ge _ payload), Z.sub_diag, drop_nonpos in Hp2 by lia.
  cbn [falsy]. assert (Hne : is_empty payload = false).
  { apply is_empty_false. intros ->. change (len (@nil byte)) with 0 in HN. lia. }
  rewrite Hne, Hpush. exists cs2, t2. repeat split; (assumption || lia).
Qed.

Lemma Server_serve_eof q t :
  Server.serve true q (mkio t []) = mkrun Lost_reading_size q (mkio t []) [].
Proof. rewrite Server_serve_step, Server_read_frame_eof. reflexivity. Qed.

Lemma Server_serve_burst fs : forall cs q t rest,
  frames_within 10000000 fs = true -> timely cs = true ->
  payload_of cs = concat (map wire fs) -> delay_of cs < 10000 ->
  bounded_queue q = true ->
  exists q', push_all q fs = Some q' /\ bounded_queue q' = true
    /\ Server.serve true q (mkio t (chunks cs ++ rest))
       = fold_right put_first (Server.serve true q' (mkio (t + delay_of cs) rest)) fs.
Proof.
  induction fs as [|f fs IH]; intros cs q t rest Hf Hc Hp Hd Hb.
  - cbn [map concat] in Hp. apply timely_payload_nil in Hp; [|assumption]. subst cs.
    exists q. change (delay_of []) with 0. rewrite Z.add_0_r. auto.
  - apply frames_within_cons in Hf. destruct Hf as [Hl Hf]. cbn [map concat] in Hp.
    pose proof Hb as Hb'. apply bounded_queue_iff in Hb'. destruct Hb' as [Hpos _].
    pose proof (push_bounded q f Hb) as Hpush.
    destruct (Server_read_frame_relay f _ cs rest t q _ Hc Hp Hl Hd Hpush)
      as (cs1 & t1 & E & Hc1 & Hp1 & Ht1 & Hle1).
    pose proof (delay_of_nonneg cs1 Hc1) as Hd1.
    assert (Hd' : delay_of cs1 < 10000) by lia.
    destruct (IH cs1 _ t1 rest Hf Hc1 Hp1 Hd'
                 (@bounded_lastn (Queue.maxsize q) (Queue.items q ++ [f]) Hpos))
      as (q' & Hall & Hb1 & Hs).
    exists q'. cbn [push_all]. rewrite Hpush. split; [assumption|]. split; [assumption|].
    rewrite Server_serve_step, E, Hs. cbn [fold_right].
    replace (t1 + delay_of cs1) with (t + delay_of cs) by lia. reflexivity.
Qed.

Lemma puts_fold_put_first fs r :
  fold_right put_first r fs = mkrun (ended r) (queue r) (sock r) (fs ++ puts r).
Proof.
  induction fs as [|f fs IH]; [destruct r; reflexivity|].
  cbn [fold_right app]. rewrite IH. reflexivity.
Qed.

Lemma push_all_app_some xs ys q q1 q2 :
  push_all q xs = Some q1 -> push_all q1 ys = Some q2 -> push_all q (xs ++ ys) = Some q2.
Proof. intros H1 H2. rewrite push_all_app, H1. exact H2. Qed.

Lemma Server_serve_bursts bs : forall q t,
  bursts_ok bs -> bounded_queue q = true ->
  exists q', push_all q (concat (map fst bs)) = Some q'
    /\ Server.serve true q (mkio t (stream_of bs))
       = mkrun Lost_reading_size q' (mkio (t + duration bs) []) (concat (map fst bs)).
Proof.
  induction bs as [|[fs cs] bs IH]; intros q t Hok Hb.
  - exists q. split; [reflexivity|]. change (duration []) with 0. rewrite Z.add_0_r.
    apply Server_serve_eof.
  - destruct Hok as [(Hf & Hc & Hp & Hd) Hok]. cbn [fst snd] in *.
    destruct (Server_serve_burst fs cs q t (stream_of bs) Hf Hc Hp Hd Hb)
      as (q1 & Hall1 & Hb1 & Hs).
    destruct (IH q1 (t + delay_of cs) Hok Hb1) as (q' & Hall & Hs').
    exists q'. cbn [map concat fst]. split; [eapply push_all_app_some; eauto|].
    change (stream_of ((fs, cs) :: bs)) with (chunks cs ++ stream_of bs).
    rewrite Hs, Hs', puts_fold_put_first. cbn [ended queue sock puts].
    change (duration ((fs, cs) :: bs)) with (delay_of cs + duration bs).
    rewrite Z.add_assoc. reflexivity.
Qed.

(** X3.  [stream_server.py] relays a connection made of bursts, each some
    frames of 1 to 10,000,000 bytes arriving framed in less than ten
    seconds, in whatever partial reads, and then closed.  On a queue
    within its positive capacity the frames are put in order, all of
    them, each pushed into the queue in turn; the loop ends on
    [Connection lost while reading size] with everything sent read, and
    the clock has advanced by the delays. *)
Theorem X3_bursts_are_relayed_in_order (bs : list burst) (q : Queue.t) (t : Z) :
  bursts_ok bs -> bounded_queue q = true ->
  exists q',
    push_all q (concat (map fst bs)) = Some q'
    /\ Server.serve true q (mkio t (stream_of bs))
       = mkrun Lost_reading_size q' (mkio (t + duration bs) []) (concat (map fst bs)).
Proof. intros Hok Hb. apply Server_serve_bursts; assumption. Qed.

(** X3 on [HELLO] in nine reads of one byte, then two more [HELLO] in one
    read half a second later. *)
Lemma X3_witness :
  exists q',
    push_all frame_queue [HELLO; HELLO; HELLO] = Some q'
    /\ Server.serve true frame_queue
         (mkio 0 (stream_of [([HELLO], hello_by_bytes 1);
                             ([HELLO; HELLO], [(500, wire HELLO ++ wire HELLO)])]))
       = mkrun Lost_reading_size q' (mkio 509 []) [HELLO; HELLO; HELLO].
Proof.
  apply (X3_bursts_are_relayed_in_order
           [([HELLO], hello_by_bytes 1); ([HELLO; HELLO], [(500, wire HELLO ++ wire HELLO)])]
           frame_queue 0).
  - repeat split; vm_compute; reflexivity.
  - reflexivity.
Defined.

Lemma Backup_read_frame_relay payload more cs rest t q q' :
  timely cs = true -> payload_of cs = wire payload ++ more ->
  1 <= len payload < 4294967296 ->
  push q payload = Some q' ->
  exists cs' t',
    Backup.read_frame q (mkio t (chunks cs ++ rest))
    = Pushed payload q' (mkio t' (chunks cs' ++ rest))
    /\ timely cs' = true /\ payload_of cs' = more
    /\ t' + delay_of cs' = t + delay_of cs.
Proof.
  intros Hc Hp HN Hpush. unfold Backup.read_frame, wire in *.
  pose proof (len_nonneg more) as Hm. rewrite <- app_assoc in Hp.
  destruct (Backup_recvall_delivery 4 cs rest t Hc) as (cs1 & t1 & E1 & Hc1 & Hp1 & Ht1);
    [rewrite Hp, !len_app, len_pack; lia|].
  rewrite E1. rewrite Hp in *.
  rewrite (take_app_le 4 (pack_be32 _)) by (rewrite len_pack; lia).
  rewrite (take_all 4 (pack_be32 _)) by (rewrite len_pack; lia).
  rewrite (drop_app_ge 4 (pack_be32 _)) in Hp1 by (rewrite len_pack; lia).
  rewrite len_pack, drop_nonpos in Hp1 by lia.
  cbn [falsy]. change (is_empty (pack_be32 (len payload))) with false. cbv iota.
  rewrite unpack_pack by lia.
  destruct (Backup_recvall_delivery (len payload) cs1 rest t1 Hc1)
    as (cs2 & t2 & E2 & Hc2 & Hp2 & Ht2);
    [rewrite Hp1, len_app; lia|].
  rewrite E2. rewrite Hp1 in *.
  rewrite (take_app_le _ payload), take_all by lia.
  rewrite (drop_app_ge _ payload), Z.sub_diag, drop_nonpos in Hp2 by lia.
  cbn [falsy]. assert (Hne : is_empty payload = false).
  { apply is_empty_false. intros ->. change (len (@nil byte)) with 0 in HN. lia. }
  rewrite Hne, Hpush. exists cs2, t2. repeat split; (assumption || lia).
Qed.

Lemma Backup_serve_eof q t :
  Backup.serve q (mkio t []) = mkrun Lost_reading_size q (mkio t []) [].
Proof. reflexivity. Qed.

Lemma Backup_serve_stream fs : forall cs q t,
  frames_within 4294967295 fs = true -> timely cs = true ->
  payload_of cs = concat (map wire fs) ->
  bounded_queue q = true ->
  exists q', push_all q fs = Some q'
    /\ Backup.serve q (mkio t (chunks cs))
       = mkrun Lost_reading_size q' (mkio (t + delay_of cs) []) fs.
Proof.
  induction fs as [|f fs IH]; intros cs q t Hf Hc Hp Hb.
  - cbn [map concat] in Hp. apply timely_payload_nil in Hp; [|assumption]. subst cs.
    exists q. change (delay_of []) with 0. rewrite Z.add_0_r.
    split; [reflexivity | apply Backup_serve_eof].
  - apply frames_within_cons in Hf. destruct Hf as [Hl Hf]. cbn [map concat] in Hp.
    pose proof Hb as Hb'. apply bounded_queue_iff in Hb'. destruct Hb' as [Hpos _].
    pose proof (push_bounded q f Hb) as Hpush.
    destruct (Backup_read_frame_relay f _ cs [] t q _ Hc Hp ltac:(lia) Hpush)
      as (cs1 & t1 & E & Hc1 & Hp1 & Ht1).
    rewrite !app_nil_r in E.
    destruct (IH cs1 _ t1 Hf Hc1 Hp1
                 (@bounded_lastn (Queue.maxsize q) (Queue.items q ++ [f]) Hpos))
      as (q' & Hall & Hs).
    exists q'. cbn [push_all]. rewrite Hpush. split; [assumption|].
    rewrite Backup_serve_step, E, Hs. cbn [put_first ended queue sock puts].
    replace (t1 + delay_of cs1) with (t + delay_of cs) by lia. reflexivity.
Qed.

(** X4.  The backup relays any framed stream of frames of 1 to 2^32 - 1
    bytes, in whatever partial reads and however slowly it arrives: on
    a queue within its positive capacity the frames are put in order,
    each pushed into the queue in turn, the loop ends at the end of
    file with everything read, and the clock has advanced by the
    delays. *)
Theorem X4_backup_relays_any_stream
        (fs : list frame) (cs : delivery) (q : Queue.t) (t : Z) :
  frames_within 4294967295 fs = true -> timely cs = true ->
  payload_of cs = concat (map wire fs) ->
  bounded_queue q = true ->
  exists q',
    push_all q fs = Some q'
    /\ Backup.serve q (mkio t (chunks cs))
       = mkrun Lost_reading_size q' (mkio (t + delay_of cs) []) fs.
Proof. intros. apply Backup_serve_stream; assumption. Qed.

(** X4 on [HELLO] arriving one byte every four seconds. *)
Lemma X4_witness :
  exists q',
    push_all frame_queue [HELLO] = Some q'
    /\ Backup.serve frame_queue (mkio 0 (chunks (hello_by_bytes 4000)))
       = mkrun Lost_reading_size q' (mkio 36000 []) [HELLO].
Proof.
  apply (X4_backup_relays_any_stream [HELLO] (hello_by_bytes 4000) frame_queue 0);
    reflexivity.
Defined.


(** ** How long [recvall] lasts *)

Lemma prompt_cons d ev sc :
  prompt ((d, ev) :: sc) = true <-> 0 <= d <= 5000 /\ prompt sc = true.
Proof.
  unfold prompt. cbn [forallb fst]. rewrite !andb_true_iff, !Z.leb_le. tauto.
Qed.

Lemma recv_prompt s k r s1 :
  prompt (pending s) = true -> recv s k = (r, s1) ->
  prompt (pending s1) = true /\ clock s <= clock s1 <= clock s + 5000.
Proof.
  intros Hp Hr. unfold recv in Hr. destruct (pending s) as [|[d ev] rest] eqn:Hs.
  - inversion Hr; subst. rewrite Hs. split; [reflexivity | lia].
  - apply prompt_cons in Hp. destruct Hp as [Hd Hp].
    destruct ev; [destruct (k <? len bs)|..]; inversion Hr; subst; cbn [pending clock];
      (split; [|lia]); try assumption.
Qed.

Lemma Server_recvall_loop_lasts fuel : forall start n data s r s',
  prompt (pending s) = true ->
  Server.recvall_loop fuel start n data s = (r, s') ->
  prompt (pending s') = true
  /\ clock s <= clock s'
  /\ (clock s' = clock s \/ clock s' - start < 15000).
Proof.
  induction fuel as [|fuel IH]; intros start n data s r s' Hp H.
  { inversion H; subst. repeat split; auto; lia. }
  cbn [Server.recvall_loop] in H.
  destruct ((len data <? n) && (clock s - start <? 10000)) eqn:Hc.
  - apply andb_true_iff in Hc. destruct Hc as [_ Ht]. apply Z.ltb_lt in Ht.
    destruct (recv s (Z.min (n - len data) 8192)) as [rr s1] eqn:Hrecv.
    destruct (recv_prompt _ _ _ _ Hp Hrecv) as [Hp1 Hc1].
    assert (Hdone : prompt (pending s1) = true /\ clock s <= clock s1
                    /\ (clock s1 = clock s \/ clock s1 - start < 15000))
      by (repeat split; auto; lia).
    assert (Hnext : forall d, Server.recvall_loop fuel start n d s1 = (r, s') ->
              prompt (pending s') = true /\ clock s <= clock s'
              /\ (clock s' = clock s \/ clock s' - start < 15000)).
    { intros d Hd. destruct (IH _ _ _ _ _ _ Hp1 Hd) as (I1 & I2 & I3).
      repeat split; auto; lia. }
    destruct rr as [p| |[|]].
    + destruct (is_empty p); [inversion H; subst; exact Hdone | eapply Hnext; eauto].
    + eapply Hnext; eauto.
    + eapply Hnext; eauto.
    + inversion H; subst; exact Hdone.
  - destruct (len data <? n); inversion H; subst; repeat split; auto; lia.
Qed.

Lemma Server_recvall_lasts s n r s' :
  prompt (pending s) = true -> Server.recvall s n = (r, s') ->
  prompt (pending s') = true /\ clock s <= clock s' < clock s + 15000.
Proof.
  intros Hp H. unfold Server.recvall in H.
  destruct (Server_recvall_loop_lasts _ _ _ _ _ _ _ Hp H) as (H1 & H2 & H3).
  split; [assumption|]. lia.
Qed.

(** X5.  With [settimeout(5)], so that no [recv] lasts more than five
    seconds, a call of [recvall] of [stream_server.py] returns or raises
    less than 15 seconds after it started, and a pass of the read loop
    (a size, then a frame) ends less than 30 seconds after it
    started. *)
Theorem X5_recvall_and_pass_are_time_bounded (s : io) :
  prompt (pending s) = true ->
  (forall n, clock s <= clock (snd (Server.recvall s n)) < clock s + 15000)
  /\ (forall q, clock s <= clock (left_by (Server.read_frame q s)) < clock s + 30000).
Proof.
  intros Hp. split.
  - intros n. destruct (Server.recvall s n) as [r s'] eqn:E.
    apply (Server_recvall_lasts _ _ _ _ Hp E).
  - intros q. unfold Server.read_frame.
    destruct (Server.recvall s 4) as [r1 s1] eqn:E1.
    destruct (Server_recvall_lasts _ _ _ _ Hp E1) as [Hp1 Hc1].
    destruct r1 as [v| | |]; cbn [left_by]; try lia.
    destruct (falsy v); cbn [left_by]; try lia.
    destruct (unpack_be32 _) as [frame_size|]; cbn [left_by]; try lia.
    destruct (10000000 <? frame_size); cbn [left_by]; try lia.
    destruct (Server.recvall s1 frame_size) as [r2 s2] eqn:E2.
    destruct (Server_recvall_lasts _ _ _ _ Hp1 E2) as [Hp2 Hc2].
    destruct r2 as [v2| | |]; cbn [left_by]; try lia.
    destruct (falsy v2); cbn [left_by]; try lia.
    destruct (push q _); cbn [left_by]; lia.
Qed.

(** X5 on three time-outs of five seconds. *)
Lemma X5_witness :
  0 <= clock (snd (Server.recvall
                     (mkio 0 [(5000, Timeout); (5000, Timeout); (5000, Timeout)]) 4))
  < 15000
  /\ 0 <= clock (left_by (Server.read_frame
                            frame_queue
                            (mkio 0 [(5000, Timeout); (5000, Timeout); (5000, Timeout)])))
     < 30000.
Proof.
  destruct (X5_recvall_and_pass_are_time_bounded
              (mkio 0 [(5000, Timeout); (5000, Timeout); (5000, Timeout)]) eq_refl)
    as [H1 H2].
  split; [apply (H1 4) | apply (H2 frame_queue)].
Defined.

(** ** Time-outs and interrupted calls inside [recvall] *)

Lemma total_delay_nonneg sc : stalling sc = true -> 0 <= total_delay sc.
Proof.
  induction sc as [|[d ev] sc IH]; intros H; [cbn; lia|].
  apply stalling_cons in H. destruct H as (Hd & _ & Hs). specialize (IH Hs).
  unfold total_delay in *. cbn [map fold_right fst]. lia.
Qed.

Lemma bytes_of_app sc1 sc2 : bytes_of (sc1 ++ sc2) = bytes_of sc1 ++ bytes_of sc2.
Proof.
  induction sc1 as [|[d ev] sc1 IH]; [reflexivity|].
  destruct ev; cbn [app bytes_of]; rewrite IH; [apply app_assoc | reflexivity..].
Qed.

Lemma Server_recvall_loop_tolerant fuel : forall start n data sc rest t,
  stalling sc = true -> n - len data <= len (bytes_of sc) ->
  (t - start) + total_delay sc < 10000 ->
  (weight (sc ++ rest) < fuel)%nat ->
  exists d s',
    Server.recvall_loop fuel start n data (mkio t (sc ++ rest)) = (Return (Some d), s').
Proof.
  induction fuel as [|fuel IH]; intros start n data sc rest t Hs Hn Ht Hw; [lia|].
  pose proof (total_delay_nonneg sc Hs) as Hd0.
  cbn [Server.recvall_loop clock].
  destruct (len data <? n) eqn:Hlt; [|cbn [andb]; eauto].
  apply Z.ltb_lt in Hlt.
  replace (t - start <? 10000) with true by (symmetry; apply Z.ltb_lt; lia).
  cbn [andb].
  destruct sc as [|[d ev] sc].
  { change (bytes_of []) with (@nil byte) in Hn. change (len (@nil byte)) with 0 in Hn. lia. }
  apply stalling_cons in Hs. destruct Hs as (Hd & Hev & Hs).
  pose proof (total_delay_nonneg sc Hs) as Hd1.
  change (total_delay ((d, ev) :: sc)) with (d + total_delay sc) in *.
  cbn [app] in *. unfold recv. cbn [pending clock].
  destruct ev as [bs| | |]; cbn [bytes_of weight] in *; [|..|contradiction].
  - rewrite len_app in Hn. pose proof (len_pos bs Hev) as Hbl.
    set (k := Z.min (n - len data) 8192).
    assert (Hk : 1 <= k <= n - len data) by (unfold k; lia). clearbody k.
    destruct (k <? len bs) eqn:Hkb.
    + apply Z.ltb_lt in Hkb. rewrite take_ne by (assumption || lia).
      pose proof (weight_take_drop k bs ltac:(lia)).
      apply (IH start n (data ++ take k bs) ((0, Data (drop k bs)) :: sc) rest (t + d)).
      * apply stalling_cons. repeat split; [lia | apply drop_ne; lia | assumption].
      * cbn [bytes_of]. rewrite !len_app, len_take, len_drop by lia. lia.
      * change (total_delay ((0, Data (drop k bs)) :: sc)) with (0 + total_delay sc). lia.
      * cbn [app weight]. lia.
    + apply Z.ltb_ge in Hkb. rewrite (proj2 (is_empty_false bs) Hev).
      apply (IH start n (data ++ bs) sc rest (t + d)); try assumption.
      * rewrite len_app. lia.
      * lia.
      * lia.
  - apply (IH start n data sc rest (t + d)); try assumption; lia.
  - apply (IH start n data sc rest (t + d)); try assumption; lia.
Qed.

Lemma Backup_recvall_loop_raises fuel : forall n data cs d ev rest t,
  timely cs = true -> len data + len (payload_of cs) < n ->
  (forall bs, ev <> Data bs) ->
  (weight (chunks cs ++ (d, ev) :: rest) < fuel)%nat ->
  Backup.recvall_loop fuel n data (mkio t (chunks cs ++ (d, ev) :: rest))
  = (match ev with Timeout => Raise_timeout | _ => Raise_error end,
     mkio (t + delay_of cs + d) rest).
Proof.
  induction fuel as [|fuel IH]; intros n data cs d ev rest t Hc Hn Hev Hw; [lia|].
  pose proof (len_nonneg (payload_of cs)) as Hp0.
  destruct cs as [|[d0 bs] cs].
  - change (delay_of []) with 0. rewrite Z.add_0_r. cbn [chunks map app].
    cbn [Backup.recvall_loop].
    replace (len data <? n) with true by (symmetry; apply Z.ltb_lt; lia).
    destruct ev; [exfalso; eapply Hev; reflexivity|..]; reflexivity.
  - apply timely_cons in Hc. destruct Hc as (Hd & Hbs & Hc).
    pose proof (len_pos bs Hbs) as Hbl. pose proof (len_nonneg (payload_of cs)) as Hp1.
    rewrite payload_of_cons, delay_of_cons, len_app in *. rewrite chunks_cons in *.
    cbn [Backup.recvall_loop].
    replace (len data <? n) with true by (symmetry; apply Z.ltb_lt; lia).
    unfold recv. cbn [pending clock].
    replace (n - len data <? len bs) with false by (symmetry; apply Z.ltb_ge; lia).
    rewrite (proj2 (is_empty_false bs) Hbs). cbn [weight] in Hw.
    rewrite (IH n (data ++ bs) cs d ev rest (t + d0) Hc).
    + rewrite !Z.add_assoc. reflexivity.
    + rewrite len_app. lia.
    + assumption.
    + lia.
Qed.

(** X6.  For [n > 0]: in [stream_server.py] time-outs and interrupted
    calls inside [recvall] are retried, and the call returns the first
    [n] bytes when they arrive with less than ten seconds of delay in
    all; the [recvall] of the backup has no handler, and the first
    time-out or interrupted call before [n] bytes are there leaves it as
    [socket.timeout], respectively [socket.error], with the bytes read
    so far lost. *)
Theorem X6_timeouts_inside_recvall (n : Z) :
  0 < n ->
  (forall sc rest t,
      stalling sc = true -> n <= len (bytes_of sc) -> total_delay sc < 10000 ->
      fst (Server.recvall (mkio t (sc ++ rest)) n) = Return (Some (take n (bytes_of sc))))
  /\ (forall cs d rest t,
        timely cs = true -> len (payload_of cs) < n ->
        Backup.recvall (mkio t (chunks cs ++ (d, Timeout) :: rest)) n
        = (Raise_timeout, mkio (t + delay_of cs + d) rest)
        /\ Backup.recvall (mkio t (chunks cs ++ (d, Eintr) :: rest)) n
           = (Raise_error, mkio (t + delay_of cs + d) rest)).
Proof.
  intros Hn. split.
  - intros sc rest t Hs Hl Hd.
    destruct (Server_recvall_loop_tolerant (S (weight (sc ++ rest))) t n [] sc rest t)
      as (d & s' & E); try assumption; change (len (@nil byte)) with 0; try lia.
    unfold Server.recvall. cbn [pending clock]. rewrite E. cbn [fst].
    destruct (Server_recvall_loop_sound _ _ _ _ _ _ _ (Nat.lt_succ_diag_r _) E)
      as (_ & _ & _ & H4).
    destruct (H4 d eq_refl) as [_ H5]. change (len (@nil byte)) with 0 in H5.
    destruct (H5 ltac:(lia)) as (_ & Hd' & _). cbn [pending app] in Hd'.
    rewrite Z.sub_0_r, bytes_of_app, take_app_le in Hd' by lia. rewrite Hd'. reflexivity.
  - intros cs d rest t Hc Hl. unfold Backup.recvall. cbn [pending]. split.
    + rewrite (Backup_recvall_loop_raises _ n [] cs d Timeout rest t);
        [reflexivity | assumption | change (len (@nil byte)) with 0; lia | discriminate | lia].
    + rewrite (Backup_recvall_loop_raises _ n [] cs d Eintr rest t);
        [reflexivity | assumption | change (len (@nil byte)) with 0; lia | discriminate | lia].
Qed.

(** X6 for [n = 4]: a time-out before the header in [stream_server.py];
    two bytes and a time-out in the backup. *)
Lemma X6_witness :
  fst (Server.recvall (mkio 0 [(5000, Timeout); (4000, Data (pack_be32 5))]) 4)
  = Return (Some (pack_be32 5))
  /\ Backup.recvall (mkio 0 [(0, Data [x00; x00]); (5000, Timeout)]) 4
     = (Raise_timeout, mkio 5000 []).
Proof.
  pose proof (X6_timeouts_inside_recvall 4 eq_refl) as [H1 H2].
  split.
  - apply (H1 [(5000, Timeout); (4000, Data (pack_be32 5))] [] 0);
      [reflexivity | vm_compute; discriminate | reflexivity].
  - apply (H2 [(0, [x00; x00])] 5000 [] 0); reflexivity.
Defined.


(** ** A pass of [receive_frames] *)

Lemma ready_iff w :
  ready w = true <->
  running (self w) = true
  /\ (exists l, server_socket (self w) = Some l /\ listening l = true /\ closed l = false)
  /\ current_client (self w) = None.
Proof.
  unfold ready. rewrite !andb_true_iff. split.
  - intros [[Hr Hs] Hc]. split; [assumption|]. split.
    + destruct (server_socket (self w)) as [l|]; [|discriminate Hs].
      apply andb_true_iff in Hs. destruct Hs as [Hl Hcl]. apply negb_true_iff in Hcl. eauto.
    + destruct (current_client (self w)); [discriminate Hc | reflexivity].
  - intros (Hr & (l & Hs & Hl & Hcl) & Hc). rewrite Hs, Hl, Hcl, Hc. auto.
Qed.

Lemma set_current_client_None r c :
  current_client r = None ->
  set_current_client None (set_current_client c r) = r.
Proof. destruct r as [p b l cc]. cbn. intros ->. reflexivity. Qed.

Lemma receive_frames_pass_connection w sc conns :
  ready w = true -> bounded_queue (buffer w) = true ->
  incoming w = Some sc :: conns ->
  receive_frames_pass w
  = Some (after_connection w (Server.serve true (buffer w) (mkio (now w) sc)) conns).
Proof.
  intros Hr Hb Hi. apply ready_iff in Hr. destruct Hr as (Hrun & (l & Hs & Hl & Hcl) & Hc).
  unfold receive_frames_pass. rewrite Hs. cbn [negb].
  unfold accept. rewrite Hs, Hl, Hcl, Hi. cbn [andb negb].
  cbn [self buffer now port_free incoming effects]. rewrite Hrun.
  destruct (Server_serve_queue (mkio (now w) sc) (buffer w) Hb) as (H1 & _ & H3 & H4 & _).
  set (r := Server.serve true (buffer w) (mkio (now w) sc)) in *.
  unfold after_connection.
  destruct (ended r) eqn:He; try congruence;
    unfold cleanup_client, sleep, with_self, with_effects;
    cbn [self buffer now port_free incoming effects current_client set_current_client];
    rewrite <- !app_assoc; cbn [app];
    change (mkreceiver (bind_port (self w)) (running (self w))
                       (server_socket (self w)) None)
      with (set_current_client None (set_current_client (Some (sock r)) (self w)));
    rewrite (set_current_client_None _ _ Hc); reflexivity.
Qed.

Lemma receive_frames_pass_no_connection w :
  ready w = true ->
  (forall conns, incoming w = None :: conns ->
     receive_frames_pass w
     = Some (mkworld (self w) (buffer w) (now w + 1000) (port_free w) conns
                     (effects w ++ [Sleep 1000])))
  /\ (incoming w = [] ->
      receive_frames_pass w
      = Some (mkworld (self w) (buffer w) (now w + 30000 + 1000) (port_free w) []
                      (effects w ++ [Sleep 1000]))).
Proof.
  intros Hr. apply ready_iff in Hr. destruct Hr as (Hrun & (l & Hs & Hl & Hcl) & Hc).
  split; [intros conns Hi | intros Hi];
    unfold receive_frames_pass; rewrite Hs; cbn [negb];
    unfold accept; rewrite Hs, Hl, Hcl, Hi; cbn [andb negb];
    unfold cleanup_client, sleep;
    cbn [self buffer now port_free incoming effects]; rewrite Hc;
    cbn [self buffer now port_free incoming effects]; rewrite Hc; reflexivity.
Qed.

(** X7.  A pass of [receive_frames] of [stream_server.py] by a receiver
    that runs, listens and holds no client, its queue within its
    positive capacity, with a producer connecting:
    the connection is served by the read loop, the frames are put, the
    client is closed and the loop sleeps one second, whatever ended the
    connection; the receiver is then again running, listening and
    without client, and the queue again within its capacity. *)
Theorem X7_a_pass_serves_one_connection
        (w : world) (sc : script) (conns : list (option script)) :
  ready w = true -> bounded_queue (buffer w) = true ->
  incoming w = Some sc :: conns ->
  receive_frames_pass w
  = Some (after_connection w (Server.serve true (buffer w) (mkio (now w) sc)) conns)
  /\ ready (after_connection w (Server.serve true (buffer w) (mkio (now w) sc)) conns) = true
  /\ bounded_queue
       (buffer (after_connection w (Server.serve true (buffer w) (mkio (now w) sc)) conns))
     = true.
Proof.
  intros Hr Hb Hi. split; [apply receive_frames_pass_connection; assumption|].
  split; [exact Hr|].
  unfold after_connection. cbn [buffer].
  destruct (Server_serve_queue (mkio (now w) sc) (buffer w) Hb) as (_ & _ & _ & _ & H5).
  rewrite push_all_bounded in H5 by assumption. inversion H5 as [H6].
  apply bounded_lastn. apply bounded_queue_iff in Hb. tauto.
Qed.

(** X7 on the receiver as constructed, [HELLO] arriving in nine reads. *)
Lemma X7_witness :
  receive_frames_pass (init 5555 true [Some (chunks (hello_by_bytes 1)); None])
  = Some (after_connection
            (init 5555 true [Some (chunks (hello_by_bytes 1)); None])
            (Server.serve true frame_queue (mkio 0 (chunks (hello_by_bytes 1))))
            [None]).
Proof.
  apply (X7_a_pass_serves_one_connection
           (init 5555 true [Some (chunks (hello_by_bytes 1)); None])
           (chunks (hello_by_bytes 1)) [None]); reflexivity.
Defined.


(** ** One producer after another *)

Lemma put_effects_map_Put fs : put_effects (map Put fs) = fs.
Proof. induction fs as [|f fs IH]; [reflexivity|]. cbn. rewrite IH. reflexivity. Qed.

Lemma push_all_keeps_bounded fs q q' :
  bounded_queue q = true -> push_all q fs = Some q' -> bounded_queue q' = true.
Proof.
  intros Hb H. rewrite push_all_bounded in H by assumption. inversion H.
  apply bounded_lastn. apply bounded_queue_iff in Hb. tauto.
Qed.

Lemma receive_frames_connections cs : forall w later,
  connections_ok cs -> ready w = true -> bounded_queue (buffer w) = true ->
  incoming w = map (fun bs => Some (stream_of bs)) cs ++ later ->
  exists w',
    receive_frames (length cs) w = Some (w', length cs)
    /\ ready w' = true
    /\ incoming w' = later
    /\ push_all (buffer w) (frames_of cs) = Some (buffer w')
    /\ put_effects (effects w') = put_effects (effects w) ++ frames_of cs
    /\ now w' = now w + serving_time cs.
Proof.
  induction cs as [|bs cs IH]; intros w later Hok Hr Hb Hi.
  - exists w. cbn [map app] in Hi.
    change (frames_of []) with (@nil frame). change (serving_time []) with 0.
    rewrite app_nil_r, Z.add_0_r. repeat split; auto.
  - destruct Hok as [Hbs Hok]. cbn [map app] in Hi.
    destruct (Server_serve_bursts bs (buffer w) (now w) Hbs Hb) as (q1 & Hall & Hs).
    pose proof (receive_frames_pass_connection w _ _ Hr Hb Hi) as Hpass.
    rewrite Hs in Hpass.
    set (w1 := after_connection w _ _) in Hpass.
    destruct (IH w1 later Hok Hr (push_all_keeps_bounded _ _ _ Hb Hall) eq_refl)
      as (w' & Hrf & Hr' & Hi' & Hall' & He' & Hn').
    exists w'. cbn [length receive_frames].
    apply ready_iff in Hr. destruct Hr as (Hrun & _). rewrite Hrun, Hpass, Hrf.
    split; [reflexivity|]. split; [assumption|]. split; [assumption|].
    unfold frames_of, serving_time in *. cbn [map concat fold_right].
    split; [eapply push_all_app_some; eauto|]. split.
    + rewrite He'. unfold w1, after_connection. cbn [effects puts].
      rewrite !put_effects_app, put_effects_map_Put. cbn [put_effects].
      rewrite app_nil_r, <- app_assoc. reflexivity.
    + rewrite Hn'. unfold w1, after_connection. cbn [now sock clock]. lia.
Qed.

(** X8.  After a connection that ends in any way (a bad length, a
    time-out, an error, an end of file), the producers that connect next
    are served.  For a receiver that runs, listens and holds no client,
    its queue within its positive capacity, and connections made of
    bursts following the first one,
    [receive_frames] makes one pass for each, puts the frames of the
    first connection and then all the frames of the following ones in
    order, and ends running, listening and without client. *)
Theorem X8_delivery_resumes_after_any_connection
        (w : world) (sc : script) (cs : list (list burst)) (later : list (option script)) :
  ready w = true -> bounded_queue (buffer w) = true -> connections_ok cs ->
  incoming w = Some sc :: map (fun bs => Some (stream_of bs)) cs ++ later ->
  exists w',
    receive_frames (S (length cs)) w = Some (w', S (length cs))
    /\ ready w' = true
    /\ incoming w' = later
    /\ put_effects (effects w')
       = put_effects (effects w)
         ++ puts (Server.serve true (buffer w) (mkio (now w) sc)) ++ frames_of cs
    /\ push_all (buffer w)
                (puts (Server.serve true (buffer w) (mkio (now w) sc)) ++ frames_of cs)
       = Some (buffer w').
Proof.
  intros Hr Hb Hok Hi.
  pose proof (receive_frames_pass_connection w _ _ Hr Hb Hi) as Hpass.
  destruct (Server_serve_queue (mkio (now w) sc) (buffer w) Hb) as (_ & _ & _ & _ & H5).
  set (r := Server.serve true (buffer w) (mkio (now w) sc)) in *.
  set (w1 := after_connection w r _) in Hpass.
  destruct (receive_frames_connections cs w1 later Hok Hr
              (push_all_keeps_bounded _ _ _ Hb H5) eq_refl)
    as (w' & Hrf & Hr' & Hi' & Hall' & He' & _).
  exists w'. cbn [receive_frames].
  apply ready_iff in Hr. destruct Hr as (Hrun & _). rewrite Hrun, Hpass, Hrf.
  split; [reflexivity|]. split; [assumption|]. split; [assumption|]. split.
  - rewrite He'. unfold w1, after_connection. cbn [effects].
    rewrite !put_effects_app, put_effects_map_Put. cbn [put_effects].
    rewrite app_nil_r, <- app_assoc. reflexivity.
  - eapply push_all_app_some; eauto.
Qed.

(** X8 on a connection that ends on a length of 10,000,001, followed by
    one that sends [HELLO]. *)
Lemma X8_witness :
  exists w',
    receive_frames 2 (init 5555 true [Some oversize;
                                      Some (stream_of [([HELLO], hello_by_bytes 1)])])
    = Some (w', 2%nat)
    /\ ready w' = true
    /\ put_effects (effects w') = [HELLO]
    /\ buffer w' = Queue.mk 10 [HELLO].
Proof.
  destruct (X8_delivery_resumes_after_any_connection
              (init 5555 true [Some oversize; Some (stream_of [([HELLO], hello_by_bytes 1)])])
              oversize [[([HELLO], hello_by_bytes 1)]] [])
    as (w' & H1 & H2 & _ & H4 & H5).
  - reflexivity.
  - reflexivity.
  - repeat split; vm_compute; reflexivity.
  - reflexivity.
  - exists w'. repeat split; [exact H1 | exact H2 | exact H4 |].
    assert (E : Some (Queue.mk 10 [HELLO]) = Some (buffer w')) by exact H5.
    inversion E. reflexivity.
Defined.

(** ** A failed bind *)

Lemma receive_frames_pass_not_listening w l :
  server_socket (self w) = Some l -> listening l = false ->
  current_client (self w) = None ->
  receive_frames_pass w = Some (sleep 1000 w).
Proof.
  intros Hs Hl Hc. unfold receive_frames_pass. rewrite Hs. cbn [negb].
  unfold accept. rewrite Hs, Hl. cbn [andb].
  unfold cleanup_client. rewrite Hc. unfold sleep. cbn [self]. rewrite Hc.
  reflexivity.
Qed.

Lemma receive_frames_not_listening k : forall w l,
  running (self w) = true ->
  server_socket (self w) = Some l -> listening l = false ->
  current_client (self w) = None ->
  receive_frames k w
  = Some (mkworld (self w) (buffer w) (now w + 1000 * Z.of_nat k) (port_free w)
                  (incoming w) (effects w ++ repeat (Sleep 1000) k), k).
Proof.
  induction k as [|k IH]; intros w l Hr Hs Hl Hc.
  - cbn [receive_frames repeat]. rewrite app_nil_r, Z.mul_0_r, Z.add_0_r.
    destruct w; reflexivity.
  - cbn [receive_frames]. rewrite Hr, (receive_frames_pass_not_listening w l Hs Hl Hc).
    rewrite (IH (sleep 1000 w) l); try assumption.
    unfold sleep. cbn [self buffer now port_free incoming effects repeat].
    rewrite <- app_assoc. cbn [app]. do 3 f_equal. lia.
Qed.

Lemma cleanup_client_server_socket w :
  server_socket (self (cleanup_client w)) = server_socket (self w).
Proof. unfold cleanup_client. destruct (current_client (self w)); reflexivity. Qed.

Lemma receive_frames_pass_server_socket w w' l :
  server_socket (self w) = Some l -> receive_frames_pass w = Some w' ->
  server_socket (self w') = Some l.
Proof.
  intros Hs H. unfold receive_frames_pass in H. rewrite Hs in H. cbn [negb] in H.
  destruct (accept w) as [[c|] w2] eqn:Ha.
  - assert (Hs2 : server_socket (self w2) = Some l).
    { unfold accept in Ha. rewrite Hs in Ha.
      destruct (listening l && negb (closed l)); [|discriminate Ha].
      destruct (incoming w) as [|[sc|] rest]; inversion Ha; subst; exact Hs. }
    destruct (ended _) in H; inversion H; subst;
      rewrite ?cleanup_client_server_socket; cbn [sleep self];
      rewrite ?cleanup_client_server_socket; exact Hs2.
  - assert (Hs2 : server_socket (self w2) = Some l).
    { unfold accept in Ha. rewrite Hs in Ha.
      destruct (listening l && negb (closed l)); [|inversion Ha; subst; exact Hs].
      destruct (incoming w) as [|[sc|] rest]; inversion Ha; subst; exact Hs. }
    inversion H; subst. rewrite cleanup_client_server_socket. cbn [sleep self].
    rewrite cleanup_client_server_socket. exact Hs2.
Qed.

Lemma receive_frames_server_socket k : forall w w' n,
  server_socket (self w) <> None -> receive_frames k w = Some (w', n) ->
  server_socket (self w') <> None.
Proof.
  induction k as [|k IH]; intros w w' n Hs H.
  - inversion H; subst. exact Hs.
  - cbn [receive_frames] in H. destruct (running (self w)); [|inversion H; subst; exact Hs].
    destruct (receive_frames_pass w) as [w1|] eqn:Hp; [|discriminate H].
    destruct (receive_frames k w1) as [[w2 m]|] eqn:Hr; [|discriminate H].
    inversion H; subst. apply (IH w1 w' m); [|assumption].
    destruct (server_socket (self w)) as [l|] eqn:E; [|congruence].
    rewrite (receive_frames_pass_server_socket w w1 l E Hp). discriminate.
Qed.

Lemma perform_server_socket o w w' :
  server_socket (self w) <> None -> perform o w = Some w' ->
  server_socket (self w') <> None.
Proof.
  intros Hs H. destruct o as [| |k|]; cbn [perform] in H.
  - inversion H; subst. unfold setup_socket.
    destruct (server_socket (self w)); cbn; destruct (port_free w); cbn; discriminate.
  - inversion H; subst. rewrite cleanup_client_server_socket. exact Hs.
  - destruct (receive_frames k w) as [[w1 n]|] eqn:E; [|discriminate H].
    inversion H; subst. eapply receive_frames_server_socket; eauto.
  - inversion H; subst. unfold stop.
    destruct (server_socket (self (cleanup_client _))) eqn:E; cbn; [discriminate|].
    rewrite cleanup_client_server_socket in E. cbn in E. congruence.
Qed.

Lemma perform_all_server_socket os : forall w w',
  server_socket (self w) <> None -> perform_all os w = Some w' ->
  server_socket (self w') <> None.
Proof.
  induction os as [|o os IH]; intros w w' Hs H.
  - inversion H; subst. exact Hs.
  - cbn [perform_all] in H. destruct (perform o w) as [w1|] eqn:E; [|discriminate H].
    eapply IH; [|eassumption]. eapply perform_server_socket; eauto.
Qed.

(** X9.  A [bind] that fails is never retried.  [setup_socket] stores
    the new socket before [bind], so after a failing [bind] the receiver
    holds a socket that does not listen; [receive_frames] then sleeps
    one second in every pass, for ever, whoever connects.  And whatever
    is done after construction, [server_socket] is never [None] again:
    the call of [setup_socket] in [receive_frames] is not reached. *)
Theorem X9_a_failed_bind_is_never_retried
        (w : world) (l : listener) (k : nat) :
  running (self w) = true -> server_socket (self w) = Some l ->
  listening l = false -> current_client (self w) = None ->
  receive_frames k w
  = Some (mkworld (self w) (buffer w) (now w + 1000 * Z.of_nat k) (port_free w)
                  (incoming w) (effects w ++ repeat (Sleep 1000) k), k)
  /\ (forall port conns,
        self (init port false conns)
        = mkreceiver port true (Some (mklistener false false)) None)
  /\ (forall port free conns os w',
        perform_all os (init port free conns) = Some w' ->
        server_socket (self w') <> None).
Proof.
  intros Hr Hs Hl Hc. split; [|split].
  - apply (receive_frames_not_listening k w l); assumption.
  - reflexivity.
  - intros port free conns os w' H. eapply perform_all_server_socket; [|eassumption].
    unfold init, setup_socket. cbn. destruct free; cbn; discriminate.
Qed.

(** X9 on port 5555 taken, a producer trying to connect: three passes,
    three seconds asleep. *)
Lemma X9_witness :
  receive_frames 3 (init 5555 false [Some (chunks (hello_by_bytes 1))])
  = Some (mkworld (mkreceiver 5555 true (Some (mklistener false false)) None)
                  frame_queue 8000 false [Some (chunks (hello_by_bytes 1))]
                  [Sleep 5000; Sleep 1000; Sleep 1000; Sleep 1000], 3%nat).
Proof.
  apply (proj1 (X9_a_failed_bind_is_never_retried
                  (init 5555 false [Some (chunks (hello_by_bytes 1))])
                  (mklistener false false) 3 eq_refl eq_refl eq_refl eq_refl)).
Defined.

(** ** Stopping twice *)

(** X10.  [cleanup_client] and [stop] may be called twice: a second
    [cleanup_client] changes nothing, and a second [stop] leaves the
    receiver, the queue and the frames put as the first did. *)
Theorem X10_stop_and_cleanup_are_idempotent (w : world) :
  cleanup_client (cleanup_client w) = cleanup_client w
  /\ self (stop (stop w)) = self (stop w)
  /\ buffer (stop (stop w)) = buffer (stop w)
  /\ put_effects (effects (stop (stop w))) = put_effects (effects (stop w)).
Proof.
  split; [|split; [|split]].
  - unfold cleanup_client. destruct (current_client (self w)) eqn:E; cbn; [reflexivity|].
    rewrite E. reflexivity.
  - unfold stop, cleanup_client. cbn.
    destruct (current_client (self w)) eqn:E; cbn;
      destruct (server_socket (self w)) eqn:E'; cbn; rewrite ?E, ?E'; cbn; rewrite ?E';
      reflexivity.
  - unfold stop, cleanup_client. cbn.
    destruct (current_client (self w)) eqn:E; cbn;
      destruct (server_socket (self w)) eqn:E'; cbn; rewrite ?E, ?E'; cbn; rewrite ?E';
      reflexivity.
  - unfold stop, cleanup_client. cbn.
    destruct (current_client (self w)) eqn:E; cbn;
      destruct (server_socket (self w)) eqn:E'; cbn; rewrite ?E, ?E'; cbn; rewrite ?E';
      cbn; rewrite ?put_effects_app; cbn; rewrite ?app_nil_r; reflexivity.
Qed.


(** ** The backup, one producer after another *)

Lemma Backup_pass_connection w sc rest :
  bounded_queue (BackupReceiver.buffer w) = true ->
  BackupReceiver.incoming w = Some sc :: rest ->
  BackupReceiver.receive_frames_pass w
  = Some (BackupReceiver.mkworld
            (queue (Backup.serve (BackupReceiver.buffer w) (mkio (BackupReceiver.now w) sc)))
            (clock (sock (Backup.serve (BackupReceiver.buffer w)
                                       (mkio (BackupReceiver.now w) sc))))
            rest
            (BackupReceiver.effects w
             ++ map Put (puts (Backup.serve (BackupReceiver.buffer w)
                                            (mkio (BackupReceiver.now w) sc)))
             ++ [Close_client])).
Proof.
  intros Hb Hi. unfold BackupReceiver.receive_frames_pass. rewrite Hi.
  destruct (Backup_serve_queue (mkio (BackupReceiver.now w) sc) _ Hb)
    as (H1 & H2 & H3 & _).
  cbv zeta. destruct (ended _); congruence.
Qed.

Lemma Backup_receive_frames_producers ps : forall w later,
  producers_ok ps -> bounded_queue (BackupReceiver.buffer w) = true ->
  BackupReceiver.incoming w = map (fun p => Some (chunks (snd p))) ps ++ later ->
  exists w',
    BackupReceiver.receive_frames (length ps) w = Some w'
    /\ BackupReceiver.incoming w' = later
    /\ push_all (BackupReceiver.buffer w) (concat (map fst ps))
       = Some (BackupReceiver.buffer w')
    /\ put_effects (BackupReceiver.effects w')
       = put_effects (BackupReceiver.effects w) ++ concat (map fst ps)
    /\ BackupReceiver.now w'
       = BackupReceiver.now w + fold_right Z.add 0 (map (fun p => delay_of (snd p)) ps).
Proof.
  induction ps as [|[fs cs] ps IH]; intros w later Hok Hb Hi.
  - exists w. cbn [map app concat fold_right length BackupReceiver.receive_frames] in *.
    rewrite app_nil_r, Z.add_0_r. auto.
  - destruct Hok as [(Hf & Hc & Hp) Hok]. cbn [fst snd map app] in *.
    destruct (Backup_serve_stream fs cs (BackupReceiver.buffer w) (BackupReceiver.now w)
                Hf Hc Hp Hb) as (q1 & Hall & Hs).
    pose proof (Backup_pass_connection w _ _ Hb Hi) as Hpass. rewrite Hs in Hpass.
    cbn [queue sock clock puts] in Hpass.
    set (w1 := BackupReceiver.mkworld _ _ _ _) in Hpass.
    destruct (IH w1 later Hok (push_all_keeps_bounded _ _ _ Hb Hall) eq_refl)
      as (w' & Hrf & Hi' & Hall' & He' & Hn').
    exists w'. cbn [length BackupReceiver.receive_frames]. rewrite Hpass.
    split; [assumption|]. split; [assumption|]. cbn [concat fold_right].
    split; [eapply push_all_app_some; eauto|]. split.
    + rewrite He'. unfold w1. cbn [BackupReceiver.effects].
      rewrite !put_effects_app, put_effects_map_Put. cbn [put_effects].
      rewrite app_nil_r, <- app_assoc. reflexivity.
    + rewrite Hn'. unfold w1. cbn [BackupReceiver.now]. lia.
Qed.

(** X11.  The backup serves producers one after the other without a
    pause: with producers that each send framed frames of 1 to 2^32 - 1
    bytes and close, and a queue within its positive capacity,
    [receive_frames] makes one pass for each, puts all
    the frames in order, and the clock advances by the delays of the
    streams only; no [time.sleep] is reached. *)
Theorem X11_backup_serves_producers_without_pause
        (w : BackupReceiver.world) (ps : list producer) (later : list (option script)) :
  producers_ok ps -> bounded_queue (BackupReceiver.buffer w) = true ->
  BackupReceiver.incoming w = map (fun p => Some (chunks (snd p))) ps ++ later ->
  exists w',
    BackupReceiver.receive_frames (length ps) w = Some w'
    /\ BackupReceiver.incoming w' = later
    /\ push_all (BackupReceiver.buffer w) (concat (map fst ps))
       = Some (BackupReceiver.buffer w')
    /\ put_effects (BackupReceiver.effects w')
       = put_effects (BackupReceiver.effects w) ++ concat (map fst ps)
    /\ BackupReceiver.now w'
       = BackupReceiver.now w + fold_right Z.add 0 (map (fun p => delay_of (snd p)) ps).
Proof. intros. apply Backup_receive_frames_producers; assumption. Qed.

(** X11 on two producers sending [HELLO], the first one byte every four
    seconds. *)
Lemma X11_witness :
  exists w',
    BackupReceiver.receive_frames 2
      (BackupReceiver.mkworld frame_queue 0
         [Some (chunks (hello_by_bytes 4000)); Some (chunks (hello_by_bytes 1))] [])
    = Some w'
    /\ BackupReceiver.buffer w' = Queue.mk 10 [HELLO; HELLO]
    /\ BackupReceiver.now w' = 36009.
Proof.
  destruct (X11_backup_serves_producers_without_pause
              (BackupReceiver.mkworld frame_queue 0
                 [Some (chunks (hello_by_bytes 4000)); Some (chunks (hello_by_bytes 1))] [])
              [([HELLO], hello_by_bytes 4000); ([HELLO], hello_by_bytes 1)] [])
    as (w' & H1 & _ & H3 & _ & H5).
  - repeat split; vm_compute; reflexivity.
  - reflexivity.
  - reflexivity.
  - exists w'. repeat split; [exact H1 | | exact H5].
    assert (E : Some (Queue.mk 10 [HELLO; HELLO]) = Some (BackupReceiver.buffer w'))
      by exact H3.
    inversion E. reflexivity.
Defined.

(** ** Subsequences *)

Lemma subseq_nil_l {A} (l : list A) : subseq [] l.
Proof. induction l; [apply subseq_nil | apply subseq_skip; assumption]. Qed.

Lemma subseq_refl {A} (l : list A) : subseq l l.
Proof. induction l; [apply subseq_nil | apply subseq_keep; assumption]. Qed.

Lemma subseq_app {A} (a b c d : list A) :
  subseq a b -> subseq c d -> subseq (a ++ c) (b ++ d).
Proof.
  intros H Hc. induction H as [|x l1 l2 H IH|x l1 l2 H IH]; cbn [app].
  - exact Hc.
  - apply subseq_skip. exact IH.
  - apply subseq_keep. exact IH.
Qed.

Lemma subseq_trans {A} (l2 : list A) : forall l1 l3,
  subseq l1 l2 -> subseq l2 l3 -> subseq l1 l3.
Proof.
  intros l1 l3 H12 H23. revert l1 H12.
  induction H23 as [|x l2 l3 H IH|x l2 l3 H IH]; intros l1 H12.
  - exact H12.
  - apply subseq_skip. apply IH. exact H12.
  - inversion H12; subst.
    + apply subseq_skip. apply IH. assumption.
    + apply subseq_keep. apply IH. assumption.
Qed.

Lemma subseq_remove {A} (a : list A) x b : subseq (a ++ b) (a ++ x :: b).
Proof.
  apply subseq_app; [apply subseq_refl | apply subseq_skip, subseq_refl].
Qed.

Lemma subseq_prefix {A} (a b : list A) : subseq a (a ++ b).
Proof.
  rewrite <- (app_nil_r a) at 1. apply subseq_app; [apply subseq_refl | apply subseq_nil_l].
Qed.

(** ** Interleavings *)

Lemma put_in_app h1 h2 : Threads.put_in (h1 ++ h2) = Threads.put_in h1 ++ Threads.put_in h2.
Proof.
  induction h1 as [|e h1 IH]; [reflexivity|]. destruct e; cbn; rewrite IH; reflexivity.
Qed.

Lemma yielded_in_app h1 h2 :
  Threads.yielded_in (h1 ++ h2) = Threads.yielded_in h1 ++ Threads.yielded_in h2.
Proof.
  induction h1 as [|e h1 IH]; [reflexivity|]. destruct e; cbn; rewrite IH; reflexivity.
Qed.

Lemma yielded_to_subseq c h : subseq (Threads.yielded_to c h) (Threads.yielded_in h).
Proof.
  induction h as [|e h IH]; [apply subseq_nil|]. destruct e; cbn; try assumption.
  destruct (Nat.eqb client c); [apply subseq_keep | apply subseq_skip]; assumption.
Qed.

Lemma kept_step N frames th st : kept N frames st -> kept N frames (Threads.step th st).
Proof.
  intros (Hs & Hf & Hm & Hq). destruct st as [q pc cs h].
  cbn [Threads.shared Threads.receiver Threads.consumers Threads.history] in *.
  destruct th as [|i];
    cbn [Threads.step Threads.shared Threads.receiver Threads.consumers Threads.history].
  - destruct pc as [[|f todo]|f todo|f todo].
    + repeat split; assumption.
    + destruct (Queue.full q); repeat split; assumption.
    + unfold Queue.get. destruct q as [N' items]. cbn [Queue.items Queue.maxsize] in *.
      destruct items as [|x r]; [repeat split; assumption|].
      unfold kept. cbn [Threads.shared Threads.receiver Threads.history Queue.items
                        Queue.maxsize Threads.in_hand].
      rewrite put_in_app, yielded_in_app. cbn [Threads.put_in Threads.yielded_in].
      rewrite !app_nil_r. repeat split.
      * eapply subseq_trans; [apply subseq_remove | exact Hs].
      * assumption.
      * assumption.
      * intros HN. specialize (Hq HN). unfold Queue.qsize in *. cbn [Queue.items] in *.
        rewrite len_cons in Hq. lia.
    + unfold Queue.put. destruct q as [N' items]. cbn [Queue.items Queue.maxsize] in *.
      destruct ((0 <? N') && (N' <=? Queue.qsize (Queue.mk N' items))) eqn:Hfull;
        [repeat split; assumption|].
      unfold kept. cbn [Threads.shared Threads.receiver Threads.history Queue.items
                        Queue.maxsize Threads.in_hand].
      rewrite put_in_app, yielded_in_app. cbn [Threads.put_in Threads.yielded_in].
      rewrite !app_nil_r. repeat split.
      * rewrite app_assoc. apply subseq_app; [exact Hs | apply subseq_refl].
      * rewrite <- app_assoc. exact Hf.
      * assumption.
      * intros HN. apply andb_false_iff in Hfull. unfold Queue.qsize in *.
        cbn [Queue.items] in *. rewrite len_app. change (len [f]) with 1.
        destruct Hfull as [H|H]; [apply Z.ltb_ge in H | apply Z.leb_gt in H]; lia.
  - destruct (nth_error cs i) as [[|]|]; [| |repeat split; assumption].
    + destruct (negb (Queue.empty q)); repeat split; assumption.
    + unfold Queue.get. destruct q as [N' items]. cbn [Queue.items Queue.maxsize] in *.
      destruct items as [|x r]; [repeat split; assumption|].
      unfold kept. cbn [Threads.shared Threads.receiver Threads.history Queue.items
                        Queue.maxsize Threads.in_hand].
      rewrite put_in_app, yielded_in_app. cbn [Threads.put_in Threads.yielded_in].
      rewrite !app_nil_r. repeat split.
      * rewrite <- app_assoc. exact Hs.
      * assumption.
      * assumption.
      * intros HN. specialize (Hq HN). unfold Queue.qsize in *. cbn [Queue.items] in *.
        rewrite len_cons in Hq. lia.
Qed.

Lemma kept_run N frames schedule : forall st,
  kept N frames st -> kept N frames (Threads.run schedule st).
Proof.
  induction schedule as [|th schedule IH]; intros st H; [exact H|].
  cbn [Threads.run]. apply IH, kept_step, H.
Qed.

Lemma kept_start N frames clients : kept N frames (Threads.start N frames clients).
Proof.
  unfold kept, Threads.start. cbn. repeat split; [apply subseq_nil | lia].
Qed.

(** X12.  With the receiver thread and any number of generators
    interleaved in any order between their queue calls: the frames the
    generators yield, taken together and for each client, are in the
    order they were put, each at most once and none that was not put;
    the frames put are a prefix of the frames received; and the queue
    never holds more than its capacity. *)
Theorem X12_generators_yield_a_subsequence_of_the_puts
        (N : Z) (frames : list frame) (clients : nat) (schedule : list Threads.thread) :
  subseq (Threads.yielded_in
            (Threads.history (Threads.run schedule (Threads.start N frames clients))))
         (Threads.put_in
            (Threads.history (Threads.run schedule (Threads.start N frames clients))))
  /\ (forall c,
        subseq (Threads.yielded_to c
                  (Threads.history (Threads.run schedule (Threads.start N frames clients))))
               (Threads.put_in
                  (Threads.history (Threads.run schedule (Threads.start N frames clients)))))
  /\ (exists rest,
        frames
        = Threads.put_in
            (Threads.history (Threads.run schedule (Threads.start N frames clients)))
          ++ rest)
  /\ (0 < N ->
      Queue.qsize (Threads.shared (Threads.run schedule (Threads.start N frames clients)))
      <= N).
Proof.
  pose proof (kept_run N frames schedule _ (kept_start N frames clients))
    as (Hs & Hf & Hm & Hq).
  set (st := Threads.run schedule (Threads.start N frames clients)) in *.
  assert (Hy : subseq (Threads.yielded_in (Threads.history st))
                      (Threads.put_in (Threads.history st))).
  { eapply subseq_trans; [apply subseq_prefix | exact Hs]. }
  split; [exact Hy|]. split; [|split].
  - intros c. eapply subseq_trans; [apply yielded_to_subseq | exact Hy].
  - eexists. exact Hf.
  - exact Hq.
Qed.

(** ** The receiver waiting for ever *)

Lemma run_app s1 : forall s2 st,
  Threads.run (s1 ++ s2) st = Threads.run s2 (Threads.run s1 st).
Proof. induction s1 as [|th s1 IH]; intros s2 st; [reflexivity | apply IH]. Qed.

Lemma step_stuck th st f todo :
  Threads.receiver st = Threads.At_get f todo -> Queue.items (Threads.shared st) = [] ->
  Threads.step th st = st.
Proof.
  intros Hr Hq. destruct st as [[N items] pc cs h].
  cbn [Threads.receiver Threads.shared Queue.items] in *. subst pc items.
  destruct th as [|i]; cbn [Threads.step Threads.receiver Threads.shared Threads.consumers];
    [reflexivity|].
  destruct (nth_error cs i) as [[|]|]; reflexivity.
Qed.

Lemma run_stuck schedule : forall st f todo,
  Threads.receiver st = Threads.At_get f todo -> Queue.items (Threads.shared st) = [] ->
  Threads.run schedule st = st.
Proof.
  induction schedule as [|th schedule IH]; intros st f todo Hr Hq; [reflexivity|].
  cbn [Threads.run]. rewrite (step_stuck th st f todo Hr Hq). eapply IH; eauto.
Qed.

Lemma run_fill fs : forall N items todo cs h,
  len items + len fs <= N ->
  Threads.run (repeat Threads.Receiver (2 * length fs))
              (Threads.mkstate (Queue.mk N items) (Threads.At_full (fs ++ todo)) cs h)
  = Threads.mkstate (Queue.mk N (items ++ fs)) (Threads.At_full todo) cs
                    (h ++ map Threads.Was_put fs).
Proof.
  induction fs as [|f fs IH]; intros N items todo cs h Hl.
  - cbn. rewrite !app_nil_r. reflexivity.
  - rewrite len_cons in Hl. pose proof (len_nonneg fs). pose proof (len_nonneg items).
    replace (2 * length (f :: fs))%nat with (S (S (2 * length fs))) by (cbn [length]; lia).
    cbn [repeat Threads.run app]. unfold Threads.step at 2.
    cbn [Threads.receiver Threads.shared Threads.consumers Threads.history].
    unfold Queue.full, Queue.qsize. cbn [Queue.items Queue.maxsize].
    replace (N <=? len items) with false by (symmetry; apply Z.leb_gt; lia).
    rewrite andb_false_r. unfold Threads.step at 1.
    cbn [Threads.receiver Threads.shared Threads.consumers Threads.history].
    unfold Queue.put, Queue.qsize. cbn [Queue.items Queue.maxsize].
    replace (N <=? len items) with false by (symmetry; apply Z.leb_gt; lia).
    rewrite andb_false_r. rewrite IH by (rewrite len_app; change (len [f]) with 1; lia).
    rewrite <- !app_assoc. reflexivity.
Qed.

Lemma run_drain xs : forall N pc cs h,
  Threads.run (repeat (Threads.Consumer 0) (2 * length xs))
              (Threads.mkstate (Queue.mk N xs) pc (Threads.At_empty :: cs) h)
  = Threads.mkstate (Queue.mk N []) pc (Threads.At_empty :: cs)
                    (h ++ map (Threads.Was_yielded 0) xs).
Proof.
  induction xs as [|x xs IH]; intros N pc cs h.
  - cbn. rewrite app_nil_r. reflexivity.
  - replace (2 * length (x :: xs))%nat with (S (S (2 * length xs))) by (cbn [length]; lia).
    cbn [repeat Threads.run]. unfold Threads.step at 2.
    cbn [Threads.receiver Threads.shared Threads.consumers Threads.history nth_error].
    unfold Queue.empty, Queue.qsize. cbn [Queue.items]. rewrite len_cons.
    pose proof (len_nonneg xs).
    replace (1 + len xs =? 0) with false by (symmetry; apply Z.eqb_neq; lia).
    cbn [negb Threads.set_nth]. unfold Threads.step at 1.
    cbn [Threads.receiver Threads.shared Threads.consumers Threads.history nth_error
         Queue.get Queue.items Queue.maxsize Threads.set_nth].
    rewrite IH, <- app_assoc. reflexivity.
Qed.

(** X13.  The push [if full(): get()] is not atomic: when the receiver
    finds the queue full and a generator empties it before the
    receiver's [get()], that [get()] waits on an empty queue, and as
    only the receiver puts, no later step of any thread changes
    anything: the receiver thread waits for ever, with the frame in
    hand never put. *)
Theorem X13_receiver_can_wait_for_ever
        (N : Z) (fs : list frame) (f : frame) (todo : list frame) (clients : nat) :
  0 < N -> len fs = N ->
  Threads.run (repeat Threads.Receiver (2 * length fs) ++ [Threads.Receiver]
               ++ repeat (Threads.Consumer 0) (2 * length fs))
              (Threads.start N (fs ++ f :: todo) (S clients))
  = Threads.mkstate (Queue.mk N []) (Threads.At_get f todo)
                    (repeat Threads.At_empty (S clients))
                    (map Threads.Was_put fs ++ map (Threads.Was_yielded 0) fs)
  /\ forall later,
       Threads.run later
         (Threads.mkstate (Queue.mk N []) (Threads.At_get f todo)
                          (repeat Threads.At_empty (S clients))
                          (map Threads.Was_put fs ++ map (Threads.Was_yielded 0) fs))
       = Threads.mkstate (Queue.mk N []) (Threads.At_get f todo)
                         (repeat Threads.At_empty (S clients))
                         (map Threads.Was_put fs ++ map (Threads.Was_yielded 0) fs).
Proof.
  intros HN Hl. split.
  - rewrite !run_app. unfold Threads.start, Queue.create.
    rewrite run_fill by (change (len (@nil frame)) with 0; lia).
    cbn [app Threads.run]. unfold Threads.step at 1.
    cbn [Threads.receiver Threads.shared Threads.consumers Threads.history].
    unfold Queue.full, Queue.qsize. cbn [Queue.items Queue.maxsize].
    replace (0 <? N) with true by (symmetry; apply Z.ltb_lt; lia).
    replace (N <=? len fs) with true by (symmetry; apply Z.leb_le; lia).
    cbn [andb repeat]. rewrite run_drain. reflexivity.
  - intros later. eapply run_stuck; reflexivity.
Qed.

(** X13 with capacity 1 and one generator: [HELLO] is put, found full,
    taken by the generator; the second [HELLO] is never put. *)
Lemma X13_witness :
  Threads.run [Threads.Receiver; Threads.Receiver; Threads.Receiver;
               Threads.Consumer 0; Threads.Consumer 0]
              (Threads.start 1 [HELLO; HELLO] 1)
  = Threads.mkstate (Queue.mk 1 []) (Threads.At_get HELLO []) [Threads.At_empty]
                    [Threads.Was_put HELLO; Threads.Was_yielded 0 HELLO]
  /\ Threads.run [Threads.Receiver; Threads.Consumer 0; Threads.Receiver]
       (Threads.mkstate (Queue.mk 1 []) (Threads.At_get HELLO []) [Threads.At_empty]
                        [Threads.Was_put HELLO; Threads.Was_yielded 0 HELLO])
     = Threads.mkstate (Queue.mk 1 []) (Threads.At_get HELLO []) [Threads.At_empty]
                       [Threads.Was_put HELLO; Threads.Was_yielded 0 HELLO].
Proof.
  destruct (X13_receiver_can_wait_for_ever 1 [HELLO] HELLO [] 0 eq_refl eq_refl)
    as [Hrun Hstuck].
  split; [exact Hrun | apply Hstuck].
Defined.

(** ** The length prefix, both ways *)

(** X14.  [struct.unpack('!I', d)] as the code uses it: it fails exactly
    when [d] has not four bytes; its value lies in [0, 2^32) and packs
    back to [d]; packing a value in that range and unpacking gives it
    back; so no two headers stand for the same length. *)
Theorem X14_unpack_be32_is_a_bijection :
  (forall d, unpack_be32 d = None <-> len d <> 4)
  /\ (forall d v, unpack_be32 d = Some v -> 0 <= v < 4294967296 /\ pack_be32 v = d)
  /\ (forall n, 0 <= n < 4294967296 -> unpack_be32 (pack_be32 n) = Some n)
  /\ (forall d1 d2 v, unpack_be32 d1 = Some v -> unpack_be32 d2 = Some v -> d1 = d2).
Proof.
  split; [|split; [|split]].
  - intros d. split.
    + intros H E. destruct (unpack_len4 d E) as [v Hv]. congruence.
    + intros H. destruct (unpack_be32 d) as [v|] eqn:E; [|reflexivity].
      destruct (unpack_inv _ _ E) as (Hl & _). contradiction.
  - intros d v H. destruct (unpack_inv _ _ H) as (_ & Hr & Hp). auto.
  - intros n Hn. apply unpack_pack. exact Hn.
  - intros d1 d2 v H1 H2.
    destruct (unpack_inv _ _ H1) as (_ & _ & <-).
    destruct (unpack_inv _ _ H2) as (_ & _ & <-). reflexivity.
Qed.

(** ** The multipart chunk *)

(** X15.  The chunk a generator yields for a frame: 39 bytes longer than
    the frame; it starts with the boundary line and the content-type
    line, the frame follows the blank line at offset 37, and a CRLF
    ends it; distinct frames give distinct chunks. *)
Theorem X15_part_frames_the_payload (f : frame) :
  len (part f) = len f + 39
  /\ take 35 (part f)
     = Multipart.boundary ++ Multipart.CRLF ++ Multipart.content_type ++ Multipart.CRLF
  /\ drop 37 (part f) = f ++ Multipart.CRLF
  /\ (forall g, part f = part g -> f = g).
Proof.
  unfold part. split; [|split; [|split]].
  - rewrite !len_app. change (len Multipart.boundary) with 7.
    change (len Multipart.CRLF) with 2. change (len Multipart.content_type) with 24. lia.
  - reflexivity.
  - reflexivity.
  - intros g H. apply app_inv_head in H. apply app_inv_tail in H. exact H.
Qed.

(** ** From the producer to the generator *)

(** X16.  From the producer to the HTTP client: after
    [stream_server.py] served a connection made of bursts, on a queue
    within its positive capacity, a generator
    yields the chunks of the last [maxsize] frames of the old items
    followed by the frames sent (of all when they are fewer), in order,
    and from then on only sleeps 10 ms; the queue is empty. *)
Theorem X16_frames_sent_are_the_parts_yielded
        (bs : list burst) (q : Queue.t) (t : Z) (k : nat) :
  bursts_ok bs -> bounded_queue q = true ->
  generate_frames
    (Z.to_nat (Z.min (len (Queue.items q ++ concat (map fst bs))) (Queue.maxsize q)) + k)
    (queue (Server.serve true q (mkio t (stream_of bs))))
  = Some (map (fun f => Yield (part f))
              (lastn (Z.min (len (Queue.items q ++ concat (map fst bs))) (Queue.maxsize q))
                     (Queue.items q ++ concat (map fst bs)))
          ++ repeat (Idle 10) k,
          Queue.mk (Queue.maxsize q) []).
Proof.
  intros Hok Hb. destruct (Server_serve_bursts bs q t Hok Hb) as (q' & Hall & Hs).
  rewrite Hs. cbn [queue]. rewrite push_all_bounded in Hall by assumption.
  inversion Hall as [Hq]. clear Hall.
  set (l := lastn _ _).
  assert (Hlen : Z.to_nat (Z.min (len (Queue.items q ++ concat (map fst bs)))
                              (Queue.maxsize q)) = length l).
  { unfold l. apply bounded_queue_iff in Hb.
    pose proof (len_nonneg (Queue.items q ++ concat (map fst bs))).
    pose proof (len_lastn (Z.min (len (Queue.items q ++ concat (map fst bs)))
                                 (Queue.maxsize q))
                          (Queue.items q ++ concat (map fst bs)) ltac:(lia)) as Hl.
    unfold len in Hl at 1. lia. }
  rewrite Hlen. apply generate_frames_items.
Qed.

(** X16 on [HELLO] in nine reads: one chunk, then a sleep. *)
Lemma X16_witness :
  generate_frames 2
    (queue (Server.serve true frame_queue
              (mkio 0 (stream_of [([HELLO], hello_by_bytes 1)]))))
  = Some ([Yield (part HELLO); Idle 10], Queue.mk 10 []).
Proof.
  apply (X16_frames_sent_are_the_parts_yielded
           [([HELLO], hello_by_bytes 1)] frame_queue 0 1).
  - repeat split; vm_compute; reflexivity.
  - reflexivity.
Defined.

(** ** A producer that goes silent *)

(** X17.  A producer that goes silent is dropped by [stream_server.py]:
    when a connection delivers fewer than four bytes, or a whole header
    and then fewer bytes than it announces, amid time-outs and
    interrupted calls that last ten seconds or more in all, the read
    loop ends on [socket.timeout]; it puts nothing and leaves the queue
    as it was. *)
Theorem X17_a_silent_producer_is_dropped
        (q : Queue.t) (sc rest : script) (t : Z) :
  stalling sc = true -> 10000 <= total_delay sc ->
  (len (bytes_of sc) < 4 ->
     ended (Server.serve true q (mkio t (sc ++ rest))) = Timed_out
     /\ puts (Server.serve true q (mkio t (sc ++ rest))) = []
     /\ queue (Server.serve true q (mkio t (sc ++ rest))) = q)
  /\ (forall N cs,
        0 <= N <= 10000000 -> timely cs = true -> payload_of cs = pack_be32 N ->
        delay_of cs < 10000 -> len (bytes_of sc) < N ->
        ended (Server.serve true q (mkio t (chunks cs ++ sc ++ rest))) = Timed_out
        /\ puts (Server.serve true q (mkio t (chunks cs ++ sc ++ rest))) = []
        /\ queue (Server.serve true q (mkio t (chunks cs ++ sc ++ rest))) = q).
Proof.
  intros Hs Hd.
  assert (Hstall : forall n t0, len (bytes_of sc) < n ->
            exists s1, Server.recvall (mkio t0 (sc ++ rest)) n = (Raise_timeout, s1)).
  { intros n t0 Hn.
    pose proof (Server_recvall_loop_stall (S (weight (sc ++ rest))) t0 n [] sc rest t0 Hs) as H.
    change (len (@nil byte)) with 0 in H.
    specialize (H ltac:(lia) ltac:(lia) ltac:(lia)).
    unfold Server.recvall. cbn [pending clock].
    destruct (Server.recvall_loop _ t0 n [] _) as [r s1]. cbn [fst] in H. subst r.
    exists s1. reflexivity. }
  split.
  - intros Hl. rewrite Server_serve_step. unfold Server.read_frame.
    destruct (Hstall 4 t Hl) as [s1 E]. rewrite E. auto.
  - intros N cs HN Hc Hp Hdc Hl. rewrite Server_serve_step. unfold Server.read_frame.
    destruct (Server_recvall_delivery 4 cs (sc ++ rest) t Hc)
      as (cs1 & t1 & E1 & Hc1 & Hp1 & Ht1 & Hle1);
      [rewrite Hp, len_pack; lia | assumption |].
    rewrite E1, Hp. rewrite Hp in Hp1.
    rewrite (take_all 4 (pack_be32 N)) by (rewrite len_pack; lia).
    rewrite drop_all in Hp1 by (rewrite len_pack; lia).
    apply timely_payload_nil in Hp1; [|assumption]. subst cs1. cbn [chunks map app].
    cbn [falsy]. change (is_empty (pack_be32 N)) with false. cbv iota.
    rewrite unpack_pack by lia.
    replace (10000000 <? N) with false by (symmetry; apply Z.ltb_ge; lia).
    destruct (Hstall N t1 Hl) as [s2 E]. rewrite E. auto.
Qed.

(** X17 on two bytes, and on a header of 5 and two bytes, followed by a
    time-out and an interrupted call of five seconds each. *)
Lemma X17_witness :
  ended (Server.serve true frame_queue
           (mkio 0 ([(0, Data [x48; x45]); (5000, Timeout); (5000, Eintr)] ++ [])))
  = Timed_out
  /\ ended (Server.serve true frame_queue
              (mkio 0 (chunks [(0, pack_be32 5)]
                       ++ [(0, Data [x48; x45]); (5000, Timeout); (5000, Eintr)] ++ [])))
     = Timed_out.
Proof.
  pose proof (X17_a_silent_producer_is_dropped
                frame_queue [(0, Data [x48; x45]); (5000, Timeout); (5000, Eintr)] [] 0
                eq_refl ltac:(vm_compute; discriminate)) as [H1 H2].
  split.
  - apply H1. reflexivity.
  - apply (H2 5 [(0, pack_be32 5)]); [lia | reflexivity | reflexivity | reflexivity | reflexivity].
Defined.

(** ** What [/status] can report *)

Lemma Server_serve_keeps_bounded b q s :
  bounded_queue q = true ->
  bounded_queue (queue (Server.serve b q s)) = true
  /\ Queue.maxsize (queue (Server.serve b q s)) = Queue.maxsize q.
Proof.
  intros Hb. destruct b.
  - destruct (Server_serve_queue s q Hb) as (_ & _ & _ & _ & H5).
    pose proof (push_all_keeps_bounded _ _ _ Hb H5) as Hb'.
    rewrite push_all_bounded in H5 by assumption. inversion H5 as [H6].
    split; [rewrite H6; exact Hb' | reflexivity].
  - split; [exact Hb | reflexivity].
Qed.

Lemma cleanup_client_buffer w : buffer (cleanup_client w) = buffer w.
Proof. unfold cleanup_client. destruct (current_client (self w)); reflexivity. Qed.

Lemma setup_socket_buffer w : buffer (snd (setup_socket w)) = buffer w.
Proof.
  unfold setup_socket. destruct (server_socket (self w)); cbn; destruct (port_free w);
    reflexivity.
Qed.

Lemma accept_buffer w c w2 : accept w = (c, w2) -> buffer w2 = buffer w.
Proof.
  unfold accept. intros H. destruct (server_socket (self w)) as [l|]; [|inversion H; reflexivity].
  destruct (listening l && negb (closed l)); [|inversion H; reflexivity].
  destruct (incoming w) as [|[sc|] rest]; inversion H; reflexivity.
Qed.

Lemma receive_frames_pass_buffer w w' :
  bounded_queue (buffer w) = true -> receive_frames_pass w = Some w' ->
  bounded_queue (buffer w') = true /\ Queue.maxsize (buffer w') = Queue.maxsize (buffer w).
Proof.
  intros Hb H. unfold receive_frames_pass in H.
  destruct (match server_socket (self w) with
            | Some _ => (true, w)
            | None => setup_socket w
            end) as [ok w1] eqn:E1.
  assert (Hw1 : buffer w1 = buffer w).
  { destruct (server_socket (self w)); [inversion E1; reflexivity|].
    rewrite <- (setup_socket_buffer w), E1. reflexivity. }
  destruct (negb ok).
  { inversion H; subst. rewrite cleanup_client_buffer, Hw1. auto. }
  destruct (accept w1) as [[c|] w2] eqn:Ea; pose proof (accept_buffer _ _ _ Ea) as Hw2.
  - destruct (Server_serve_keeps_bounded (running (self w2)) (buffer w2) c) as [K1 K2];
      [rewrite Hw2, Hw1; exact Hb|].
    destruct (ended _) in H; inversion H; subst;
      rewrite ?cleanup_client_buffer; cbn [sleep buffer];
      rewrite ?cleanup_client_buffer; cbn [buffer];
      (split; [exact K1 | rewrite K2, Hw2, Hw1; reflexivity]).
  - inversion H; subst. rewrite cleanup_client_buffer. cbn [sleep buffer].
    rewrite cleanup_client_buffer, Hw2, Hw1. auto.
Qed.

Lemma receive_frames_buffer k : forall w w' n,
  bounded_queue (buffer w) = true -> receive_frames k w = Some (w', n) ->
  bounded_queue (buffer w') = true /\ Queue.maxsize (buffer w') = Queue.maxsize (buffer w).
Proof.
  induction k as [|k IH]; intros w w' n Hb H.
  - inversion H; subst. auto.
  - cbn [receive_frames] in H. destruct (running (self w)); [|inversion H; subst; auto].
    destruct (receive_frames_pass w) as [w1|] eqn:Hp; [|discriminate H].
    destruct (receive_frames k w1) as [[w2 m]|] eqn:Hr; [|discriminate H].
    inversion H; subst.
    destruct (receive_frames_pass_buffer _ _ Hb Hp) as [B1 M1].
    destruct (IH _ _ _ B1 Hr) as [B2 M2]. split; [exact B2 | congruence].
Qed.

Lemma perform_buffer o w w' :
  bounded_queue (buffer w) = true -> perform o w = Some w' ->
  bounded_queue (buffer w') = true /\ Queue.maxsize (buffer w') = Queue.maxsize (buffer w).
Proof.
  intros Hb H. destruct o as [| |k|]; cbn [perform] in H.
  - inversion H; subst. rewrite setup_socket_buffer. auto.
  - inversion H; subst. rewrite cleanup_client_buffer. auto.
  - destruct (receive_frames k w) as [[w1 n]|] eqn:E; [|discriminate H].
    inversion H; subst. eapply receive_frames_buffer; eauto.
  - inversion H; subst. unfold stop.
    destruct (server_socket (self (cleanup_client _))); cbn [with_self with_effects buffer];
      rewrite cleanup_client_buffer; cbn; auto.
Qed.

Lemma perform_all_buffer os : forall w w',
  bounded_queue (buffer w) = true -> perform_all os w = Some w' ->
  bounded_queue (buffer w') = true /\ Queue.maxsize (buffer w') = Queue.maxsize (buffer w).
Proof.
  induction os as [|o os IH]; intros w w' Hb H.
  - inversion H; subst. auto.
  - cbn [perform_all] in H. destruct (perform o w) as [w1|] eqn:E; [|discriminate H].
    destruct (perform_buffer _ _ _ Hb E) as [B1 M1].
    destruct (IH _ _ B1 H) as [B2 M2]. split; [exact B2 | congruence].
Qed.

(** X18.  Whatever is done with the receiver of [stream_server.py] after
    its construction, the [queue_size] that [/status] reports lies
    between 0 and 10, and the queue keeps its capacity of 10. *)
Theorem X18_status_reports_at_most_ten_frames
        (port : Z) (free : bool) (conns : list (option script))
        (os : list operation) (w' : world) :
  perform_all os (init port free conns) = Some w' ->
  0 <= fst (status (Some (self w')) (buffer w')) <= 10
  /\ Queue.maxsize (buffer w') = 10.
Proof.
  intros H.
  assert (Hb : bounded_queue (buffer (init port free conns)) = true).
  { unfold init. rewrite setup_socket_buffer. reflexivity. }
  destruct (perform_all_buffer os _ _ Hb H) as [B M].
  assert (Hm : Queue.maxsize (buffer w') = 10).
  { rewrite M. unfold init. rewrite setup_socket_buffer. reflexivity. }
  split; [|exact Hm]. apply bounded_queue_iff in B. cbn [status fst].
  unfold Queue.qsize in *. pose proof (len_nonneg (Queue.items (buffer w'))). lia.
Qed.
(** X18 after a pass that received twelve frames: [queue_size] is 10. *)
Lemma X18_witness :
  exists w',
    perform_all [Op_receive_frames 1]
      (init 5555 true
         [Some (chunks (map (fun b => (0, wire [b])) (HELLO ++ HELLO ++ [x01; x02])))])
    = Some w'
    /\ put_effects (effects w')
       = map (fun b => [b]) (HELLO ++ HELLO ++ [x01; x02])
    /\ fst (status (Some (self w')) (buffer w')) = 10
    /\ 0 <= fst (status (Some (self w')) (buffer w')) <= 10
    /\ Queue.maxsize (buffer w') = 10.
Proof.
  eexists. split; [vm_compute; reflexivity|].
  split; [reflexivity|]. split; [reflexivity|].
  apply (X18_status_reports_at_most_ten_frames
           5555 true
           [Some (chunks (map (fun b => (0, wire [b])) (HELLO ++ HELLO ++ [x01; x02])))]
           [Op_receive_frames 1]).
  vm_compute. reflexivity.
Defined.
